(** * MTS: a 1-D hybridizable discontinuous Galerkin solver

    A shallow embedding of [SystemSolver.cpp] and of the tolerance handling
    of [Solver.cpp], together with the properties of the written
    specification that concern the state-vector layout, the assembly of the
    cell matrices, the boundary update, the residual, the statically
    condensed Jacobian solve, the initial-condition closure and the reading
    of the integrator tolerances.

    Conventions of the embedding.
    - A C++ [double] is an element of an abstract carrier with the
      operations the code uses ([Scalar]).  Properties that need algebra
      assume the ring laws ([ScalarRing]); properties about NaN use a
      carrier that has one ([xdouble]).  On small integers double
      arithmetic is exact, so evaluations over [Z] are evaluations of the
      code.
    - An Eigen vector is a [list] of scalars, an Eigen matrix the list of
      its rows.  Reads outside the bounds (undefined behaviour in Eigen)
      yield [0] and writes outside the bounds are dropped.
    - [gridStructures.hpp], [DiffusionObj.hpp], [SourceObj.hpp] and Eigen's
      LU are not part of the sources at hand: the basis, the providers and
      the solver are parameters of the development.
    - Loop counters and matrix dimensions are natural numbers; the pointer
      offsets of [mapDGtoSundials] are computed in [unsigned int]
      arithmetic as in the code. *)

From Stdlib Require Import ZArith QArith Qcanon Ring Lia.
From stdpp Require Import base option list gmap strings.

(** ** Scalars *)

Class Scalar := {
  carrier : Type;
  s0 : carrier;
  s1 : carrier;
  sadd : carrier → carrier → carrier;
  ssub : carrier → carrier → carrier;
  smul : carrier → carrier → carrier;
  sopp : carrier → carrier;
  seqb : carrier → carrier → bool
}.

Declare Scope scalar_scope.
Delimit Scope scalar_scope with S.
Notation "0" := s0 : scalar_scope.
Notation "1" := s1 : scalar_scope.
Infix "+" := sadd : scalar_scope.
Infix "-" := ssub : scalar_scope.
Infix "*" := smul : scalar_scope.
Notation "- x" := (sopp x) : scalar_scope.

(** The laws of exact arithmetic. *)
Class ScalarRing (S : Scalar) : Prop :=
  scalar_ring : ring_theory s0 s1 sadd smul ssub sopp (@eq carrier).

#[export] Instance Z_scalar : Scalar :=
  {| carrier := Z; s0 := 0%Z; s1 := 1%Z; sadd := Z.add; ssub := Z.sub;
     smul := Z.mul; sopp := Z.opp; seqb := Z.eqb |}.

#[export] Instance Z_scalar_ring : ScalarRing Z_scalar.
Proof.
  constructor; cbn; intros; lia.
Qed.

(** Doubles with a NaN: every operation on a NaN gives a NaN, and a NaN
    compares unequal to everything. *)
Inductive xdouble : Type :=
| Fin (z : Z)
| NaN.

Definition xlift2 (f : Z → Z → Z) (a b : xdouble) : xdouble :=
  match a, b with
  | Fin x, Fin y => Fin (f x y)
  | _, _ => NaN
  end.

Definition xopp (a : xdouble) : xdouble :=
  match a with Fin x => Fin (- x) | NaN => NaN end.

Definition xeqb (a b : xdouble) : bool :=
  match a, b with
  | Fin x, Fin y => Z.eqb x y
  | _, _ => false
  end.

Definition is_nan (a : xdouble) : bool :=
  match a with NaN => true | Fin _ => false end.

Definition xdouble_scalar : Scalar :=
  {| carrier := xdouble; s0 := Fin 0; s1 := Fin 1; sadd := xlift2 Z.add;
     ssub := xlift2 Z.sub; smul := xlift2 Z.mul; sopp := xopp; seqb := xeqb |}.

(** ** [unsigned int] arithmetic *)

(** The value of an [unsigned int] expression whose exact value is [n]:
    the arithmetic is modulo [2^32], so wrapping the exact value once is
    the same as wrapping after every operation. *)
Definition u32 (n : nat) : nat := Z.to_nat (Z.of_nat n mod 4294967296).

(** ** Dense vectors and matrices *)

Abbreviation Vec := (list carrier).
Abbreviation Mat := (list (list carrier)).

Section LinAlg.
Context {S : Scalar}.

Definition vget (v : Vec) (i : nat) : carrier := default 0%S (v !! i).
Definition mget (M : Mat) (r c : nat) : carrier := vget (default [] (M !! r)) c.

Definition vbuild (n : nat) (f : nat → carrier) : Vec := f <$> seq 0 n.
Definition mbuild (n m : nat) (f : nat → nat → carrier) : Mat :=
  (λ r, vbuild m (f r)) <$> seq 0 n.

(** [Eigen::VectorXd v(n); v.setZero()] and the matrix analogue. *)
Definition vzero (n : nat) : Vec := vbuild n (λ _, 0%S).
Definition mzero (n m : nat) : Mat := mbuild n m (λ _ _, 0%S).

(** [v.setZero()], [M.setZero()]: the dimensions are kept. *)
Definition vsetZero (v : Vec) : Vec := (λ _, 0%S) <$> v.
Definition msetZero (M : Mat) : Mat := vsetZero <$> M.

Definition in_range (lo n i : nat) : bool := (lo <=? i) && (i <? lo + n).

(** [v.block(off,0,n,1)] read, assigned, [+=] and [-=]. *)
Definition vblock (v : Vec) (off n : nat) : Vec := vbuild n (λ i, vget v (off + i)).
Definition set_vblock (v : Vec) (off n : nat) (b : Vec) : Vec :=
  imap (λ i x, if in_range off n i then vget b (i - off) else x) v.
Definition add_vblock (v : Vec) (off n : nat) (b : Vec) : Vec :=
  imap (λ i x, if in_range off n i then (x + vget b (i - off))%S else x) v.
Definition sub_vblock (v : Vec) (off n : nat) (b : Vec) : Vec :=
  imap (λ i x, if in_range off n i then (x - vget b (i - off))%S else x) v.

(** [v(i) = x], [v(i) += x], [v(i) -= x]. *)
Definition vset (v : Vec) (i : nat) (x : carrier) : Vec := <[i := x]> v.
Definition vadd_at (v : Vec) (i : nat) (x : carrier) : Vec := alter (λ y, (y + x)%S) i v.
Definition vsub_at (v : Vec) (i : nat) (x : carrier) : Vec := alter (λ y, (y - x)%S) i v.

(** [M.block(r0,c0,h,w)] read, assigned and [+=]. *)
Definition block (M : Mat) (r0 c0 h w : nat) : Mat :=
  mbuild h w (λ r c, mget M (r0 + r) (c0 + c)).
Definition set_block (M : Mat) (r0 c0 h w : nat) (B : Mat) : Mat :=
  imap (λ r row, imap (λ c x,
    if in_range r0 h r && in_range c0 w c then mget B (r - r0) (c - c0) else x) row) M.
Definition add_block (M : Mat) (r0 c0 h w : nat) (B : Mat) : Mat :=
  imap (λ r row, imap (λ c x,
    if in_range r0 h r && in_range c0 w c then (x + mget B (r - r0) (c - c0))%S else x) row) M.

Definition mset (M : Mat) (r c : nat) (x : carrier) : Mat := alter (λ row, <[c := x]> row) r M.
Definition madd_at (M : Mat) (r c : nat) (x : carrier) : Mat :=
  alter (λ row, alter (λ y, (y + x)%S) c row) r M.

(** Coefficient-wise arithmetic. *)
Definition vadd (a b : Vec) : Vec := zip_with sadd a b.
Definition vsub (a b : Vec) : Vec := zip_with ssub a b.
Definition vopp (a : Vec) : Vec := sopp <$> a.
Definition madd (A B : Mat) : Mat := zip_with vadd A B.
Definition msub (A B : Mat) : Mat := zip_with vsub A B.
Definition mopp (A : Mat) : Mat := vopp <$> A.
Definition vscale (x : carrier) (a : Vec) : Vec := (λ y, (y * x)%S) <$> a.
Definition mscale (x : carrier) (A : Mat) : Mat := vscale x <$> A.

(** Products.  [mtranspose n m M] is the transpose of the [n]-by-[m]
    matrix [M]. *)
Definition dot (a b : Vec) : carrier := foldr sadd 0%S (zip_with smul a b).
Definition mat_vec (M : Mat) (v : Vec) : Vec := (λ row, dot row v) <$> M.
Definition mtranspose (n m : nat) (M : Mat) : Mat := mbuild m n (λ r c, mget M c r).
Definition mcol (M : Mat) (c : nat) : Vec := (λ row, vget row c) <$> M.
Definition mat_mul (A : Mat) (m : nat) (B : Mat) : Mat :=
  (λ row, (λ c, dot row (mcol B c)) <$> seq 0 m) <$> A.

End LinAlg.

(** ** The problem: grid, boundary data, basis, providers, dense LU *)

Record Interval {S : Scalar} := { x_l : carrier; x_u : carrier }.

Record BoundaryConditions {S : Scalar} := {
  LowerBound : carrier;
  UpperBound : carrier;
  isLBoundDirichlet : bool;
  isUBoundDirichlet : bool;
  g_D : carrier → carrier → carrier;
  g_N : carrier → carrier → carrier
}.

(** The coefficients of a DG field as a provider reads them:
    [coeffs[var][cell]] is a vector of [k+1] numbers. *)
Abbreviation DGval := (list (list (list carrier))).

(** What the solver object is constructed with and never changes, and the
    collaborators whose code is elsewhere.  [MassMatrix], [DerivativeMatrix]
    and the provider matrices fill a matrix passed by reference: they are
    functions of the matrix they are handed.  [setdFduMat] is the dF/du
    block of the source provider, which [SystemSolver.cpp] never calls. *)
Class Problem {S : Scalar} := {
  grid : list Interval;
  k : nat;
  nCells : nat;
  nVar : nat;
  RHS : carrier → carrier;
  tau : carrier → carrier;
  c_fn : carrier → carrier;
  BCs : BoundaryConditions;
  (* LegendreBasis and DGApprox *)
  phi : Interval → nat → carrier → carrier;
  MassMatrix : Interval → Mat → Mat;
  MassMatrixW : Interval → Mat → (carrier → carrier) → Mat;
  DerivativeMatrix : Interval → Mat → Mat;
  DerivativeMatrixW : Interval → Mat → (carrier → carrier) → Mat;
  CellProduct : Interval → (carrier → carrier) → (carrier → carrier) → carrier;
  assign : (carrier → carrier) → nat → Interval → Vec;
  (* DiffusionObj *)
  getKappaFunc : nat → carrier → DGval → DGval → carrier;
  NLqMat : Mat → DGval → DGval → Interval → Mat;
  NLuMat : Mat → DGval → DGval → Interval → Mat;
  (* SourceObj *)
  getSourceFunc : nat → carrier → DGval → DGval → carrier;
  setdFdqMat : Mat → DGval → DGval → Interval → Mat;
  setdFduMat : Mat → DGval → DGval → Interval → Mat;
  (* Eigen::FullPivLU and Eigen's norm *)
  lu_solve : Mat → Vec → Vec;
  norm : Vec → carrier
}.

(** ** The state vector: [mapDGtoSundials] *)

(** An [Eigen::Map] is a window on an array owned by somebody else: the
    offset of its first entry and its length. *)
Definition View : Type := nat * nat.

(** The [coeffs] member of a [DGApprox]: a window per variable and cell. *)
Abbreviation DGApprox := (list (list View)).

Section Layout.
Context {S : Scalar} {P : Problem}.

Definition cell (i : nat) : Interval := default {| x_l := 0%S; x_u := 0%S |} (grid !! i).

(** The body of the loop over the cells, for one variable. *)
Definition cellSigCoeffs (var : nat) : list View :=
  (λ i, (u32 (var * (k + 1)) + u32 (i * 3 * nVar * (k + 1)), u32 (k + 1))) <$> seq 0 nCells.
Definition cellQCoeffs (var : nat) : list View :=
  (λ i, (u32 (nVar * (k + 1)) + u32 (var * (k + 1)) + u32 (i * 3 * nVar * (k + 1)), u32 (k + 1)))
    <$> seq 0 nCells.
Definition cellUCoeffs (var : nat) : list View :=
  (λ i, (u32 (2 * nVar * (k + 1)) + u32 (var * (k + 1)) + u32 (i * 3 * nVar * (k + 1)), u32 (k + 1)))
    <$> seq 0 nCells.

Definition lamView : View := (u32 (nVar * nCells * (3 * k + 3)), u32 (nVar * (nCells + 1))).

(** [mapDGtoSundials(sigma, q, u, lam, Y)]: the windows are appended to the
    fields, and [lam] is rebound in every turn of the loop over the
    variables. *)
Definition mapDGtoSundials (sigma q u : DGApprox) (lam : View)
  : DGApprox * DGApprox * DGApprox * View :=
  foldl (λ '(sigma, q, u, lam) var,
          (sigma ++ [cellSigCoeffs var], q ++ [cellQCoeffs var], u ++ [cellUCoeffs var], lamView))
        (sigma, q, u, lam) (seq 0 nVar).

(** [mapDGtoSundials(u, Y)]. *)
Definition mapDGtoSundials_u (u : DGApprox) : DGApprox :=
  foldl (λ u var, u ++ [cellUCoeffs var]) u (seq 0 nVar).

(** [mapDGtoSundials(SQU_cell, lam, Y)]. *)
Definition mapDGtoSundials_cellwise : list View * View :=
  (foldl (λ SQU_cell i, SQU_cell ++ [(u32 (i * 3 * nVar * (k + 1)), u32 (nVar * 3 * (k + 1)))])
         [] (seq 0 nCells),
   lamView).

(** [d.coeffs[var][i].second]. *)
Definition coeffs (d : DGApprox) (var i : nat) : View :=
  default (0, 0) (default [] (d !! var) !! i).

(** Reading and writing an array through a window. *)
Definition read (Y : Vec) (w : View) : Vec := vblock Y w.1 w.2.
Definition write (Y : Vec) (w : View) (b : Vec) : Vec := set_vblock Y w.1 w.2 b.

(** The field as the providers see it. *)
Definition DGread (Y : Vec) (d : DGApprox) : DGval := (λ cells : list View, read Y <$> cells) <$> d.

(** The number of entries of the state vector. *)
Definition state_length : nat := nVar * 3 * nCells * (k + 1) + nVar * (nCells + 1).

(** The state vector has fewer than [2^32] entries: no offset wraps. *)
Definition fits32 : Prop := (Z.of_nat state_length < 4294967296)%Z.

(** The layout as the specification words it: block [s] (0 = sigma,
    1 = q, 2 = u) of variable [v] in cell [i] starts at [block_offset s v i];
    the trace of variable [v] at face [j] is at [lambda_offset v j]. *)
Definition block_offset (s v i : nat) : nat :=
  i * (3 * nVar * (k + 1)) + s * (nVar * (k + 1)) + v * (k + 1).
Definition lambda_offset (v j : nat) : nat :=
  3 * nVar * (k + 1) * nCells + v * (nCells + 1) + j.

End Layout.

(** ** The solver object *)

(** The members of [SystemSolver] that change during a run. *)
Record SystemSolver {S : Scalar} := mkSystemSolver {
  XMats : list Mat;
  MBlocks : list Mat;
  CEBlocks : list Mat;
  K_global : Mat;
  L_global : Vec;
  H_global : Mat;
  H_global_mat : Mat;
  CG_cellwise : list Mat;
  RF_cellwise : list Vec;
  A_cellwise : list Mat;
  B_cellwise : list Mat;
  D_cellwise : list Mat;
  E_cellwise : list Mat;
  C_cellwise : list Mat;
  G_cellwise : list Mat;
  H_cellwise : list Mat;
  (* windows on the integrator's vectors Y and dYdt *)
  sig : DGApprox;
  q : DGApprox;
  u : DGApprox;
  dsigdt : DGApprox;
  dqdt : DGApprox;
  dudt : DGApprox;
  lambda : option View;
  dlamdt : option View;
  initialised : bool;
  alpha : carrier;
  total_steps : nat;
  resNorm : carrier;
  isTesting : bool
}.

Section Setters.
Context {S : Scalar}.

Definition set_boundary (RF : list Vec) (L : Vec) (s : SystemSolver) : SystemSolver :=
  mkSystemSolver S (XMats s) (MBlocks s) (CEBlocks s) (K_global s) L (H_global s)
    (H_global_mat s) (CG_cellwise s) RF (A_cellwise s) (B_cellwise s) (D_cellwise s)
    (E_cellwise s) (C_cellwise s) (G_cellwise s) (H_cellwise s) (sig s) (q s) (u s)
    (dsigdt s) (dqdt s) (dudt s) (lambda s) (dlamdt s) (initialised s) (alpha s)
    (total_steps s) (resNorm s) (isTesting s).

Definition set_K_global (K : Mat) (s : SystemSolver) : SystemSolver :=
  mkSystemSolver S (XMats s) (MBlocks s) (CEBlocks s) K (L_global s) (H_global s)
    (H_global_mat s) (CG_cellwise s) (RF_cellwise s) (A_cellwise s) (B_cellwise s)
    (D_cellwise s) (E_cellwise s) (C_cellwise s) (G_cellwise s) (H_cellwise s) (sig s)
    (q s) (u s) (dsigdt s) (dqdt s) (dudt s) (lambda s) (dlamdt s) (initialised s)
    (alpha s) (total_steps s) (resNorm s) (isTesting s).

Definition set_stats (steps : nat) (rn : carrier) (s : SystemSolver) : SystemSolver :=
  mkSystemSolver S (XMats s) (MBlocks s) (CEBlocks s) (K_global s) (L_global s)
    (H_global s) (H_global_mat s) (CG_cellwise s) (RF_cellwise s) (A_cellwise s)
    (B_cellwise s) (D_cellwise s) (E_cellwise s) (C_cellwise s) (G_cellwise s)
    (H_cellwise s) (sig s) (q s) (u s) (dsigdt s) (dqdt s) (dudt s) (lambda s)
    (dlamdt s) (initialised s) (alpha s) steps rn (isTesting s).

Definition set_fields (sg qq uu dsg dqq duu : DGApprox) (lam dlam : option View)
    (s : SystemSolver) : SystemSolver :=
  mkSystemSolver S (XMats s) (MBlocks s) (CEBlocks s) (K_global s) (L_global s)
    (H_global s) (H_global_mat s) (CG_cellwise s) (RF_cellwise s) (A_cellwise s)
    (B_cellwise s) (D_cellwise s) (E_cellwise s) (C_cellwise s) (G_cellwise s)
    (H_cellwise s) sg qq uu dsg dqq duu lam dlam (initialised s) (alpha s)
    (total_steps s) (resNorm s) (isTesting s).

End Setters.

(** A loop whose body may fail. *)
Fixpoint ofoldl {A B : Type} (f : A → B → option A) (a : A) (l : list B) : option A :=
  match l with
  | [] => Some a
  | x :: l => a' ← f a x; ofoldl f a' l
  end.

(** ** Assembly *)

Section Assembly.
Context {S : Scalar} {P : Problem}.

Definition atLowerBound (I : Interval) : bool := seqb (x_l I) (LowerBound BCs).
Definition atUpperBound (I : Interval) : bool := seqb (x_u I) (UpperBound BCs).
Definition lowerDirichlet (I : Interval) : bool := atLowerBound I && isLBoundDirichlet BCs.
Definition upperDirichlet (I : Interval) : bool := atUpperBound I && isUBoundDirichlet BCs.
Definition lowerNeumann (I : Interval) : bool := atLowerBound I && negb (isLBoundDirichlet BCs).
Definition upperNeumann (I : Interval) : bool := atUpperBound I && negb (isUBoundDirichlet BCs).

(** The basis index [j%k+1] of the upper-boundary loop: the remainder by
    [k] is taken first; with [k = 0] the division traps. *)
Definition upper_sigma_index (j : nat) : option nat :=
  if k =? 0 then None else Some (j mod k + 1).

(** The boundary-dependent forcing of one cell at time [t]; shared by
    [initialiseMatrices] (with [t = 0.0]) and [updateBoundaryConditions]. *)
Definition fill_RF (t : carrier) (I : Interval) (rf : Vec) : option Vec :=
  let n := nVar * (k + 1) in
  let rf := vsetZero rf in
  let rf := foldl (λ rf j, vset rf (n + j) (CellProduct I RHS (phi I (j mod (k + 1)))))
                  rf (seq 0 n) in
  let rf :=
    if lowerDirichlet I then
      foldl (λ rf j,
               let rf := vset rf j
                 (- phi I (j mod (k + 1)) (x_l I) * sopp 1 * g_D BCs (x_l I) t)%S in
               vsub_at rf (n + j)
                 (phi I (j mod (k + 1)) (x_l I) * (- c_fn (x_l I) - tau (x_l I))
                  * g_D BCs (x_l I) t)%S)
            rf (seq 0 n)
    else rf in
  if upperDirichlet I then
    ofoldl (λ rf j,
              jj ← upper_sigma_index j;
              let rf := vadd_at rf j (- phi I jj (x_u I) * 1 * g_D BCs (x_u I) t)%S in
              Some (vsub_at rf (n + j)
                      (phi I (j mod (k + 1)) (x_u I) * (c_fn (x_u I) - tau (x_u I))
                       * g_D BCs (x_u I) t)%S))
           rf (seq 0 n)
  else Some rf.

(** The Neumann data of cell [i] in the right-hand side of the trace
    equation. *)
Definition fill_L (t : carrier) (i : nat) (I : Interval) (L : Vec) : Vec :=
  foldl (λ L var,
           let L := if lowerNeumann I
                    then vadd_at L (var * (nCells + 1) + i) (g_N BCs (LowerBound BCs) t)
                    else L in
           if upperNeumann I
           then vadd_at L (var * (nCells + 1) + i + 1) (g_N BCs (UpperBound BCs) t)
           else L)
        L (seq 0 nVar).

(** [updateBoundaryConditions(t)]. *)
Definition updateBoundaryConditions (t : carrier) (s : SystemSolver) : option SystemSolver :=
  '(RF, L) ← ofoldl (λ '(RF, L) i,
                       let I := cell i in
                       rf ← fill_RF t I (default [] (RF !! i));
                       Some (<[i := rf]> RF, fill_L t i I L))
                    (RF_cellwise s, vsetZero (L_global s)) (seq 0 nCells);
  Some (set_boundary RF L s).

End Assembly.

(** A freshly constructed [Eigen::MatrixXd] is not initialised.  The work
    matrices [C] and [E] are allocated once and only their diagonal blocks
    are ever assigned; [Xvar] is allocated for every cell and variable and
    handed to [MassMatrix] as it is. *)
Record Uninitialised {S : Scalar} := {
  C_uninit : Mat;
  E_uninit : Mat;
  Xvar_uninit : nat → nat → Mat
}.

Section Initialise.
Context {S : Scalar} {P : Problem}.

Definition Avar_of (I : Interval) : Mat := MassMatrix I (mzero (k + 1) (k + 1)).
Definition Bvar_of (I : Interval) : Mat := DerivativeMatrix I (mzero (k + 1) (k + 1)).

(** [Dvar]: the weighted derivative matrix, negated and transposed in
    place, plus the boundary terms. *)
Definition Dvar_of (I : Interval) : Mat :=
  let Dvar := DerivativeMatrixW I (mzero (k + 1) (k + 1)) c_fn in
  let Dvar := mscale (sopp 1%S) Dvar in
  let Dvar := mtranspose (k + 1) (k + 1) Dvar in
  foldl (λ Dvar i,
           foldl (λ Dvar j,
                    madd_at Dvar i j
                      (tau (x_l I) * phi I j (x_l I) * phi I i (x_l I)
                       + tau (x_u I) * phi I j (x_u I) * phi I i (x_u I))%S)
                 Dvar (seq 0 (k + 1)))
        Dvar (seq 0 (k + 1)).

Definition A_cell (I : Interval) : Mat :=
  foldl (λ A var, set_block A (var * (k + 1)) (var * (k + 1)) (k + 1) (k + 1) (Avar_of I))
        (mzero (nVar * (k + 1)) (nVar * (k + 1))) (seq 0 nVar).
Definition B_cell (I : Interval) : Mat :=
  foldl (λ B var, set_block B (var * (k + 1)) (var * (k + 1)) (k + 1) (k + 1) (Bvar_of I))
        (mzero (nVar * (k + 1)) (nVar * (k + 1))) (seq 0 nVar).
Definition D_cell (I : Interval) : Mat :=
  foldl (λ D var, set_block D (var * (k + 1)) (var * (k + 1)) (k + 1) (k + 1) (Dvar_of I))
        (mzero (nVar * (k + 1)) (nVar * (k + 1))) (seq 0 nVar).

(** The part of the cell matrix that does not depend on the iterate. *)
Definition M_block (A B D : Mat) : Mat :=
  let n := nVar * (k + 1) in
  let M := mzero (3 * n) (3 * n) in
  (* row1 *)
  let M := set_block M 0 0 n n (mzero n n) in
  let M := set_block M 0 n n n (mopp A) in
  let M := set_block M 0 (2 * n) n n (mopp (mtranspose n n B)) in
  (* row2 *)
  let M := set_block M n 0 n n B in
  let M := set_block M n n n n (mzero n n) in
  let M := set_block M n (2 * n) n n D in
  (* row3 *)
  let M := set_block M (2 * n) 0 n n A in
  let M := set_block M (2 * n) n n n (mzero n n) in
  set_block M (2 * n) (2 * n) n n (mzero n n).

(** [Cvar] and [Evar] of a cell. *)
Definition CEvar_of (I : Interval) : Mat * Mat :=
  foldl (λ '(Cvar, Evar) i,
           let Cvar := mset Cvar 0 i (- phi I i (x_l I))%S in
           let Cvar := mset Cvar 1 i (phi I i (x_u I)) in
           let Evar := mset Evar i 0 (phi I i (x_l I) * (- c_fn (x_l I) - tau (x_l I)))%S in
           let Evar := mset Evar i 1 (phi I i (x_u I) * (c_fn (x_u I) - tau (x_u I)))%S in
           let '(Cvar, Evar) :=
             if lowerDirichlet I then (mset Cvar 0 i 0%S, mset Evar i 0 0%S) else (Cvar, Evar) in
           if upperDirichlet I then (mset Cvar 1 i 0%S, mset Evar i 1 0%S) else (Cvar, Evar))
        (mzero 2 (k + 1), mzero (k + 1) 2) (seq 0 (k + 1)).

Definition CE_fill (I : Interval) (C E : Mat) : Mat * Mat :=
  foldl (λ '(C, E) var,
           let '(Cvar, Evar) := CEvar_of I in
           (set_block C (var * 2) (var * (k + 1)) 2 (k + 1) Cvar,
            set_block E (var * (k + 1)) (var * 2) (k + 1) 2 Evar))
        (C, E) (seq 0 nVar).

Definition CE_vec_of (C E : Mat) : Mat :=
  let n := nVar * (k + 1) in
  let CE := mzero (3 * n) (2 * nVar) in
  let CE := set_block CE 0 0 n (nVar * 2) (mtranspose (2 * nVar) n C) in
  let CE := set_block CE n 0 n (nVar * 2) E in
  set_block CE (2 * n) 0 n (nVar * 2) (mzero n (nVar * 2)).

(** Every entry of [Gvar] is assigned in the loop. *)
Definition Gvar_of (I : Interval) : Mat :=
  foldl (λ Gvar i,
           let Gvar := mset Gvar 0 i (tau (x_l I) * phi I i (x_l I))%S in
           let Gvar := if lowerDirichlet I then mset Gvar 0 i 0%S else Gvar in
           let Gvar := mset Gvar 1 i (tau (x_u I) * phi I i (x_u I))%S in
           if upperDirichlet I then mset Gvar 1 i 0%S else Gvar)
        (mzero 2 (k + 1)) (seq 0 (k + 1)).

Definition G_cell (I : Interval) : Mat :=
  foldl (λ G var, set_block G (2 * var) ((k + 1) * var) 2 (k + 1) (Gvar_of I))
        (mzero (2 * nVar) (nVar * (k + 1))) (seq 0 nVar).

(** [ C 0 G ] *)
Definition CG_of (C G : Mat) : Mat :=
  let n := nVar * (k + 1) in
  let CG := mzero (2 * nVar) (3 * n) in
  let CG := set_block CG 0 0 (2 * nVar) n C in
  let CG := set_block CG 0 n (2 * nVar) n (mzero (2 * nVar) n) in
  set_block CG 0 (2 * n) (2 * nVar) n G.

(** [Hvar] after the two boundary tests. *)
Definition Hvar_of (I : Interval) : Mat :=
  [ [ if lowerDirichlet I then 0%S else (- c_fn (x_l I) - tau (x_l I))%S; 0%S ];
    [ 0%S; if upperDirichlet I then 0%S else (c_fn (x_u I) - tau (x_u I))%S ] ].

(** The loop that fills [H] and adds [Hvar] into [HGlobalMat]. *)
Definition H_fill (i : nat) (I : Interval) (HGlobalMat : Mat) : Mat * Mat :=
  foldl (λ '(H, HG) var,
           (set_block H (2 * var) (2 * var) 2 2 (Hvar_of I),
            add_block HG (var * (nCells + 1) + i) (var * (nCells + 1) + i) 2 2 (Hvar_of I)))
        (mzero (2 * nVar) (2 * nVar), HGlobalMat) (seq 0 nVar).

Definition X_cell (un : Uninitialised) (i : nat) (I : Interval) : Mat :=
  foldl (λ X var,
           set_block X (var * (k + 1)) (var * (k + 1)) (k + 1) (k + 1)
                     (MassMatrix I (Xvar_uninit un i var)))
        (mzero (nVar * (k + 1)) (nVar * (k + 1))) (seq 0 nVar).

(** The state of the loop over the cells: the solver, the work matrices
    [C] and [E], and [HGlobalMat]. *)
Definition init_cell (un : Uninitialised) (st : SystemSolver * Mat * Mat * Mat) (i : nat)
  : option (SystemSolver * Mat * Mat * Mat) :=
  let '(s, C, E, HGlobalMat) := st in
  let I := cell i in
  let A := A_cell I in
  let B := B_cell I in
  let D := D_cell I in
  let M := M_block A B D in
  let '(C, E) := CE_fill I C E in
  let CE_vec := CE_vec_of C E in
  (* RF_cellwise.emplace_back(...); RF_cellwise[ i ] is then filled *)
  let RF := RF_cellwise s ++ [vzero (nVar * 2 * (k + 1))] in
  rf ← fill_RF 0%S I (default [] (RF !! i));
  let RF := <[i := rf]> RF in
  let G := G_cell I in
  (* CG_cellwise.emplace_back(...); CG_cellwise[ i ] is then filled *)
  let CG := CG_cellwise s ++ [mzero (2 * nVar) (3 * nVar * (k + 1))] in
  let CG := alter (λ _, CG_of C G) i CG in
  let '(H, HGlobalMat) := H_fill i I HGlobalMat in
  let L := fill_L 0%S i I (L_global s) in
  let X := X_cell un i I in
  Some (mkSystemSolver S (XMats s ++ [X]) (MBlocks s ++ [M]) (CEBlocks s ++ [CE_vec])
          (K_global s) L (H_global s) (H_global_mat s) CG RF (A_cellwise s ++ [A])
          (B_cellwise s ++ [B]) (D_cellwise s ++ [D]) (E_cellwise s ++ [E])
          (C_cellwise s ++ [C]) (G_cellwise s ++ [G]) (H_cellwise s ++ [H])
          (sig s) (q s) (u s) (dsigdt s) (dqdt s) (dudt s) (lambda s) (dlamdt s)
          (initialised s) (alpha s) (total_steps s) (resNorm s) (isTesting s),
        C, E, HGlobalMat).

(** [clearCellwiseVecs()]: [D_cellwise] and [CEBlocks] are not in the
    list. *)
Definition clearCellwiseVecs (s : SystemSolver) : SystemSolver :=
  mkSystemSolver S [] [] (CEBlocks s) (K_global s) (L_global s) (H_global s)
    (H_global_mat s) [] [] [] [] (D_cellwise s) [] [] [] [] (sig s) (q s) (u s)
    (dsigdt s) (dqdt s) (dudt s) (lambda s) (dlamdt s) (initialised s) (alpha s)
    (total_steps s) (resNorm s) (isTesting s).

(** [initialiseMatrices()]. *)
Definition initialiseMatrices (un : Uninitialised) (s : SystemSolver) : option SystemSolver :=
  let m := nVar * (nCells + 1) in
  let s := set_K_global (mzero m m) s in
  let s := set_boundary (RF_cellwise s) (vzero m) s in
  let s := clearCellwiseVecs s in
  '(s, _, _, HGlobalMat) ←
    ofoldl (init_cell un) (s, C_uninit un, E_uninit un, mzero m m) (seq 0 nCells);
  Some (mkSystemSolver S (XMats s) (MBlocks s) (CEBlocks s) (K_global s) (L_global s)
          HGlobalMat HGlobalMat (CG_cellwise s) (RF_cellwise s) (A_cellwise s)
          (B_cellwise s) (D_cellwise s) (E_cellwise s) (C_cellwise s) (G_cellwise s)
          (H_cellwise s) (sig s) (q s) (u s) (dsigdt s) (dqdt s) (dudt s) (lambda s)
          (dlamdt s) true (alpha s) (total_steps s) (resNorm s) (isTesting s)).

End Initialise.

(** ** The world outside the solver *)

(** What [print(out, t, nOut, var, tempY)] is called with; the text of
    the frame is a function of these and of the problem. *)
Record PlotFrame {S : Scalar} := {
  frame_t : carrier;
  frame_nOut : nat;
  frame_var : nat;
  frame_Y : Vec
}.

(** What is sent to the diagnostic stream, item by item. *)
Inductive LogItem {S : Scalar} : Type :=
| LogVec (v : Vec)
| LogMat (M : Mat)
| LogCoeffs (var : nat) (cs : list Vec)
| LogSummary (res Y Yp : Vec) (t : carrier).

(** The files written so far, each a sequence of frames, and the
    diagnostic stream. *)
Record World {S : Scalar} := {
  files : gmap string (list PlotFrame);
  console : list LogItem
}.

(** ** The residual *)

Record ResidualResult {S : Scalar} := {
  ret : Z;
  resval_out : Vec;
  sys_out : SystemSolver;
  world_out : World
}.

Section Residual.
Context {S : Scalar} {P : Problem}.

Definition nthM (l : list Mat) (i : nat) : Mat := default [] (l !! i).
Definition nthV (l : list Vec) (i : nat) : Vec := default [] (l !! i).

(** [Eigen::FullPivLU(M).solve(b)] for a square matrix [M]: a vector with
    as many entries as [M] has columns; [lu_solve] gives the entries. *)
Definition FullPivLU_solve (M : Mat) (b : Vec) : Vec := vblock (lu_solve M b) 0 (length M).

(** The right-hand side of the trace equation, assembled cell by cell;
    [sigc var i] and [uc var i] are the coefficients of sigma and u.  The
    same loop is in [residual] and in [setInitialConditions]. *)
Definition CsGuL_assemble (s : SystemSolver) (sigc uc : nat → nat → Vec) : Vec :=
  foldl (λ CsGuL_global i,
           foldl (λ CsGuL_global var,
                    let LVarCell := vblock (L_global s) (var * (nCells + 1) + i) 2 in
                    let CsGuLVarCell :=
                      vsub (vsub LVarCell
                              (mat_vec (block (nthM (C_cellwise s) i) (var * 2) (var * (k + 1))
                                              2 (k + 1)) (sigc var i)))
                           (mat_vec (block (nthM (G_cellwise s) i) (var * 2) (var * (k + 1))
                                           2 (k + 1)) (uc var i)) in
                    add_vblock CsGuL_global (var * (nCells + 1) + i) 2 CsGuLVarCell)
                 CsGuL_global (seq 0 nVar))
        (vzero (nVar * (nCells + 1))) (seq 0 nCells).

(** The two trace values of every variable at cell [i]. *)
Definition lamCell_of (lam : Vec) (i : nat) : Vec :=
  foldl (λ lamCell var,
           let lamCell := vset lamCell (2 * var) (vget lam (var * (nCells + 1) + i)) in
           vset lamCell (2 * var + 1) (vget lam (var * (nCells + 1) + i + 1)))
        (vzero (2 * nVar)) (seq 0 nVar).

Definition kappa_cellwise_of (I : Interval) (var : nat) (Q U : DGval) : Vec :=
  foldl (λ v j, vset v j (CellProduct I (λ x, getKappaFunc var x Q U) (phi I j)))
        (vzero (k + 1)) (seq 0 (k + 1)).

Definition F_cellwise_of (I : Interval) (var : nat) (Q U : DGval) : Vec :=
  foldl (λ v j, vset v j (CellProduct I (λ x, getSourceFunc var x Q U)
                                      (phi I (j mod (k + 1)))))
        (vzero (k + 1)) (seq 0 (k + 1)).

Definition res1_of (s : SystemSolver) (i var : nat) (qc uc lamCell : Vec) : Vec :=
  let n := nVar * (k + 1) in
  vsub (vadd (vsub (mat_vec (mopp (block (nthM (A_cellwise s) i) (var * (k + 1))
                                          (var * (k + 1)) (k + 1) (k + 1))) qc)
                   (mat_vec (block (mtranspose n n (nthM (B_cellwise s) i)) (var * (k + 1))
                                   (var * (k + 1)) (k + 1) (k + 1)) uc))
             (mat_vec (block (mtranspose (2 * nVar) n (nthM (C_cellwise s) i))
                             (var * (k + 1)) (var * 2) (k + 1) 2)
                      (vblock lamCell (var * 2) 2)))
       (vblock (nthV (RF_cellwise s) i) (var * (k + 1)) (k + 1)).

Definition res2_of (s : SystemSolver) (i var : nat) (sigc uc lamCell dudtc : Vec) : Vec :=
  vadd (vsub (vadd (vadd (mat_vec (block (nthM (B_cellwise s) i) (var * (k + 1))
                                         (var * (k + 1)) (k + 1) (k + 1)) sigc)
                         (mat_vec (block (nthM (D_cellwise s) i) (var * (k + 1))
                                         (var * (k + 1)) (k + 1) (k + 1)) uc))
                   (mat_vec (block (nthM (E_cellwise s) i) (var * (k + 1)) (var * 2)
                                   (k + 1) 2)
                            (vblock lamCell (var * 2) 2)))
             (vblock (nthV (RF_cellwise s) i) (nVar * (k + 1) + var * (k + 1)) (k + 1)))
       dudtc.

(** The part of [residual] between the boundary update and the
    diagnostics: the residual vector, and what is printed on the way. *)
Definition residual_vector (Y dydt resval : Vec) (s : SystemSolver) (log : list LogItem)
  : Vec * list LogItem :=
  (* before they are bound, the trace windows are on a local array *)
  let memBlock : View := (0, nVar * (nCells + 1)) in
  let '(tempSig, tempQ, tempU, tempLambda) := mapDGtoSundials [] [] [] memBlock in
  let tempdudt := mapDGtoSundials_u [] in
  let '(res1, res2, res3, res4) := mapDGtoSundials [] [] [] memBlock in
  let resval := vsetZero resval in
  let Q := DGread Y tempQ in
  let U := DGread Y tempU in
  let CsGuL_global :=
    CsGuL_assemble s (λ var i, read Y (coeffs tempSig var i))
                     (λ var i, read Y (coeffs tempU var i)) in
  (* lam is a window of nVar*(nCells+1) entries on a local array *)
  let lam := read (FullPivLU_solve (H_global s) CsGuL_global) memBlock in
  let resval := write resval res4 (vadd (vopp (read Y tempLambda)) lam) in
  foldl (λ '(resval, log) i,
           let I := cell i in
           let lamCell := lamCell_of (read Y tempLambda) i in
           foldl (λ '(resval, log) var,
                    let kappa_cellwise := kappa_cellwise_of I var Q U in
                    let F_cellwise := F_cellwise_of I var Q U in
                    let sigc := read Y (coeffs tempSig var i) in
                    let qc := read Y (coeffs tempQ var i) in
                    let uc := read Y (coeffs tempU var i) in
                    let resval := write resval (coeffs res1 var i)
                                        (res1_of s i var qc uc lamCell) in
                    let resval := write resval (coeffs res2 var i)
                                        (res2_of s i var sigc uc lamCell
                                                 (read dydt (coeffs tempdudt var i))) in
                    let resval := write resval (coeffs res2 var i)
                                        (vadd (read resval (coeffs res2 var i)) F_cellwise) in
                    let resval := write resval (coeffs res3 var i)
                                        (vadd sigc kappa_cellwise) in
                    (resval, log ++ [LogVec kappa_cellwise]))
                 (resval, log) (seq 0 nVar))
        (resval, log) (seq 0 nCells).

(** What [residual] leaves in the file [trial.plot]. *)
Definition trial_frame (dydt : Vec) : PlotFrame :=
  {| frame_t := 0%S; frame_nOut := 200; frame_var := 0; frame_Y := dydt |}.

(** [residual(tres, Y, dydt, resval, user_data)]. *)
Definition residual (tres : carrier) (Y dydt resval : Vec) (s : SystemSolver) (w : World)
  : option ResidualResult :=
  s ← updateBoundaryConditions tres s;
  let '(resval, log) := residual_vector Y dydt resval s (console w) in
  (* tempSig.printCoeffs(0) and the line of norms and extrema *)
  let tempSig := (mapDGtoSundials [] [] [] (0, nVar * (nCells + 1))).1.1.1 in
  let log := log ++ [LogCoeffs 0 (read Y <$> default [] (tempSig !! 0))] in
  let log := log ++ [LogSummary resval Y dydt tres] in
  (* std::ofstream out( "trial.plot" ); system->print(out, 0.0, 200, 0, dydt); *)
  let w := {| files := <["trial.plot" := [trial_frame dydt]]> (files w); console := log |} in
  let s := set_stats (total_steps s + 1)
                     (if isTesting s then norm resval else resNorm s) s in
  Some {| ret := 0; resval_out := resval; sys_out := s; world_out := w |}.

End Residual.

(** ** The Jacobian solve *)

Section Jacobian.
Context {S : Scalar} {P : Problem}.

(** Modelled from the spec: [DGApprox::sum] of gridStructures.hpp, which is
    not among the sources; "Sum: F := A + B component-wise". *)
Definition DG_sum (a b : DGval) : DGval := zip_with (zip_with vadd) a b.

(** The alpha-weighted mass matrix, tiled over the variables. *)
Definition X_alpha (a : carrier) (I : Interval) : Mat :=
  foldl (λ X var,
           set_block X (var * (k + 1)) (var * (k + 1)) (k + 1) (k + 1)
                     (MassMatrixW I (mzero (k + 1) (k + 1)) (λ _, a)))
        (mzero (nVar * (k + 1)) (nVar * (k + 1))) (seq 0 nVar).

(** The matrix of cell [i] that [updateMForJacSolve] factorises. *)
Definition MX_of (s : SystemSolver) (a : carrier) (newQ newU : DGval) (i : nat) : Mat :=
  let n := nVar * (k + 1) in
  let I := cell i in
  let MX := nthM (MBlocks s) i in
  let MX := add_block MX n (2 * n) n n (X_alpha a I) in
  let NLq := NLqMat (mzero n n) newQ newU I in
  let MX := set_block MX (2 * n) n n n NLq in
  let NLu := NLuMat (mzero n n) newQ newU I in
  let MX := set_block MX (2 * n) (2 * n) n n NLu in
  let Fq := setdFdqMat (mzero n n) newQ newU I in
  let MX := add_block MX n n n n Fq in
  let Fu := setdFdqMat (mzero n n) newQ newU I in
  add_block MX n n n n Fu.

(** [updateMForJacSolve(MXsolvers, alpha, delQ, delU)]: the matrices and
    what is printed on the way.  [Y] is the array the members [q] and [u]
    are windows on, [delY] the one of [delQ] and [delU]. *)
Definition updateMForJacSolve (s : SystemSolver) (a : carrier) (Y delY : Vec)
    (delQ delU : DGApprox) (log : list LogItem) : list Mat * list LogItem :=
  let n := nVar * (k + 1) in
  let newQ := DG_sum (DGread Y (q s)) (DGread delY delQ) in
  let newU := DG_sum (DGread Y (u s)) (DGread delY delU) in
  foldl (λ '(MXsolvers, log) i,
           (MXsolvers ++ [MX_of s a newQ newU i],
            log ++ [LogMat (NLqMat (mzero n n) newQ newU (cell i));
                    LogMat (NLuMat (mzero n n) newQ newU (cell i))]))
        ([], log) (seq 0 nCells).

(** [lu.solve(B)] for a matrix [B] of [m] columns and [n] rows. *)
Definition lu_solve_mat (M B : Mat) (n m : nat) : Mat :=
  mtranspose m n ((λ c, FullPivLU_solve M (mcol B c)) <$> seq 0 m).

Definition delLambdaCell_of (delLambda : Vec) (i : nat) : Vec :=
  foldl (λ v var, set_vblock v (2 * var) 2 (vblock delLambda (var * (nCells + 1) + i) 2))
        (vzero (2 * nVar)) (seq 0 nVar).

Record JacResult := {
  delY_out : Vec;
  jac_sys : SystemSolver;
  jac_world : World
}.

(** [solveJacEq(g, delY)]. *)
Definition solveJacEq (g delY Y : Vec) (s : SystemSolver) (w : World) : JacResult :=
  let n := nVar * (k + 1) in
  let memBlock : View := (0, nVar * (nCells + 1)) in
  let K := msetZero (K_global s) in
  let '(delSig, delQ, delU, delLambda) := mapDGtoSundials [] [] [] memBlock in
  let delY := vsetZero delY in
  let '(factorisedM, log) := updateMForJacSolve s (alpha s) Y delY delQ delU (console w) in
  let '(g1g2g3_cellwise, g4) := mapDGtoSundials_cellwise in
  let '(SQU_f, SQU_0, K) :=
    foldl (λ '(SQU_f, SQU_0, K) i,
             let g1g2g3 := read g (default (0, 0) (g1g2g3_cellwise !! i)) in
             let f := FullPivLU_solve (nthM factorisedM i) g1g2g3 in
             let CE := nthM (CEBlocks s) i in
             let z := lu_solve_mat (nthM factorisedM i) CE (3 * n) (2 * nVar) in
             let K_cell := msub (nthM (H_cellwise s) i)
                                (mat_mul (nthM (CG_cellwise s) i) (2 * nVar) z) in
             let K := foldl (λ K var,
                               add_block K (var * (nCells + 1) + i) (var * (nCells + 1) + i) 2 2
                                         (block K_cell (var * 2) (var * 2) 2 2))
                            K (seq 0 nVar) in
             (<[i := f]> SQU_f, <[i := z]> SQU_0, K))
          (replicate nCells [], replicate nCells [], K) (seq 0 nCells) in
  let F := read g g4 in
  let F :=
    foldl (λ F i,
             foldl (λ F var,
                      sub_vblock F (var * (nCells + 1) + i) 2
                        (vblock (mat_vec (nthM (CG_cellwise s) i) (nthV SQU_f i)) (var * 2) 2))
                   F (seq 0 nVar))
          F (seq 0 nCells) in
  let delY := write delY delLambda (FullPivLU_solve K F) in
  let delY :=
    foldl (λ delY i,
             let delLambdaCell := delLambdaCell_of (read delY delLambda) i in
             let delSQU := vsub (nthV SQU_f i) (mat_vec (nthM SQU_0 i) delLambdaCell) in
             foldl (λ delY var,
                      let delY := write delY (coeffs delSig var i)
                                        (vblock delSQU (var * (k + 1)) (k + 1)) in
                      let delY := write delY (coeffs delQ var i)
                                        (vblock delSQU (nVar * (k + 1) + var * (k + 1)) (k + 1)) in
                      write delY (coeffs delU var i)
                            (vblock delSQU (2 * nVar * (k + 1) + var * (k + 1)) (k + 1)))
                   delY (seq 0 nVar))
          delY (seq 0 nCells) in
  {| delY_out := delY;
     jac_sys := set_K_global K s;
     jac_world := {| files := files w; console := log |} |}.

End Jacobian.

(** ** The initial-condition closure *)

Section InitialConditions.
Context {S : Scalar} {P : Problem}.

(** Modelled from the spec: [DGApprox::zeroCoeffs] of gridStructures.hpp,
    which is not among the sources; "Zero all coefficients". *)
Definition zeroCoeffs (Y : Vec) (d : DGApprox) : Vec :=
  foldl (λ Y cells, foldl (λ Y v, write Y v (vzero v.2)) Y cells) Y d.

(** Modelled from the spec: the assignment of a function to a [DGApprox]
    of gridStructures.hpp, which is not among the sources; "Assign from a
    pointwise function g: for each (v,i) ... obtain an L2 projection".  The
    projection itself is the parameter [assign]. *)
Definition DG_assign (Y : Vec) (d : DGApprox) (f : carrier → carrier) : Vec :=
  foldl (λ Y var,
           foldl (λ Y i, write Y (coeffs d var i) (assign f var (cell i)))
                 Y (seq 0 (length (default [] (d !! var)))))
        Y (seq 0 (length d)).

Definition dudt_of (s : SystemSolver) (i var : nat) (sigc uc lamCell F_cellwise : Vec) : Vec :=
  vsub (vadd (vsub (vsub (mat_vec (mopp (block (nthM (B_cellwise s) i) (var * (k + 1))
                                                (var * (k + 1)) (k + 1) (k + 1))) sigc)
                         (mat_vec (block (nthM (D_cellwise s) i) (var * (k + 1))
                                         (var * (k + 1)) (k + 1) (k + 1)) uc))
                   (mat_vec (block (nthM (E_cellwise s) i) (var * (k + 1)) (var * 2)
                                   (k + 1) 2) lamCell))
             (vblock (nthV (RF_cellwise s) i) (nVar * (k + 1) + var * (k + 1)) (k + 1)))
       F_cellwise.

Record ICResult := {
  ic_Y : Vec;
  ic_dYdt : Vec;
  ic_sys : SystemSolver
}.

(** [setInitialConditions(u_0, gradu_0, sigma_0, Y, dYdt)]. *)
Definition setInitialConditions (un : Uninitialised) (u_0 gradu_0 sigma_0 : carrier → carrier)
    (Y dYdt : Vec) (s : SystemSolver) : option ICResult :=
  s ← (if initialised s then Some s else initialiseMatrices un s);
  let memBlock : View := (0, nVar * (nCells + 1)) in
  let lam0 := default memBlock (lambda s) in
  let dlam0 := default memBlock (dlamdt s) in
  let '(sg, qq, uu, lam) := mapDGtoSundials (sig s) (q s) (u s) lam0 in
  let '(dsg, dqq, duu, dlam) := mapDGtoSundials (dsigdt s) (dqdt s) (dudt s) dlam0 in
  let s := set_fields sg qq uu dsg dqq duu (Some lam) (Some dlam) s in
  (* resetCoeffs() *)
  let Y := zeroCoeffs Y sg in
  let Y := zeroCoeffs Y qq in
  let Y := zeroCoeffs Y uu in
  let dYdt := zeroCoeffs dYdt dsg in
  let dYdt := zeroCoeffs dYdt dqq in
  let dYdt := zeroCoeffs dYdt duu in
  let Y := write Y lam (vzero lam.2) in
  let dYdt := write dYdt dlam (vzero dlam.2) in
  let Y := DG_assign Y uu u_0 in
  let Y := DG_assign Y qq gradu_0 in
  let Y := DG_assign Y sg sigma_0 in
  let CsGuL_global :=
    CsGuL_assemble s (λ var i, read Y (coeffs sg var i)) (λ var i, read Y (coeffs uu var i)) in
  let Y := write Y lam (FullPivLU_solve (H_global s) CsGuL_global) in
  let dYdt :=
    foldl (λ dYdt var,
             foldl (λ dYdt i,
                      let I := cell i in
                      (* getSourceFunc(var)( x, q, q ) *)
                      let F_cellwise :=
                        foldl (λ v j, vset v j
                                 (CellProduct I (λ x, getSourceFunc var x (DGread Y qq)
                                                                    (DGread Y qq))
                                              (phi I j)))
                              (vzero (k + 1)) (seq 0 (k + 1)) in
                      let lamCell := [vget (read Y lam) (var * (nCells + 1) + i);
                                      vget (read Y lam) (var * (nCells + 1) + i + 1)] in
                      write dYdt (coeffs duu var i)
                            (dudt_of s i var (read Y (coeffs sg var i))
                                     (read Y (coeffs uu var i)) lamCell F_cellwise))
                   dYdt (seq 0 nCells))
          dYdt (seq 0 nVar) in
  Some {| ic_Y := Y; ic_dYdt := dYdt; ic_sys := s |}.

End InitialConditions.

(** ** The configuration file: tolerances *)

(** The values of toml11 that the code distinguishes.  A floating value
    is a decimal fraction. *)
Inductive toml_value : Type :=
| TInteger (z : Z)
| TFloating (d : Qc)
| TString (s : string)
| TBoolean (b : bool).

Inductive exn : Type :=
| out_of_range (key : string)
| type_error
| invalid_argument (msg : string).

Inductive result (A : Type) : Type :=
| Ok (a : A)
| Throw (e : exn).
Arguments Ok {A} a.
Arguments Throw {A} e.

#[export] Instance result_bind : MBind result :=
  λ A B f r, match r with Ok a => f a | Throw e => Throw e end.

Module toml.

(** [toml::find(v, key)] throws [std::out_of_range] when the table has no
    such key. *)
Definition find (config : gmap string toml_value) (key : string) : result toml_value :=
  match config !! key with
  | Some v => Ok v
  | None => Throw (out_of_range key)
  end.

Definition count (config : gmap string toml_value) (key : string) : nat :=
  match config !! key with
  | Some _ => 1
  | None => 0
  end.

Definition is_integer (v : toml_value) : bool :=
  match v with TInteger _ => true | _ => false end.

Definition is_floating (v : toml_value) : bool :=
  match v with TFloating _ => true | _ => false end.

(** [as_floating()] throws [toml::type_error] on a value of another
    type. *)
Definition as_floating (v : toml_value) : result Qc :=
  match v with
  | TFloating d => Ok d
  | _ => Throw type_error
  end.

End toml.

(** [!n == 1] for an integer [n]: the negation is taken first. *)
Definition not_eq_1 (n : nat) : bool := Nat.b2n (n =? 0) =? 1.

Definition default_tolerance : Qc := Q2Qc (1 # 100000).

(** A required real: [delta_t] and [t_final]. *)
Definition read_real (config : gmap string toml_value) (key msg1 msg2 : string) : result Qc :=
  v ← toml.find config key;
  if not_eq_1 (toml.count config key) then Throw (invalid_argument msg1)
  else if toml.is_integer v then toml.as_floating v
  else if toml.is_floating v then toml.as_floating v
  else Throw (invalid_argument msg2).

(** A tolerance. *)
Definition read_tolerance (config : gmap string toml_value) (key msg : string) : result Qc :=
  v ← toml.find config key;
  if not_eq_1 (toml.count config key) then Ok default_tolerance
  else if toml.is_integer v then toml.as_floating v
  else if toml.is_floating v then toml.as_floating v
  else Throw (invalid_argument msg).

Record RunConfig := {
  deltatPrint : Qc;
  tFinal : Qc;
  rtol : Qc;
  atol : Qc
}.

(** The part of [runSolver] that reads the configuration table. *)
Definition runSolver_config (config : gmap string toml_value) : result RunConfig :=
  dt ← read_real config "delta_t" "delta_t unspecified or specified more than once"
                 "delta_t specified incorrrectly";
  tf ← read_real config "t_final" "tEnd unspecified or specified more than once"
                 "tEnd specified incorrrectly";
  rt ← read_tolerance config "Relative_tolerance" "relative_tolerance specified incorrrectly";
  at' ← read_tolerance config "Absolute_tolerance" "Absolute_tolerance specified incorrrectly";
  Ok {| deltatPrint := dt; tFinal := tf; rtol := rt; atol := at' |}.

(** ** The vector of differential entries *)

Section DifferentialEntries.
Context {S : Scalar} {P : Problem}.

(** The loop of [runSolver] that fills [id], the vector that tells the
    integrator which entries of the state are differential; [id] is a
    clone of [Y], set to zero first.  The indices are computed in [int]
    arithmetic, which is exact as long as the state vector has fewer than
    [2^31] entries. *)
Definition idVals : Vec :=
  foldl (λ idVals i,
           foldl (λ idVals j,
                    vset idVals (i * 3 * nVar * (k + 1) + 2 * nVar * (k + 1) + j) 1%S)
                 idVals (seq 0 (nVar * (k + 1))))
        (vzero (nVar * 3 * nCells * (k + 1) + nVar * (nCells + 1))) (seq 0 nCells).

End DifferentialEntries.

(** ** The configuration file: the solver *)

(** [as_integer()] and [as_string()] throw [toml::type_error] on a value
    of another type; [v.at(key)] throws [std::out_of_range] on a table
    without the key. *)
Definition toml_as_integer (v : toml_value) : result Z :=
  match v with
  | TInteger z => Ok z
  | _ => Throw type_error
  end.

Definition toml_as_string (v : toml_value) : result string :=
  match v with
  | TString s => Ok s
  | _ => Throw type_error
  end.

Definition toml_at (config : gmap string toml_value) (key : string) : result toml_value :=
  match config !! key with
  | Some v => Ok v
  | None => Throw (out_of_range key)
  end.

(** A required integer: [Polynomial_degree], [Grid_size] and
    [Number_of_channels]. *)
Definition read_integer (config : gmap string toml_value) (key msg1 msg2 : string) : result Z :=
  v ← toml.find config key;
  if not_eq_1 (toml.count config key) then Throw (invalid_argument msg1)
  else if negb (toml.is_integer v) then Throw (invalid_argument msg2)
  else toml_as_integer v.

(** A string that must be given once: [Initial_condition],
    [Diffusion_case], [Reaction_case], [LB_Type] and [UB_Type]. *)
Definition read_string_once (config : gmap string toml_value) (key msg : string)
  : result string :=
  if negb (toml.count config key =? 1) then Throw (invalid_argument msg)
  else v ← toml_at config key; toml_as_string v.

(** The type of a boundary. *)
Definition read_boundary_type (config : gmap string toml_value) (key msg1 msg2 : string)
  : result bool :=
  s ← read_string_once config key msg1;
  if String.eqb s "Dirichlet" then Ok true
  else if String.eqb s "VonNeumann" then Ok false
  else Throw (invalid_argument msg2).

(** [as_integer()] gives a 64-bit integer, and the constructor assigns
    it to a member of 32 bits: the value is reduced modulo [2^32], to the
    range of [unsigned int] or to the one of [int]. *)
Definition to_unsigned_int (z : Z) : Z := (z mod 4294967296)%Z.
Definition to_int (z : Z) : Z := ((z + 2147483648) mod 4294967296 - 2147483648)%Z.

(** What the constructor has stored when it returns; [cfg_k],
    [cfg_nCells] and [cfg_nVar] are the values of the members [k],
    [nCells] and [nVar]. *)
Record SolverConfig := {
  cfg_k : Z;
  cfg_nCells : Z;
  cfg_nVar : Z;
  cfg_initCondition : string;
  cfg_diffusionCase : string;
  cfg_reactionCase : string;
  cfg_lBound : Qc;
  cfg_uBound : Qc;
  cfg_isLBoundDirichlet : bool;
  cfg_isUBoundDirichlet : bool
}.

(** The constructor throws what the reading of the table throws, or
    what one of the constructors it calls throws. *)
Inductive ctor_result : Type :=
| Constructed (c : SolverConfig)
| Thrown (e : exn)
| ThrownBy (callee : string).

Section Constructor.

(** [gridStructures.hpp], [DiffusionObj.hpp], [SourceObj.hpp] and
    [InitialConditionLibrary.hpp] are not among the sources: whether
    [DiffusionObj(k, nVar, case)], [SourceObj(k, nVar, case)],
    [initConditionLibrary.set(condition, case)] and
    [Grid(lBound, uBound, nCells)] return is a parameter. *)
Variable DiffusionObj_returns : Z → Z → string → bool.
Variable SourceObj_returns : Z → Z → string → bool.
Variable initConditionLibrary_set_returns : string → string → bool.
Variable Grid_returns : Qc → Qc → Z → bool.

(** [setBoundaryConditions], [setDiffobj] and [setSourceobj] are defined
    in the header of the class, of which the sources hold an older
    version without them: whether they return is a parameter as well. *)
Variable setters_return : bool.

(** The header among the sources is an older version of the class: it
    declares [k] and [nCells] as [unsigned int] and has no member
    [nVar], whose signedness is a parameter. *)
Variable nVar_is_signed : bool.

Definition to_nVar (z : Z) : Z := if nVar_is_signed then to_int z else to_unsigned_int z.

Definition parse (A : Type) (r : result A) (f : A → ctor_result) : ctor_result :=
  match r with
  | Ok a => f a
  | Throw e => Thrown e
  end.

Definition call (callee : string) (returns : bool) (f : ctor_result) : ctor_result :=
  if returns then f else ThrownBy callee.

(** [SystemSolver::SystemSolver(inputFile)], from the table
    [configuration] on. *)
Definition SystemSolver_config (config : gmap string toml_value) : ctor_result :=
  parse _ (read_integer config "Polynomial_degree"
             "Polynomial_degree unspecified or specified more than once"
             "Polynomial_degree must be specified as an integer") (λ polyDegree,
  let k := to_unsigned_int polyDegree in
  parse _ (read_integer config "Grid_size"
             "Grid_size unspecified or specified more than once"
             "Grid_size must be specified as an integer") (λ numberOfCells,
  let nCells := to_unsigned_int numberOfCells in
  parse _ (read_integer config "Number_of_channels"
             "Number_of_channels unspecified or specified more than once"
             "Number_of_channels must be specified as an integer") (λ numberOfVariables,
  let nVar := to_nVar numberOfVariables in
  parse _ (read_string_once config "Initial_condition"
             "[error] Initial_condition must be specified once in the [configuration] block")
        (λ initCondition,
  parse _ (read_string_once config "Diffusion_case"
             "[error] Diffusion_case must be specified once in the [configuration] block")
        (λ diffusionCase,
  call "DiffusionObj" (DiffusionObj_returns k nVar diffusionCase) (
  parse _ (read_string_once config "Reaction_case"
             "[error] Reaction_case must be specified once in the [configuration] block")
        (λ reactionCase,
  call "SourceObj" (SourceObj_returns k nVar reactionCase) (
  call "InitialConditionLibrary::set"
       (initConditionLibrary_set_returns initCondition diffusionCase) (
  parse _ (read_real config "Lower_boundary"
             "Lower_boundary unspecified or specified more than once"
             "Lower_boundary specified incorrrectly") (λ lBound,
  parse _ (read_real config "Upper_boundary"
             "Upper_boundary unspecified or specified more than once"
             "Upper_boundary specified incorrrectly") (λ uBound,
  call "Grid" (Grid_returns lBound uBound nCells) (
  parse _ (read_boundary_type config "LB_Type"
             "[error] LB_Type must be specified once in the [configuration] block"
             "LB_type specified incorrrectly") (λ isL,
  parse _ (read_boundary_type config "UB_Type"
             "[error] UB_Type must be specified once in the [configuration] block"
             "UB_type specified incorrrectly") (λ isU,
  call "setBoundaryConditions, setDiffobj, setSourceobj" setters_return (
  Constructed {| cfg_k := k; cfg_nCells := nCells; cfg_nVar := nVar;
                 cfg_initCondition := initCondition;
                 cfg_diffusionCase := diffusionCase;
                 cfg_reactionCase := reactionCase;
                 cfg_lBound := lBound; cfg_uBound := uBound;
                 cfg_isLBoundDirichlet := isL;
                 cfg_isUBoundDirichlet := isU |}))))))))))))))).

End Constructor.

(** What the reading of a real makes of a key: the value of a floating
    entry, and an exception for everything else. *)
Definition float_entry (config : gmap string toml_value) (key msg : string) : result Qc :=
  match config !! key with
  | None => Throw (out_of_range key)
  | Some (TFloating d) => Ok d
  | Some (TInteger _) => Throw type_error
  | Some _ => Throw (invalid_argument msg)
  end.

(** ** The name of the output file *)

(** The character [.] (code 46). *)
Definition dot_char : Ascii.ascii := Ascii.ascii_of_nat 46.

(** [s.rfind(".")]: the position of the last dot, if there is one. *)
Fixpoint rfind_dot (s : string) : option nat :=
  match s with
  | EmptyString => None
  | String c s' =>
      match rfind_dot s' with
      | Some i => Some (Datatypes.S i)
      | None => if Ascii.eqb c dot_char then Some 0 else None
      end
  end.

(** [s.substr(0, n)], with [n = npos] when there is no dot. *)
Definition substr0 (s : string) (n : option nat) : string :=
  match n with
  | Some n => String.substring 0 n s
  | None => s
  end.

(** The file that [runSolver] opens for the first variable:
    [inputFile.substr(0, inputFile.rfind(".")) + ".plot"]. *)
Definition plot_file (inputFile : string) : string :=
  String.append (substr0 inputFile (rfind_dot inputFile)) ".plot".

(** ** Concrete problems *)

(** Two cells on [0,2], one variable, degree one; Neumann data at the
    lower and Dirichlet data at the upper boundary.  The basis functions
    and the quadrature are stand-ins with integer values. *)
Definition demo_BCs : @BoundaryConditions Z_scalar :=
  {| LowerBound := 0%Z; UpperBound := 2%Z;
     isLBoundDirichlet := false; isUBoundDirichlet := true;
     g_D := λ _ _, 1%Z; g_N := λ _ _, 5%Z |}.

Definition demo_problem : @Problem Z_scalar :=
  {| grid := [ {| x_l := 0%Z; x_u := 1%Z |}; {| x_l := 1%Z; x_u := 2%Z |} ];
     k := 1; nCells := 2; nVar := 1;
     RHS := λ _, 0%Z; tau := λ _, 1%Z; c_fn := λ _, 0%Z;
     BCs := demo_BCs;
     phi := λ I j x, (Z.of_nat j + 1 + x)%Z;
     MassMatrix := λ I M, [[1; 0]; [0; 1]]%Z;
     MassMatrixW := λ I M w, [[w 0; 0]; [0; w 0]]%Z;
     DerivativeMatrix := λ I M, [[0; 2]; [0; 0]]%Z;
     DerivativeMatrixW := λ I M w, [[0; 2 * w 0]; [0; 0]]%Z;
     CellProduct := λ I f g, (f (x_l I) * g (x_l I))%Z;
     assign := λ f v I, [f (x_l I); f (x_u I)];
     getKappaFunc := λ v x Q U, x;
     NLqMat := λ M Q U I, M;
     NLuMat := λ M Q U I, M;
     getSourceFunc := λ v x Q U, 0%Z;
     setdFdqMat := λ M Q U I, M;
     setdFduMat := λ M Q U I, M;
     lu_solve := λ M b, b;
     norm := λ v, 0%Z |}.

(** A solver object before [initialiseMatrices]. *)
Definition fresh_solver {S : Scalar} : SystemSolver :=
  mkSystemSolver S [] [] [] [] [] [] [] [] [] [] [] [] [] [] [] [] [] [] [] [] [] []
                 None None false 1%S 0 0%S false.

(** Fresh memory that happens to hold zeros. *)
Definition zero_garbage {S : Scalar} {P : Problem} : Uninitialised :=
  {| C_uninit := mzero (2 * nVar) (nVar * (k + 1));
     E_uninit := mzero (nVar * (k + 1)) (2 * nVar);
     Xvar_uninit := λ _ _, mzero (k + 1) (k + 1) |}.

(** The demonstration problem after [initialiseMatrices], and after a
    boundary update at time 7. *)
Definition demo_solver : SystemSolver :=
  default fresh_solver
    (initialiseMatrices (P := demo_problem) (zero_garbage (P := demo_problem)) fresh_solver).

Definition demo_updated : SystemSolver :=
  default fresh_solver (updateBoundaryConditions (P := demo_problem) 7%Z demo_solver).

(** The demonstration problem with a source that depends on [u]: the
    source of variable [v] is the leading coefficient of [u_v] on the
    first cell. *)
Definition source_problem : @Problem Z_scalar :=
  {| grid := grid (Problem := demo_problem);
     k := 1; nCells := 2; nVar := 1;
     RHS := λ _, 0%Z; tau := λ _, 1%Z; c_fn := λ _, 0%Z;
     BCs := demo_BCs;
     phi := phi (Problem := demo_problem);
     MassMatrix := MassMatrix (Problem := demo_problem);
     MassMatrixW := MassMatrixW (Problem := demo_problem);
     DerivativeMatrix := DerivativeMatrix (Problem := demo_problem);
     DerivativeMatrixW := DerivativeMatrixW (Problem := demo_problem);
     CellProduct := CellProduct (Problem := demo_problem);
     assign := assign (Problem := demo_problem);
     getKappaFunc := λ v x Q U, x;
     NLqMat := λ M Q U I, M;
     NLuMat := λ M Q U I, M;
     getSourceFunc := λ v x Q U, vget (default [] (default [] (U !! v) !! 0)) 0;
     setdFdqMat := λ M Q U I, M;
     setdFduMat := λ M Q U I, M;
     lu_solve := λ M b, b;
     norm := λ v, 0%Z |}.

(** A configuration table with every key that [runSolver] reads except
    [Relative_tolerance]. *)
Definition demo_config : gmap string toml_value :=
  <["delta_t" := TFloating (Q2Qc (1 # 10))]>
    (<["t_final" := TFloating (Q2Qc 1)]>
       (<["Absolute_tolerance" := TFloating (Q2Qc (1 # 1000))]> ∅)).

(** The demonstration problem over doubles with a NaN, with a diffusion
    provider that yields NaN wherever it is evaluated. *)
Section NaNProblem.
#[local] Existing Instance xdouble_scalar.

Definition nan_BCs : @BoundaryConditions xdouble_scalar :=
  {| LowerBound := Fin 0; UpperBound := Fin 2;
     isLBoundDirichlet := false; isUBoundDirichlet := true;
     g_D := λ _ _, Fin 1; g_N := λ _ _, Fin 5 |}.

Definition nan_problem : @Problem xdouble_scalar :=
  {| grid := [ {| x_l := Fin 0; x_u := Fin 1 |}; {| x_l := Fin 1; x_u := Fin 2 |} ];
     k := 1; nCells := 2; nVar := 1;
     RHS := λ _, Fin 0; tau := λ _, Fin 1; c_fn := λ _, Fin 0;
     BCs := nan_BCs;
     phi := λ I j x, xlift2 Z.add (Fin (Z.of_nat j + 1)) x;
     MassMatrix := λ I M, [[Fin 1; Fin 0]; [Fin 0; Fin 1]];
     MassMatrixW := λ I M w, [[w (Fin 0); Fin 0]; [Fin 0; w (Fin 0)]];
     DerivativeMatrix := λ I M, [[Fin 0; Fin 2]; [Fin 0; Fin 0]];
     DerivativeMatrixW := λ I M w, [[Fin 0; xlift2 Z.mul (Fin 2) (w (Fin 0))]; [Fin 0; Fin 0]];
     CellProduct := λ I f g, xlift2 Z.mul (f (x_l I)) (g (x_l I));
     assign := λ f v I, [f (x_l I); f (x_u I)];
     getKappaFunc := λ v x Q U, NaN;
     NLqMat := λ M Q U I, M;
     NLuMat := λ M Q U I, M;
     getSourceFunc := λ v x Q U, Fin 0;
     setdFdqMat := λ M Q U I, M;
     setdFduMat := λ M Q U I, M;
     lu_solve := λ M b, b;
     norm := λ v, Fin 0 |}.

Definition nan_solver : SystemSolver :=
  default fresh_solver
    (initialiseMatrices (P := nan_problem) (zero_garbage (P := nan_problem)) fresh_solver).

End NaNProblem.

(** The demonstration problem with polynomial degree zero. *)
Definition degree0_problem : @Problem Z_scalar :=
  {| grid := grid (Problem := demo_problem);
     k := 0; nCells := 2; nVar := 1;
     RHS := λ _, 0%Z; tau := λ _, 1%Z; c_fn := λ _, 0%Z;
     BCs := demo_BCs;
     phi := phi (Problem := demo_problem);
     MassMatrix := λ I M, [[1]]%Z;
     MassMatrixW := λ I M w, [[w 0]]%Z;
     DerivativeMatrix := λ I M, [[0]]%Z;
     DerivativeMatrixW := λ I M w, [[0]]%Z;
     CellProduct := CellProduct (Problem := demo_problem);
     assign := λ f v I, [f (x_l I)];
     getKappaFunc := λ v x Q U, x;
     NLqMat := λ M Q U I, M;
     NLuMat := λ M Q U I, M;
     getSourceFunc := λ v x Q U, 0%Z;
     setdFdqMat := λ M Q U I, M;
     setdFduMat := λ M Q U I, M;
     lu_solve := λ M b, b;
     norm := λ v, 0%Z |}.

(** The demonstration problem with two variables, and memory that holds
    nines. *)
Definition two_channel_problem : @Problem Z_scalar :=
  {| grid := grid (Problem := demo_problem);
     k := 1; nCells := 2; nVar := 2;
     RHS := λ _, 0%Z; tau := λ _, 1%Z; c_fn := λ _, 0%Z;
     BCs := demo_BCs;
     phi := phi (Problem := demo_problem);
     MassMatrix := MassMatrix (Problem := demo_problem);
     MassMatrixW := MassMatrixW (Problem := demo_problem);
     DerivativeMatrix := DerivativeMatrix (Problem := demo_problem);
     DerivativeMatrixW := DerivativeMatrixW (Problem := demo_problem);
     CellProduct := CellProduct (Problem := demo_problem);
     assign := assign (Problem := demo_problem);
     getKappaFunc := λ v x Q U, x;
     NLqMat := λ M Q U I, M;
     NLuMat := λ M Q U I, M;
     getSourceFunc := λ v x Q U, 0%Z;
     setdFdqMat := λ M Q U I, M;
     setdFduMat := λ M Q U I, M;
     lu_solve := λ M b, b;
     norm := λ v, 0%Z |}.

Definition nines {P : @Problem Z_scalar} : Uninitialised :=
  {| C_uninit := mbuild (2 * nVar) (nVar * (k + 1)) (λ _ _, 9%Z);
     E_uninit := mbuild (nVar * (k + 1)) (2 * nVar) (λ _ _, 9%Z);
     Xvar_uninit := λ _ _, mbuild (k + 1) (k + 1) (λ _ _, 9%Z) |}.

Definition two_channel_solver : SystemSolver :=
  default fresh_solver
    (initialiseMatrices (P := two_channel_problem) (nines (P := two_channel_problem))
                        fresh_solver).

(** The demonstration problem initialised a second time. *)
Definition demo_solver_again : SystemSolver :=
  default fresh_solver
    (initialiseMatrices (P := demo_problem) (zero_garbage (P := demo_problem)) demo_solver).

(** The initial state of the problem with a source: [u_0 = 1],
    [q_0 = 0], [sigma_0 = 0] on zeroed arrays. *)
Definition source_initial : option (ICResult (S := Z_scalar)) :=
  setInitialConditions (P := source_problem) (zero_garbage (P := source_problem))
    (λ _, 1%Z) (λ _, 0%Z) (λ _, 0%Z) (replicate 15 0%Z) (replicate 15 0%Z) fresh_solver.

(** A world in which nothing has been written yet. *)
Definition empty_world {S : Scalar} : World := {| files := ∅; console := [] |}.

(** ** Notions used in the statements *)

Section Auxiliary.
Context {S : Scalar} {P : Problem}.

(** The loop of [updateBoundaryConditions] on the forcing vectors alone
    and on the trace right-hand side alone. *)
Definition RF_loop (t : carrier) (RF : list Vec) (l : list nat) : option (list Vec) :=
  ofoldl (λ RF i, rf ← fill_RF t (cell i) (default [] (RF !! i)); Some (<[i := rf]> RF)) RF l.

Definition L_loop (t : carrier) (L : Vec) (l : list nat) : Vec :=
  foldl (λ L i, fill_L t i (cell i) L) L l.

(** Two lists of vectors of the same shape. *)
Definition same_shape (RF1 RF2 : list Vec) : Prop :=
  Forall2 (λ a b : Vec, length a = length b) RF1 RF2.

(** A matrix of [n] rows and [m] columns. *)
Definition mdims {S : Scalar} (M : Mat) (n m : nat) : Prop :=
  length M = n ∧ Forall (λ row : Vec, length row = m) M.

(** The [(br,bc)] block of a matrix made of square blocks of size
    [nVar*(k+1)], and the window of that size on a matrix. *)
Definition blk3 (M : Mat) (br bc : nat) : Mat :=
  block M (br * (nVar * (k + 1))) (bc * (nVar * (k + 1))) (nVar * (k + 1)) (nVar * (k + 1)).
Definition fit (M : Mat) : Mat := block M 0 0 (nVar * (k + 1)) (nVar * (k + 1)).

(** A matrix of three by three square blocks of size [nVar*(k+1)]. *)
Definition block3 (b : nat → nat → Mat) : Mat :=
  let n := nVar * (k + 1) in
  mbuild (3 * n) (3 * n) (λ r c, mget (b (r / n) (c / n)) (r mod n) (c mod n)).

(** The cell-local Jacobian as the specification words it:
    [[0, -A, -B^T], [B, D + dF/dq, D + dF/du + alpha*M], [A, NLq, NLu]]. *)
Definition M_cell_claimed (a : carrier) (newQ newU : DGval) (i : nat) : Mat :=
  let n := nVar * (k + 1) in
  let I := cell i in
  let A := A_cell I in
  let B := B_cell I in
  let D := D_cell I in
  let dFdq := setdFdqMat (mzero n n) newQ newU I in
  let dFdu := setdFduMat (mzero n n) newQ newU I in
  block3 (λ br bc,
            match br, bc with
            | 0, 0 => mzero n n
            | 0, 1 => mopp A
            | 0, _ => mopp (mtranspose n n B)
            | 1, 0 => B
            | 1, 1 => madd D dFdq
            | 1, _ => madd (madd D dFdu) (mscale a A)
            | _, 0 => A
            | _, 1 => NLqMat (mzero n n) newQ newU I
            | _, _ => NLuMat (mzero n n) newQ newU I
            end).

(** The sum of [f 0], ..., [f (n-1)], in this order. *)
Definition ssum (n : nat) (f : nat → carrier) : carrier :=
  foldl (λ acc i, (acc + f i)%S) 0%S (seq 0 n).

(** The grid is a partition of the domain: only the first cell begins at
    the lower boundary and only the last ends at the upper one. *)
Definition grid_ok : Prop :=
  ∀ i, i < nCells →
       (atLowerBound (cell i) = true → i = 0)
       ∧ (atUpperBound (cell i) = true → i + 1 = nCells).

(** [C sigma + G u] of variable [v] on cell [i]: its two entries belong
    to the faces [i] and [i+1]. *)
Definition cell_trace (s : SystemSolver) (sigc uc : nat → nat → Vec) (i v : nat) : Vec :=
  vadd (mat_vec (block (nthM (C_cellwise s) i) (v * 2) (v * (k + 1)) 2 (k + 1)) (sigc v i))
       (mat_vec (block (nthM (G_cellwise s) i) (v * 2) (v * (k + 1)) 2 (k + 1)) (uc v i)).

(** The right-hand side of the trace equation as the specification words
    it, [L - sum_i (C_i sigma_i + G_i u_i)]: the entry of variable [v] at
    face [j] receives the first entry of cell [j] and the second entry of
    cell [j-1]. *)
Definition trace_rhs (s : SystemSolver) (sigc uc : nat → nat → Vec) : Vec :=
  vbuild (nVar * (nCells + 1))
    (λ idx,
       let v := idx / (nCells + 1) in
       let j := idx mod (nCells + 1) in
       (vget (L_global s) idx
        - ((if decide (j < nCells) then vget (cell_trace s sigc uc j v) 0 else 0)
           + (if decide (0 < j) then vget (cell_trace s sigc uc (j - 1) v) 1 else 0)))%S).

(** The coefficients of block [b] (0 = sigma, 1 = q, 2 = u) of variable
    [v] on cell [i], and the trace of variable [v] at face [j], in a state
    vector. *)
Definition coeffs_of (Y : Vec) (b v i : nat) : Vec := vblock Y (block_offset b v i) (k + 1).
Definition trace_of (Y : Vec) (v j : nat) : carrier := vget Y (lambda_offset v j).

(** An update of a vector that adds [c idx] to every entry [idx]. *)
Definition additive (U : Vec → Vec) (c : nat → carrier) : Prop :=
  ∀ v, length (U v) = length v
       ∧ ∀ idx, idx < length v → vget (U v) idx = (vget v idx + c idx)%S.

(** The Neumann data sit at the two ends of the domain only. *)
Definition L_interior_zero (s : SystemSolver) : Prop :=
  ∀ v j, v < nVar → 0 < j < nCells → vget (L_global s) (v * (nCells + 1) + j) = 0%S.

(** *** The statically condensed solve, as the specification words it *)

(** The iterate that the providers are handed in [solveJacEq]: the fields
    [q] and [u] of the solver plus the increment, which has just been set
    to zero. *)
Definition jac_newQ (s : SystemSolver) (Y delY : Vec) : DGval :=
  DG_sum (DGread Y (q s)) (DGread (vsetZero delY) (cellQCoeffs <$> seq 0 nVar)).
Definition jac_newU (s : SystemSolver) (Y delY : Vec) : DGval :=
  DG_sum (DGread Y (u s)) (DGread (vsetZero delY) (cellUCoeffs <$> seq 0 nVar)).

(** [M_cell(alpha)] of cell [i]. *)
Definition jac_matrix (s : SystemSolver) (Y delY : Vec) (i : nat) : Mat :=
  MX_of s (alpha s) (jac_newQ s Y delY) (jac_newU s Y delY) i.

(** The particular solve [Sigma_i = M_cell^-1 g_cell] and the homogeneous
    solve [Sigma_i^0 = M_cell^-1 CE]. *)
Definition Sigma_f (M : nat → Mat) (g : Vec) (i : nat) : Vec :=
  FullPivLU_solve (M i) (vblock g (block_offset 0 0 i) (3 * nVar * (k + 1))).
Definition Sigma_0 (s : SystemSolver) (M : nat → Mat) (i : nat) : Mat :=
  lu_solve_mat (M i) (nthM (CEBlocks s) i) (3 * (nVar * (k + 1))) (2 * nVar).

(** The cell Schur complement [K_cell = H_cell - CG Sigma_i^0]. *)
Definition K_cell_of (s : SystemSolver) (M : nat → Mat) (i : nat) : Mat :=
  msub (nthM (H_cellwise s) i) (mat_mul (nthM (CG_cellwise s) i) (2 * nVar) (Sigma_0 s M i)).

(** The assembly of two-by-two blocks per cell and variable into the
    block-tridiagonal pattern: within a variable, face [j] receives row
    and column 0 of cell [j] and row and column 1 of cell [j-1]; distinct
    variables are not coupled. *)
Definition assemble_tridiag (blk : nat → Mat) : Mat :=
  mbuild (nVar * (nCells + 1)) (nVar * (nCells + 1))
    (λ r c,
       let v := r / (nCells + 1) in
       let j := r mod (nCells + 1) in
       let v' := c / (nCells + 1) in
       let j' := c mod (nCells + 1) in
       if decide (v = v') then
         sadd (if decide (j < nCells ∧ j ≤ j' ≤ j + 1)
               then mget (blk j) (2 * v) (2 * v + (j' - j)) else 0%S)
              (if decide (0 < j ∧ j - 1 ≤ j' ≤ j)
               then mget (blk (j - 1)) (2 * v + 1) (2 * v + (j' - (j - 1))) else 0%S)
       else 0%S).

(** [F = g4 - sum_i CG Sigma_i]. *)
Definition F_global (s : SystemSolver) (M : nat → Mat) (g : Vec) : Vec :=
  vbuild (nVar * (nCells + 1))
    (λ idx,
       let v := idx / (nCells + 1) in
       let j := idx mod (nCells + 1) in
       ssub (vget g (lambda_offset 0 0 + idx))
            (sadd (if decide (j < nCells)
                   then vget (mat_vec (nthM (CG_cellwise s) j) (Sigma_f M g j)) (2 * v)
                   else 0%S)
                  (if decide (0 < j)
                   then vget (mat_vec (nthM (CG_cellwise s) (j - 1)) (Sigma_f M g (j - 1)))
                             (2 * v + 1)
                   else 0%S))).

(** The traces of all variables at the two faces of cell [i]. *)
Definition dlam_cell (dlam : Vec) (i : nat) : Vec :=
  vbuild (2 * nVar) (λ p, vget dlam (p / 2 * (nCells + 1) + i + p mod 2)).

(** An update of an [n]-by-[m] matrix that adds [c r c'] to every entry. *)
Definition additive2 (n m : nat) (U : Mat → Mat) (c : nat → nat → carrier) : Prop :=
  ∀ M, mdims M n m →
       mdims (U M) n m
       ∧ ∀ r c', r < n → c' < m → mget (U M) r c' = (mget M r c' + c r c')%S.

(** The three loops of [solveJacEq], with the cell matrices [M] given. *)
Definition K_loop (s : SystemSolver) (M : nat → Mat) (K : Mat) : Mat :=
  foldl (λ K i,
           foldl (λ K var,
                    add_block K (var * (nCells + 1) + i) (var * (nCells + 1) + i) 2 2
                              (block (K_cell_of s M i) (var * 2) (var * 2) 2 2))
                 K (seq 0 nVar))
        K (seq 0 nCells).

Definition F_loop (s : SystemSolver) (M : nat → Mat) (g : Vec) (F : Vec) : Vec :=
  foldl (λ F i,
           foldl (λ F var,
                    sub_vblock F (var * (nCells + 1) + i) 2
                      (vblock (mat_vec (nthM (CG_cellwise s) i) (Sigma_f M g i)) (var * 2) 2))
                 F (seq 0 nVar))
        F (seq 0 nCells).

Definition delSQU_of (s : SystemSolver) (M : nat → Mat) (g : Vec) (delY : Vec) (i : nat) : Vec :=
  vsub (Sigma_f M g i)
       (mat_vec (Sigma_0 s M i)
                (delLambdaCell_of (vblock delY (lambda_offset 0 0) (nVar * (nCells + 1))) i)).

Definition delY_loop (s : SystemSolver) (M : nat → Mat) (g : Vec) (delY : Vec) : Vec :=
  foldl (λ delY i,
           let delSQU := delSQU_of s M g delY i in
           foldl (λ delY var,
                    let delY := write delY (block_offset 0 var i, k + 1)
                                      (vblock delSQU (var * (k + 1)) (k + 1)) in
                    let delY := write delY (block_offset 1 var i, k + 1)
                                      (vblock delSQU (nVar * (k + 1) + var * (k + 1)) (k + 1)) in
                    write delY (block_offset 2 var i, k + 1)
                          (vblock delSQU (2 * nVar * (k + 1) + var * (k + 1)) (k + 1)))
                 delY (seq 0 nVar))
        delY (seq 0 nCells).

(** [d] has the length and the trace block of [d0]. *)
Definition lam_intact (d0 d : Vec) : Prop :=
  length d = length d0 ∧ ∀ idx, lambda_offset 0 0 ≤ idx → vget d idx = vget d0 idx.

(** The three writes of [solveJacEq] for cell [i] and variable [var]. *)
Definition write_SQU (delSQU : Vec) (i : nat) (delY : Vec) (var : nat) : Vec :=
  let delY := write delY (block_offset 0 var i, k + 1)
                    (vblock delSQU (var * (k + 1)) (k + 1)) in
  let delY := write delY (block_offset 1 var i, k + 1)
                    (vblock delSQU (nVar * (k + 1) + var * (k + 1)) (k + 1)) in
  write delY (block_offset 2 var i, k + 1)
        (vblock delSQU (2 * nVar * (k + 1) + var * (k + 1)) (k + 1)).

(** The entries that the boundary update leaves in the forcing vector of
    a cell, as the source computes them: row [j] of the sigma half and
    row [j] of the u half. *)
Definition RF_sigma_entry (t : carrier) (I : Interval) (j : nat) : carrier :=
  let lo := if lowerDirichlet I
            then (- phi I (j mod (k + 1)) (x_l I) * sopp 1 * g_D BCs (x_l I) t)%S
            else 0%S in
  if upperDirichlet I
  then (lo + - phi I (j mod k + 1) (x_u I) * 1 * g_D BCs (x_u I) t)%S
  else lo.

Definition RF_u_entry (t : carrier) (I : Interval) (j : nat) : carrier :=
  let r := CellProduct I RHS (phi I (j mod (k + 1))) in
  let lo := if lowerDirichlet I
            then (r - phi I (j mod (k + 1)) (x_l I) * (- c_fn (x_l I) - tau (x_l I))
                      * g_D BCs (x_l I) t)%S
            else r in
  if upperDirichlet I
  then (lo - phi I (j mod (k + 1)) (x_u I) * (c_fn (x_u I) - tau (x_u I))
             * g_D BCs (x_u I) t)%S
  else lo.

(** The windows of block [b] (0 = sigma, 1 = q, 2 = u) of every variable
    and cell, and the loop that writes [val var i] through each of them. *)
Definition block_views (b : nat) : DGApprox :=
  (λ var, (λ i, (block_offset b var i, k + 1)) <$> seq 0 nCells) <$> seq 0 nVar.

Definition write_blocks (b : nat) (val : nat → nat → Vec) (Y : Vec) : Vec :=
  foldl (λ Y var, foldl (λ Y i, write Y (block_offset b var i, k + 1) (val var i))
                        Y (seq 0 nCells))
        Y (seq 0 nVar).

(** The cell coefficients of an array are zero in block [b]; its trace
    block is zero. *)
Definition block_zero (Y : Vec) (b : nat) : Prop :=
  ∀ v i e, v < nVar → i < nCells → e ≤ k → vget Y (block_offset b v i + e) = 0%S.
Definition trace_zero (Y : Vec) : Prop :=
  ∀ v j, v < nVar → j ≤ nCells → trace_of Y v j = 0%S.

(** The fields of a solver are not bound to an array yet. *)
Definition unbound (s : SystemSolver) : Prop :=
  sig s = [] ∧ q s = [] ∧ u s = [] ∧ dsigdt s = [] ∧ dqdt s = [] ∧ dudt s = [].

(** An index lies in a window. *)
Definition in_view (w : View) (idx : nat) : Prop := w.1 ≤ idx < w.1 + w.2.

(** The field of block [b] among three fields. *)
Definition field_of (sg qq uu : DGApprox) (b : nat) : DGApprox :=
  match b with 0 => sg | 1 => qq | _ => uu end.

(** The entry of the trace right-hand side at face [j] after the
    boundary update at time [t], as the loop over the cells leaves it:
    the Neumann datum of the upper boundary comes from cell [j-1], the one
    of the lower boundary from cell [j]. *)
Definition L_entry (t : carrier) (j : nat) : carrier :=
  let a := if (0 <? j) && upperNeumann (cell (j - 1))
           then (0 + g_N BCs (UpperBound BCs) t)%S else 0%S in
  if (j <? nCells) && lowerNeumann (cell j)
  then (a + g_N BCs (LowerBound BCs) t)%S else a.

(** The work matrices [C] and [E] of [initialiseMatrices] after the
    first [n] cells: they are declared before the loop over the cells
    and filled block by block in every turn. *)
Definition CE_after (C E : Mat) (n : nat) : Mat * Mat :=
  foldl (λ '(C, E) i, CE_fill (cell i) C E) (C, E) (seq 0 n).

(** [H] of a cell, and what the cell adds to [HGlobalMat]. *)
Definition H_cell (I : Interval) : Mat :=
  foldl (λ H var, set_block H (2 * var) (2 * var) 2 2 (Hvar_of I))
        (mzero (2 * nVar) (2 * nVar)) (seq 0 nVar).
Definition HG_step (i : nat) (I : Interval) (HG : Mat) : Mat :=
  foldl (λ HG var,
           add_block HG (var * (nCells + 1) + i) (var * (nCells + 1) + i) 2 2 (Hvar_of I))
        HG (seq 0 nVar).
Definition HG_loop (HG : Mat) (n : nat) : Mat :=
  foldl (λ HG i, HG_step i (cell i) HG) HG (seq 0 n).

(** The diagonal entry of the trace matrix at face [j]: the lower-face
    entry of cell [j] plus the upper-face entry of cell [j-1]. *)
Definition H_face (j : nat) : carrier :=
  sadd (if decide (j < nCells) then mget (Hvar_of (cell j)) 0 0 else 0%S)
       (if decide (0 < j) then mget (Hvar_of (cell (j - 1))) 1 1 else 0%S).

(** The values that [residual] writes into the three blocks of variable
    [v] on cell [i]: [R1], [R2] (with the projected source added) and
    [R3]; [b] is the block of the residual vector that receives them. *)
Definition residual_entry (s : SystemSolver) (Y dydt : Vec) (b v i e : nat) : carrier :=
  let Q := DGread Y (block_views 1) in
  let U := DGread Y (block_views 2) in
  let lamCell := lamCell_of (vblock Y (lambda_offset 0 0) (nVar * (nCells + 1))) i in
  match b with
  | 0 => vget (res1_of s i v (coeffs_of Y 1 v i) (coeffs_of Y 2 v i) lamCell) e
  | 1 => (vget (res2_of s i v (coeffs_of Y 0 v i) (coeffs_of Y 2 v i) lamCell
                        (coeffs_of dydt 2 v i)) e
          + vget (F_cellwise_of (cell i) v Q U) e)%S
  | _ => vget (vadd (coeffs_of Y 0 v i) (kappa_cellwise_of (cell i) v Q U)) e
  end.

End Auxiliary.

(** * Properties *)

(** ** Lists as arrays *)

Lemma u32_small (n : nat) : (Z.of_nat n < 4294967296)%Z → u32 n = n.
Proof.
  intros H. unfold u32. rewrite Z.mod_small by lia. apply Nat2Z.id.
Qed.

Lemma foldl_seq_S {A : Type} (f : A → nat → A) (a : A) (n : nat) :
  foldl f a (seq 0 (S n)) = f (foldl f a (seq 0 n)) n.
Proof.
  rewrite seq_S, foldl_app. reflexivity.
Qed.

Lemma ofoldl_app {A B : Type} (f : A → B → option A) (a : A) (l1 l2 : list B) :
  ofoldl f a (l1 ++ l2) = ofoldl f a l1 ≫= λ a', ofoldl f a' l2.
Proof.
  revert a. induction l1 as [|x l1 IH]; intros a; simpl; [reflexivity|].
  destruct (f a x) as [a'|]; simpl; [apply IH | reflexivity].
Qed.

Lemma ofoldl_seq_S {A : Type} (f : A → nat → option A) (a : A) (n : nat) :
  ofoldl f a (seq 0 (S n)) = ofoldl f a (seq 0 n) ≫= λ a', f a' n.
Proof.
  rewrite seq_S, ofoldl_app. destruct (ofoldl f a (seq 0 n)) as [a'|]; simpl; [|reflexivity].
  destruct (f a' n); reflexivity.
Qed.

(** A loop whose body cannot fail. *)
Lemma ofoldl_Some {A B : Type} (f : A → B → A) (a : A) (l : list B) :
  ofoldl (λ a x, Some (f a x)) a l = Some (foldl f a l).
Proof.
  revert a. induction l as [|x l IH]; intros a; simpl; [reflexivity | apply IH].
Qed.

Section ArrayLemmas.
Context {S : Scalar}.

Lemma length_vbuild n (f : nat → carrier) : length (vbuild n f) = n.
Proof. unfold vbuild. rewrite length_fmap. apply length_seq. Qed.

Lemma lookup_vbuild n (f : nat → carrier) i : i < n → vbuild n f !! i = Some (f i).
Proof.
  intros H. unfold vbuild. rewrite list_lookup_fmap, lookup_seq_lt by done. reflexivity.
Qed.

Lemma vget_vbuild n (f : nat → carrier) i : i < n → vget (vbuild n f) i = f i.
Proof. intros H. unfold vget. rewrite lookup_vbuild by done. reflexivity. Qed.

Lemma vget_ge (v : Vec) i : length v ≤ i → vget v i = 0%S.
Proof. intros H. unfold vget. rewrite lookup_ge_None_2 by done. reflexivity. Qed.

Lemma vget_lookup (v : Vec) i x : v !! i = Some x → vget v i = x.
Proof. intros H. unfold vget. rewrite H. reflexivity. Qed.

Lemma lookup_vget (v : Vec) i : i < length v → v !! i = Some (vget v i).
Proof.
  intros H. unfold vget. destruct (lookup_lt_is_Some_2 v i H) as [x Hx]. rewrite Hx. reflexivity.
Qed.

(** Two vectors of the same length with the same entries are equal. *)
Lemma vec_ext (a b : Vec) :
  length a = length b → (∀ i, i < length a → vget a i = vget b i) → a = b.
Proof.
  intros Hl H. apply list_eq. intros i.
  destruct (decide (i < length a)) as [Hi|Hi].
  - rewrite !lookup_vget by lia. f_equal. apply H, Hi.
  - rewrite !lookup_ge_None_2 by lia. reflexivity.
Qed.

Lemma length_vsetZero (v : Vec) : length (vsetZero v) = length v.
Proof. apply length_fmap. Qed.

Lemma vget_vsetZero (v : Vec) i : vget (vsetZero v) i = 0%S.
Proof.
  unfold vget, vsetZero. rewrite list_lookup_fmap. destruct (v !! i); reflexivity.
Qed.

Lemma vsetZero_length_eq (v w : Vec) : length v = length w → vsetZero v = vsetZero w.
Proof.
  intros H. apply vec_ext; [rewrite !length_vsetZero; done|].
  intros i _. rewrite !vget_vsetZero. reflexivity.
Qed.

Lemma length_vzero n : length (vzero n) = n.
Proof. apply length_vbuild. Qed.

Lemma vget_vzero n i : vget (vzero n) i = 0%S.
Proof.
  destruct (decide (i < n)) as [H|H].
  - apply vget_vbuild, H.
  - apply vget_ge. rewrite length_vzero. lia.
Qed.

Lemma length_vset (v : Vec) i x : length (vset v i x) = length v.
Proof. apply length_insert. Qed.

Lemma vget_vset (v : Vec) i x j :
  vget (vset v i x) j = if decide (i = j ∧ j < length v) then x else vget v j.
Proof.
  unfold vget, vset. case_decide as H.
  - destruct H as [-> H]. rewrite list_lookup_insert_eq by done. reflexivity.
  - destruct (decide (i = j)) as [->|Hne].
    + rewrite list_insert_ge by lia. reflexivity.
    + rewrite list_lookup_insert_ne by done. reflexivity.
Qed.

Lemma length_vadd_at (v : Vec) i x : length (vadd_at v i x) = length v.
Proof. apply length_alter. Qed.

Lemma vget_vadd_at (v : Vec) i x j :
  vget (vadd_at v i x) j = if decide (i = j ∧ j < length v) then (vget v j + x)%S else vget v j.
Proof.
  unfold vget, vadd_at. case_decide as H.
  - destruct H as [-> H]. rewrite list_lookup_alter_eq.
    destruct (lookup_lt_is_Some_2 v j H) as [y Hy]. rewrite Hy. reflexivity.
  - destruct (decide (i = j)) as [->|Hne].
    + rewrite list_lookup_alter_eq, lookup_ge_None_2 by lia. reflexivity.
    + rewrite list_lookup_alter_ne by done. reflexivity.
Qed.

Lemma length_vsub_at (v : Vec) i x : length (vsub_at v i x) = length v.
Proof. apply length_alter. Qed.

Lemma vget_vsub_at (v : Vec) i x j :
  vget (vsub_at v i x) j = if decide (i = j ∧ j < length v) then (vget v j - x)%S else vget v j.
Proof.
  unfold vget, vsub_at. case_decide as H.
  - destruct H as [-> H]. rewrite list_lookup_alter_eq.
    destruct (lookup_lt_is_Some_2 v j H) as [y Hy]. rewrite Hy. reflexivity.
  - destruct (decide (i = j)) as [->|Hne].
    + rewrite list_lookup_alter_eq, lookup_ge_None_2 by lia. reflexivity.
    + rewrite list_lookup_alter_ne by done. reflexivity.
Qed.

Lemma in_range_true lo n i : in_range lo n i = true ↔ lo ≤ i < lo + n.
Proof.
  unfold in_range. rewrite andb_true_iff, Nat.leb_le, Nat.ltb_lt. reflexivity.
Qed.

Lemma in_range_false lo n i : in_range lo n i = false ↔ ¬ (lo ≤ i < lo + n).
Proof.
  rewrite <- in_range_true. destruct (in_range lo n i); naive_solver.
Qed.

Lemma length_vblock (v : Vec) off n : length (vblock v off n) = n.
Proof. apply length_vbuild. Qed.

Lemma vget_vblock (v : Vec) off n i : i < n → vget (vblock v off n) i = vget v (off + i).
Proof. intros H. unfold vblock. rewrite vget_vbuild by done. reflexivity. Qed.

Lemma length_set_vblock (v : Vec) off n b : length (set_vblock v off n b) = length v.
Proof. apply length_imap. Qed.

Lemma vget_set_vblock (v : Vec) off n b i :
  vget (set_vblock v off n b) i =
  if decide (off ≤ i < off + n ∧ i < length v) then vget b (i - off) else vget v i.
Proof.
  unfold set_vblock. unfold vget at 1. rewrite list_lookup_imap.
  destruct (decide (i < length v)) as [Hi|Hi].
  - rewrite (lookup_vget v i Hi). simpl.
    destruct (in_range off n i) eqn:E.
    + apply in_range_true in E. rewrite decide_True by done. reflexivity.
    + apply in_range_false in E. rewrite decide_False by lia. reflexivity.
  - rewrite lookup_ge_None_2 by lia. simpl. rewrite decide_False by lia.
    symmetry. apply vget_ge. lia.
Qed.

Lemma length_add_vblock (v : Vec) off n b : length (add_vblock v off n b) = length v.
Proof. apply length_imap. Qed.

Lemma vget_add_vblock (v : Vec) off n b i :
  vget (add_vblock v off n b) i =
  if decide (off ≤ i < off + n ∧ i < length v) then (vget v i + vget b (i - off))%S
  else vget v i.
Proof.
  unfold add_vblock. unfold vget at 1. rewrite list_lookup_imap.
  destruct (decide (i < length v)) as [Hi|Hi].
  - rewrite (lookup_vget v i Hi). simpl.
    destruct (in_range off n i) eqn:E.
    + apply in_range_true in E. rewrite decide_True by done. reflexivity.
    + apply in_range_false in E. rewrite decide_False by lia. reflexivity.
  - rewrite lookup_ge_None_2 by lia. simpl. rewrite decide_False by lia.
    symmetry. apply vget_ge. lia.
Qed.

Lemma length_sub_vblock (v : Vec) off n b : length (sub_vblock v off n b) = length v.
Proof. apply length_imap. Qed.

Lemma vget_sub_vblock (v : Vec) off n b i :
  vget (sub_vblock v off n b) i =
  if decide (off ≤ i < off + n ∧ i < length v) then (vget v i - vget b (i - off))%S
  else vget v i.
Proof.
  unfold sub_vblock. unfold vget at 1. rewrite list_lookup_imap.
  destruct (decide (i < length v)) as [Hi|Hi].
  - rewrite (lookup_vget v i Hi). simpl.
    destruct (in_range off n i) eqn:E.
    + apply in_range_true in E. rewrite decide_True by done. reflexivity.
    + apply in_range_false in E. rewrite decide_False by lia. reflexivity.
  - rewrite lookup_ge_None_2 by lia. simpl. rewrite decide_False by lia.
    symmetry. apply vget_ge. lia.
Qed.

End ArrayLemmas.

(** ** The layout of the state vector *)

Section LayoutLemmas.
Context {S : Scalar} {P : Problem}.

Lemma mapDGtoSundials_fold (f g h : nat → list View) (L : View) n a b c d :
  foldl (λ '(sigma, q, u, lam) var,
           (sigma ++ [f var], q ++ [g var], u ++ [h var], L)) (a, b, c, d) (seq 0 n)
  = (a ++ (f <$> seq 0 n), b ++ (g <$> seq 0 n), c ++ (h <$> seq 0 n),
     if n =? 0 then d else L).
Proof.
  induction n as [|n IH].
  - simpl. rewrite !app_nil_r. reflexivity.
  - rewrite foldl_seq_S, IH, !seq_S, !fmap_app, !app_assoc. reflexivity.
Qed.

Lemma mapDGtoSundials_eq sigma q u lam :
  mapDGtoSundials sigma q u lam
  = (sigma ++ (cellSigCoeffs <$> seq 0 nVar), q ++ (cellQCoeffs <$> seq 0 nVar),
     u ++ (cellUCoeffs <$> seq 0 nVar), if nVar =? 0 then lam else lamView).
Proof. apply mapDGtoSundials_fold. Qed.

Lemma mapDGtoSundials_u_eq u :
  mapDGtoSundials_u u = u ++ (cellUCoeffs <$> seq 0 nVar).
Proof.
  unfold mapDGtoSundials_u. induction nVar as [|n IH].
  - simpl. rewrite app_nil_r. reflexivity.
  - rewrite foldl_seq_S, IH, seq_S, fmap_app, app_assoc. reflexivity.
Qed.

Lemma mapDGtoSundials_cellwise_eq :
  mapDGtoSundials_cellwise
  = ((λ i, (u32 (i * 3 * nVar * (k + 1)), u32 (nVar * 3 * (k + 1)))) <$> seq 0 nCells, lamView).
Proof.
  unfold mapDGtoSundials_cellwise. f_equal.
  induction nCells as [|n IH].
  - reflexivity.
  - rewrite foldl_seq_S, IH, seq_S, fmap_app. reflexivity.
Qed.

Lemma coeffs_fresh (f : nat → nat → View) var i :
  var < nVar → i < nCells →
  coeffs ((λ var, (λ i, f var i) <$> seq 0 nCells) <$> seq 0 nVar) var i = f var i.
Proof.
  intros Hv Hi. unfold coeffs.
  rewrite list_lookup_fmap, lookup_seq_lt by done. simpl.
  rewrite list_lookup_fmap, lookup_seq_lt by done. reflexivity.
Qed.

Lemma sig_view var i :
  fits32 → var < nVar → i < nCells →
  coeffs (cellSigCoeffs <$> seq 0 nVar) var i
  = (i * 3 * nVar * (k + 1) + var * (k + 1), k + 1).
Proof.
  intros Hf Hv Hi. unfold cellSigCoeffs. rewrite (coeffs_fresh _ var i Hv Hi).
  unfold fits32, state_length in Hf.
  rewrite !u32_small by nia. f_equal. lia.
Qed.

Lemma q_view var i :
  fits32 → var < nVar → i < nCells →
  coeffs (cellQCoeffs <$> seq 0 nVar) var i
  = (i * 3 * nVar * (k + 1) + nVar * (k + 1) + var * (k + 1), k + 1).
Proof.
  intros Hf Hv Hi. unfold cellQCoeffs. rewrite (coeffs_fresh _ var i Hv Hi).
  unfold fits32, state_length in Hf.
  rewrite !u32_small by nia. f_equal. lia.
Qed.

Lemma u_view var i :
  fits32 → var < nVar → i < nCells →
  coeffs (cellUCoeffs <$> seq 0 nVar) var i
  = (i * 3 * nVar * (k + 1) + 2 * nVar * (k + 1) + var * (k + 1), k + 1).
Proof.
  intros Hf Hv Hi. unfold cellUCoeffs. rewrite (coeffs_fresh _ var i Hv Hi).
  unfold fits32, state_length in Hf.
  rewrite !u32_small by nia. f_equal. lia.
Qed.

Lemma lamView_eq :
  fits32 → lamView = (3 * nVar * (k + 1) * nCells, nVar * (nCells + 1)).
Proof.
  intros Hf. unfold lamView. unfold fits32, state_length in Hf.
  rewrite !u32_small by nia. f_equal. lia.
Qed.

End LayoutLemmas.

(** C4: for every variable [v], cell [i] and block [s] (0 = sigma, 1 = q,
    2 = u) the window that [mapDGtoSundials] binds has [k+1] entries and
    starts at [i*3N(k+1) + s*N(k+1) + v*(k+1)], so that its [j]-th
    coefficient is the entry of the state vector at that offset plus [j];
    the trace window starts at [3N(k+1)*Nc], so that the trace of variable
    [v] at face [j], which the code reads at index [v*(Nc+1)+j] of the
    window, is the entry [3N(k+1)*Nc + v*(Nc+1) + j].  The same holds for
    the overload that binds u alone and for the cell-wise overload. *)
Theorem C4_block_layout {S : Scalar} {P : Problem} (lam0 : View) (Y : Vec) (v i : nat) :
  fits32 → v < nVar → i < nCells →
  let '(sigma, q, u, lam) := mapDGtoSundials [] [] [] lam0 in
  let '(SQU_cell, lam') := mapDGtoSundials_cellwise in
  coeffs sigma v i = (block_offset 0 v i, k + 1)
  ∧ coeffs q v i = (block_offset 1 v i, k + 1)
  ∧ coeffs u v i = (block_offset 2 v i, k + 1)
  ∧ coeffs (mapDGtoSundials_u []) v i = (block_offset 2 v i, k + 1)
  ∧ SQU_cell !! i = Some (block_offset 0 0 i, 3 * nVar * (k + 1))
  ∧ lam = (lambda_offset 0 0, nVar * (nCells + 1))
  ∧ lam' = lam
  ∧ (∀ j, j ≤ k →
       vget (read Y (coeffs sigma v i)) j = vget Y (block_offset 0 v i + j)
       ∧ vget (read Y (coeffs q v i)) j = vget Y (block_offset 1 v i + j)
       ∧ vget (read Y (coeffs u v i)) j = vget Y (block_offset 2 v i + j))
  ∧ (∀ j, j ≤ nCells → vget (read Y lam) (v * (nCells + 1) + j) = vget Y (lambda_offset v j)).
Proof.
  intros Hf Hv Hi.
  rewrite mapDGtoSundials_eq, mapDGtoSundials_cellwise_eq, mapDGtoSundials_u_eq. simpl.
  rewrite sig_view, q_view, u_view by done.
  assert (Hn : (nVar =? 0) = false) by (apply Nat.eqb_neq; lia).
  rewrite Hn, lamView_eq by done.
  unfold block_offset, lambda_offset.
  repeat split.
  - f_equal. lia.
  - f_equal. lia.
  - f_equal. lia.
  - f_equal. lia.
  - rewrite list_lookup_fmap, lookup_seq_lt by done. simpl.
    unfold fits32, state_length in Hf. rewrite !u32_small by nia.
    do 2 f_equal; lia.
  - f_equal. lia.
  - unfold read. simpl. rewrite vget_vblock by lia. f_equal. lia.
  - unfold read. simpl. rewrite vget_vblock by lia. f_equal. lia.
  - unfold read. simpl. rewrite vget_vblock by lia. f_equal. lia.
  - intros j Hj. unfold read. simpl. rewrite vget_vblock by nia. f_equal. lia.
Qed.

Lemma C4_block_layout_witness :
  let '(sigma, q, u, lam) := mapDGtoSundials (P := demo_problem) [] [] [] (0, 0) in
  coeffs sigma 0 1 = (6, 2) ∧ coeffs q 0 1 = (8, 2) ∧ coeffs u 0 1 = (10, 2) ∧ lam = (12, 3).
Proof.
  pose proof (C4_block_layout (P := demo_problem) (0, 0) [] 0 1) as H.
  destruct (mapDGtoSundials (P := demo_problem) [] [] [] (0, 0)) as [[[sigma q] u] lam].
  destruct (mapDGtoSundials_cellwise (P := demo_problem)) as [SQU lam'].
  destruct H as (H1 & H2 & H3 & _ & _ & H6 & _).
  - unfold fits32. vm_compute. reflexivity.
  - vm_compute. lia.
  - vm_compute. lia.
  - rewrite H1, H2, H3, H6. vm_compute. done.
Defined.

(** ** The boundary update *)

Section BoundaryLemmas.
Context {S : Scalar} {P : Problem}.

Lemma foldl_length_inv {A : Type} (f : Vec → A → Vec) (v : Vec) (l : list A) :
  (∀ v x, length (f v x) = length v) → length (foldl f v l) = length v.
Proof.
  intros Hf. revert v. induction l as [|x l IH]; intros v; simpl; [reflexivity|].
  rewrite IH. apply Hf.
Qed.

Lemma ofoldl_length_inv {A : Type} (f : Vec → A → option Vec) (v v' : Vec) (l : list A) :
  (∀ v x v', f v x = Some v' → length v' = length v) →
  ofoldl f v l = Some v' → length v' = length v.
Proof.
  intros Hf. revert v. induction l as [|x l IH]; intros v; simpl.
  - intros [= <-]. reflexivity.
  - destruct (f v x) as [w|] eqn:E; simpl; [|discriminate].
    intros H. rewrite (IH _ H). eapply Hf, E.
Qed.

(** [fill_RF] looks at the vector it is handed only to learn its length. *)
Lemma fill_RF_length_dep t I (rf rf' : Vec) :
  length rf = length rf' → fill_RF t I rf = fill_RF t I rf'.
Proof.
  intros H. unfold fill_RF. rewrite (vsetZero_length_eq rf rf' H). reflexivity.
Qed.

Lemma fill_RF_length t I (rf rf' : Vec) :
  fill_RF t I rf = Some rf' → length rf' = length rf.
Proof.
  unfold fill_RF.
  set (n := nVar * (k + 1)).
  set (r1 := foldl _ (vsetZero rf) (seq 0 n)).
  assert (H1 : length r1 = length rf).
  { unfold r1. rewrite foldl_length_inv; [apply length_vsetZero|].
    intros. apply length_vset. }
  set (r2 := if lowerDirichlet I then _ else r1).
  assert (H2 : length r2 = length rf).
  { unfold r2. destruct (lowerDirichlet I); [|done].
    rewrite foldl_length_inv; [done|].
    intros. rewrite length_vsub_at. apply length_vset. }
  destruct (upperDirichlet I).
  - intros H. rewrite <- H2. revert H. apply ofoldl_length_inv.
    intros v x v'. destruct (upper_sigma_index x); simpl; [|discriminate].
    intros [= <-]. rewrite length_vsub_at. apply length_vadd_at.
  - intros [= <-]. done.
Qed.

Lemma fill_L_length t i I (L : Vec) : length (fill_L t i I L) = length L.
Proof.
  unfold fill_L. apply foldl_length_inv. intros v x.
  destruct (lowerNeumann I), (upperNeumann I); rewrite ?length_vadd_at; reflexivity.
Qed.

Lemma boundary_loop_split t RF L l :
  ofoldl (λ '(RF, L) i,
            let I := cell i in
            rf ← fill_RF t I (default [] (RF !! i));
            Some (<[i := rf]> RF, fill_L t i I L)) (RF, L) l
  = RF' ← RF_loop t RF l; Some (RF', L_loop t L l).
Proof.
  unfold RF_loop, L_loop.
  revert RF L. induction l as [|i l IH]; intros RF L; simpl; [reflexivity|].
  destruct (fill_RF t (cell i) (default [] (RF !! i))) as [rf|]; simpl; [|reflexivity].
  apply IH.
Qed.

Lemma updateBoundaryConditions_eq t s :
  updateBoundaryConditions t s
  = RF ← RF_loop t (RF_cellwise s) (seq 0 nCells);
    Some (set_boundary RF (L_loop t (vsetZero (L_global s)) (seq 0 nCells)) s).
Proof.
  unfold updateBoundaryConditions. rewrite boundary_loop_split.
  destruct (RF_loop t (RF_cellwise s) (seq 0 nCells)); reflexivity.
Qed.

Lemma L_loop_length t L l : length (L_loop t L l) = length L.
Proof.
  unfold L_loop. apply foldl_length_inv. intros. apply fill_L_length.
Qed.

Lemma same_shape_refl (RF : list Vec) : same_shape RF RF.
Proof. apply Forall_Forall2_diag, Forall_forall. done. Qed.

Lemma same_shape_lookup (RF1 RF2 : list Vec) i :
  same_shape RF1 RF2 → length (default [] (RF1 !! i)) = length (default [] (RF2 !! i)).
Proof.
  intros H. destruct (RF1 !! i) as [a|] eqn:E1.
  - destruct (Forall2_lookup_l _ _ _ _ _ H E1) as (b & -> & Hab). done.
  - apply lookup_ge_None in E1. rewrite (Forall2_length _ _ _ H) in E1.
    rewrite lookup_ge_None_2 by done. done.
Qed.

(** Run on two lists of the same shape, the loop fails on both or
    succeeds on both; the entries it has visited are then the same and
    the others are as they were. *)
Lemma RF_loop_rel t n (RF1 RF2 : list Vec) :
  same_shape RF1 RF2 →
  match RF_loop t RF1 (seq 0 n), RF_loop t RF2 (seq 0 n) with
  | Some R1, Some R2 =>
      same_shape R1 R2 ∧ same_shape RF1 R1
      ∧ (∀ i, i < n → R1 !! i = R2 !! i)
      ∧ (∀ i, n ≤ i → R1 !! i = RF1 !! i ∧ R2 !! i = RF2 !! i)
  | None, None => True
  | _, _ => False
  end.
Proof.
  intros Hs. unfold RF_loop. induction n as [|n IH].
  - simpl. repeat split; [done | apply same_shape_refl | lia].
  - rewrite !ofoldl_seq_S.
    destruct (ofoldl _ RF1 (seq 0 n)) as [R1|], (ofoldl _ RF2 (seq 0 n)) as [R2|];
      simpl; try done.
    destruct IH as (Hs' & Hs1 & Hlt & Hge).
    rewrite (fill_RF_length_dep t (cell n) _ _ (same_shape_lookup R1 R2 n Hs')).
    destruct (fill_RF t (cell n) (default [] (R2 !! n))) as [rf|] eqn:E; simpl; [|done].
    assert (Hlen : length rf = length (default [] (R1 !! n))).
    { rewrite (fill_RF_length _ _ _ _ E). symmetry. apply same_shape_lookup, Hs'. }
    repeat split.
    + apply Forall2_insert; [done | done].
    + destruct (R1 !! n) as [a|] eqn:En.
      * rewrite <- (list_insert_id RF1 n (default [] (RF1 !! n))) at 1.
        -- apply Forall2_insert; [done|]. simpl in Hlen. rewrite Hlen.
           pose proof (same_shape_lookup RF1 R1 n Hs1) as Hl. rewrite En in Hl. done.
        -- destruct (Forall2_lookup_r _ _ _ _ _ Hs1 En) as (b & -> & _). done.
      * rewrite list_insert_ge by (by apply lookup_ge_None). done.
    + intros i Hi. destruct (decide (i = n)) as [->|Hne].
      * destruct (decide (n < length R1)) as [Hl|Hl].
        -- rewrite !list_lookup_insert_eq; [done | | done].
           rewrite <- (Forall2_length _ _ _ Hs'). done.
        -- rewrite !lookup_ge_None_2; [done | |];
             rewrite length_insert; [rewrite <- (Forall2_length _ _ _ Hs')|]; lia.
      * rewrite !list_lookup_insert_ne by done. apply Hlt. lia.
    + rewrite list_lookup_insert_ne by lia. apply Hge. lia.
    + rewrite list_lookup_insert_ne by lia. apply Hge. lia.
Qed.

End BoundaryLemmas.

(** ** What [initialiseMatrices] leaves behind *)

Section InitLemmas.
Context {S : Scalar} {P : Problem}.

Lemma init_cell_spec un s C E HG i st :
  init_cell un (s, C, E, HG) i = Some st →
  MBlocks st.1.1.1
  = MBlocks s ++ [M_block (A_cell (cell i)) (B_cell (cell i)) (D_cell (cell i))]
  ∧ length (RF_cellwise st.1.1.1) = length (RF_cellwise s) + 1
  ∧ K_global st.1.1.1 = K_global s
  ∧ length (L_global st.1.1.1) = length (L_global s).
Proof.
  unfold init_cell.
  destruct (CE_fill (cell i) C E) as [C' E'].
  destruct (fill_RF 0%S (cell i) _) as [rf|]; simpl; [|discriminate].
  destruct (H_fill i (cell i) HG) as [H HG'].
  intros [= <-]. simpl. repeat split.
  - rewrite length_insert, length_app. simpl. lia.
  - apply fill_L_length.
Qed.

Lemma init_loop_spec un n s C E HG st :
  ofoldl (init_cell un) (s, C, E, HG) (seq 0 n) = Some st →
  MBlocks st.1.1.1
  = MBlocks s ++ ((λ i, M_block (A_cell (cell i)) (B_cell (cell i)) (D_cell (cell i)))
                    <$> seq 0 n)
  ∧ length (RF_cellwise st.1.1.1) = length (RF_cellwise s) + n
  ∧ K_global st.1.1.1 = K_global s
  ∧ length (L_global st.1.1.1) = length (L_global s).
Proof.
  revert st. induction n as [|n IH]; intros st.
  - simpl. intros [= <-]. simpl. rewrite app_nil_r. repeat split. lia.
  - rewrite ofoldl_seq_S.
    destruct (ofoldl (init_cell un) (s, C, E, HG) (seq 0 n)) as [[[[s1 C1] E1] HG1]|];
      [cbn [mbind option_bind] | discriminate].
    intros Hst. destruct (IH _ eq_refl) as (HM & HR & HK & HL).
    simpl in HM, HR, HK, HL.
    destruct (init_cell_spec _ _ _ _ _ _ _ Hst) as (HM' & HR' & HK' & HL').
    rewrite HM', HR', HK', HL', HM, HR, HK, HL, seq_S, fmap_app, app_assoc.
    repeat split. lia.
Qed.

(** After [initialiseMatrices] there is one forcing vector per cell, the
    trace right-hand side and [K_global] have their sizes, and the
    constant part of every cell matrix is stored. *)
Lemma initialiseMatrices_spec un s0 s :
  initialiseMatrices un s0 = Some s →
  MBlocks s = (λ i, M_block (A_cell (cell i)) (B_cell (cell i)) (D_cell (cell i)))
                <$> seq 0 nCells
  ∧ length (RF_cellwise s) = nCells
  ∧ K_global s = mzero (nVar * (nCells + 1)) (nVar * (nCells + 1))
  ∧ length (L_global s) = nVar * (nCells + 1).
Proof.
  unfold initialiseMatrices.
  destruct (ofoldl _ _ (seq 0 nCells)) as [[[[s1 C1] E1] HG1]|] eqn:E; simpl; [|discriminate].
  intros [= <-]. simpl.
  destruct (init_loop_spec _ _ _ _ _ _ _ E) as (HM & HR & HK & HL). simpl in *.
  rewrite HM, HR, HK, HL, length_vzero. done.
Qed.

End InitLemmas.

(** C10: after [initialiseMatrices], what [updateBoundaryConditions(t)]
    leaves in [RF_cellwise] and [L_global] does not depend on what they
    held before (only on their sizes, which do not change), and running
    the update a second time with the same [t] changes nothing. *)
Theorem C10_boundary_update_idempotent {S : Scalar} {P : Problem}
    (un : Uninitialised) (s0 s : SystemSolver) (t : carrier) :
  initialiseMatrices un s0 = Some s →
  (∀ RF0 L0, same_shape RF0 (RF_cellwise s) → length L0 = length (L_global s) →
     updateBoundaryConditions t (set_boundary RF0 L0 s) = updateBoundaryConditions t s)
  ∧ (∀ s1, updateBoundaryConditions t s = Some s1 →
       updateBoundaryConditions t s1 = Some s1).
Proof.
  intros Hinit.
  destruct (initialiseMatrices_spec _ _ _ Hinit) as (_ & HR & _ & _).
  split.
  - intros RF0 L0 Hs HL. rewrite !updateBoundaryConditions_eq. simpl.
    rewrite (vsetZero_length_eq L0 (L_global s) HL).
    pose proof (RF_loop_rel t nCells RF0 (RF_cellwise s) Hs) as Hrel.
    destruct (RF_loop t RF0 (seq 0 nCells)) as [R1|],
             (RF_loop t (RF_cellwise s) (seq 0 nCells)) as [R2|]; simpl; try done.
    destruct Hrel as (Hs' & Hs1 & Hlt & Hge).
    assert (R1 = R2) as ->; [|reflexivity].
    apply list_eq. intros i. destruct (decide (i < nCells)) as [Hi|Hi].
    + apply Hlt, Hi.
    + rewrite !lookup_ge_None_2; [done | |].
      * rewrite <- (Forall2_length _ _ _ Hs'), <- (Forall2_length _ _ _ Hs1),
          (Forall2_length _ _ _ Hs). lia.
      * rewrite <- (Forall2_length _ _ _ Hs1), (Forall2_length _ _ _ Hs). lia.
  - intros s1. rewrite !updateBoundaryConditions_eq.
    destruct (RF_loop t (RF_cellwise s) (seq 0 nCells)) as [R|] eqn:E; simpl; [|discriminate].
    intros [= <-]. simpl.
    pose proof (RF_loop_rel t nCells R (RF_cellwise s)) as Hrel.
    pose proof (RF_loop_rel t nCells (RF_cellwise s) (RF_cellwise s) (same_shape_refl _))
      as Hself.
    rewrite E in Hrel, Hself. destruct Hself as (_ & Hs1 & _ & _).
    destruct (RF_loop t R (seq 0 nCells)) as [R'|]; simpl.
    + destruct Hrel as (Hs' & Hs2 & Hlt & Hge).
      { apply Forall2_flip. eapply Forall2_impl; [exact Hs1|]. simpl. done. }
      assert (R' = R) as ->.
      { apply list_eq. intros i. destruct (decide (i < nCells)) as [Hi|Hi].
        - apply Hlt, Hi.
        - apply Hge. lia. }
      rewrite (vsetZero_length_eq _ (L_global s)); [reflexivity|].
      rewrite L_loop_length. apply length_vsetZero.
    + exfalso. apply Hrel. apply Forall2_flip. eapply Forall2_impl; [exact Hs1|]. simpl. done.
Qed.

Lemma C10_boundary_update_idempotent_witness :
  updateBoundaryConditions (P := demo_problem) 7%Z demo_updated = Some demo_updated.
Proof.
  apply (C10_boundary_update_idempotent (P := demo_problem)
           (zero_garbage (P := demo_problem)) fresh_solver demo_solver 7%Z).
  - vm_compute. reflexivity.
  - vm_compute. reflexivity.
Defined.

(** ** The tolerances of the configuration file *)

(** [toml::find] is evaluated before the test on [count]: a tolerance
    that is absent raises [std::out_of_range]. *)
Lemma read_tolerance_absent (config : gmap string toml_value) (key msg : string) :
  config !! key = None → read_tolerance config key msg = Throw (out_of_range key).
Proof.
  intros H. unfold read_tolerance, toml.find. rewrite H. reflexivity.
Qed.

(** The branch that assigns the default is never taken. *)
Lemma read_tolerance_Ok (config : gmap string toml_value) (key msg : string) (d : Qc) :
  read_tolerance config key msg = Ok d → config !! key = Some (TFloating d).
Proof.
  unfold read_tolerance, toml.find, toml.count.
  destruct (config !! key) as [v|]; simpl; [|discriminate].
  destruct v; simpl; try discriminate. intros [= ->]. reflexivity.
Qed.

(** C9, evaluated: with [Relative_tolerance] absent and every other key
    present, reading the configuration raises [std::out_of_range]; the
    run does not proceed with the default. *)
Theorem C9_absent_tolerance_aborts :
  demo_config !! "Relative_tolerance" = None
  ∧ runSolver_config demo_config = Throw (out_of_range "Relative_tolerance").
Proof.
  split; vm_compute; reflexivity.
Qed.

(** ** The residual: return value and effects *)

Section ResidualEffects.
Context {S : Scalar} {P : Problem}.

Lemma fill_RF_total t I (rf : Vec) : 0 < k → is_Some (fill_RF t I rf).
Proof.
  intros Hk. unfold fill_RF. destruct (upperDirichlet I); [|eauto].
  unfold upper_sigma_index. destruct (k =? 0) eqn:E; [apply Nat.eqb_eq in E; lia|].
  cbn [mbind option_bind]. rewrite ofoldl_Some. eauto.
Qed.

Lemma RF_loop_total t RF l : 0 < k → is_Some (RF_loop t RF l).
Proof.
  intros Hk. unfold RF_loop. revert RF. induction l as [|i l IH]; intros RF; simpl; [eauto|].
  destruct (fill_RF_total t (cell i) (default [] (RF !! i)) Hk) as [rf ->]. simpl. apply IH.
Qed.

Lemma updateBoundaryConditions_total t s : 0 < k → is_Some (updateBoundaryConditions t s).
Proof.
  intros Hk. rewrite updateBoundaryConditions_eq.
  destruct (RF_loop_total t (RF_cellwise s) (seq 0 nCells) Hk) as [RF ->]. simpl. eauto.
Qed.

Lemma updateBoundaryConditions_frame t s s' :
  updateBoundaryConditions t s = Some s' →
  ∃ RF L, s' = set_boundary RF L s.
Proof.
  rewrite updateBoundaryConditions_eq.
  destruct (RF_loop t (RF_cellwise s) (seq 0 nCells)) as [RF|]; simpl; [|discriminate].
  intros [= <-]. eauto.
Qed.

End ResidualEffects.




Section ResidualLog.
Context {S : Scalar} {P : Problem}.

(** A loop that only appends to the diagnostic stream keeps what was
    there. *)
Lemma foldl_log_prefix {A B : Type} (f : A * list LogItem → B → A * list LogItem)
    (a : A) (log : list LogItem) (l : list B) :
  (∀ a lg x, ∃ extra, (f (a, lg) x).2 = lg ++ extra) →
  ∃ extra, (foldl f (a, log) l).2 = log ++ extra.
Proof.
  intros Hf. revert a log. induction l as [|x l IH]; intros a log; simpl.
  - exists []. rewrite app_nil_r. reflexivity.
  - destruct (f (a, log) x) as [a' lg'] eqn:E.
    destruct (Hf a log x) as [e1 He1]. rewrite E in He1. simpl in He1. subst lg'.
    destruct (IH a' (log ++ e1)) as [e2 He2]. exists (e1 ++ e2).
    rewrite He2, app_assoc. reflexivity.
Qed.

Lemma residual_vector_log Y dydt resval s log :
  ∃ extra, (residual_vector Y dydt resval s log).2 = log ++ extra.
Proof.
  unfold residual_vector.
  destruct (mapDGtoSundials [] [] [] (0, nVar * (nCells + 1))) as [[[tempSig tempQ] tempU] tempLambda].
  apply foldl_log_prefix. intros rv lg i.
  apply foldl_log_prefix. intros rv' lg' var. simpl. eauto.
Qed.

End ResidualLog.

(** C7, as the code has it: besides writing the residual vector and
    refreshing [RF_cellwise] and [L_global], a call of [residual] adds one
    to [total_steps], stores the norm of the residual in [resNorm] when
    the solver is being tested, replaces the contents of the file
    [trial.plot] by one frame printed from the derivative vector, and
    appends to the diagnostic stream; every other member of the solver
    and every other file are as before. *)
Theorem C7_residual_effects {S : Scalar} {P : Problem}
    (tres : carrier) (Y dydt resval : Vec) (s : SystemSolver) (w : World) (r : ResidualResult) :
  residual tres Y dydt resval s w = Some r →
  (∃ RF L, sys_out r
           = set_stats (total_steps s + 1)
                       (if isTesting s then norm (resval_out r) else resNorm s)
                       (set_boundary RF L s))
  ∧ total_steps (sys_out r) = total_steps s + 1
  ∧ files (world_out r) = <["trial.plot" := [trial_frame dydt]]> (files w)
  ∧ (∃ extra, console (world_out r) = console w ++ extra).
Proof.
  unfold residual.
  destruct (updateBoundaryConditions tres s) as [s'|] eqn:E; simpl; [|discriminate].
  destruct (updateBoundaryConditions_frame _ _ _ E) as (RF & L & ->).
  pose proof (residual_vector_log Y dydt resval (set_boundary RF L s) (console w)) as [e He].
  destruct (residual_vector Y dydt resval (set_boundary RF L s) (console w)) as [rv lg].
  simpl in He. subst lg.
  intros [= <-]. simpl. repeat split.
  - exists RF, L. reflexivity.
  - eexists. rewrite <- !app_assoc. reflexivity.
Qed.

Lemma C7_residual_effects_witness :
  ∃ r, residual (P := demo_problem) 7%Z (replicate 15 1%Z) (replicate 15 2%Z)
                (replicate 15 3%Z) demo_solver empty_world = Some r
       ∧ total_steps (sys_out r) = total_steps demo_solver + 1.
Proof.
  destruct (residual (P := demo_problem) 7%Z (replicate 15 1%Z) (replicate 15 2%Z)
                     (replicate 15 3%Z) demo_solver empty_world) as [r|] eqn:E.
  - exists r. split; [reflexivity|].
    apply (C7_residual_effects (P := demo_problem) _ _ _ _ _ _ _ E).
  - vm_compute in E. discriminate E.
Defined.

(** One call of [residual] changes the counter of the solver and creates
    a file. *)
Lemma C7_counterexample :
  match residual (P := demo_problem) 7%Z (replicate 15 1%Z) (replicate 15 2%Z)
                 (replicate 15 3%Z) demo_solver empty_world with
  | Some r => total_steps (sys_out r) ≠ total_steps demo_solver
              ∧ files (world_out r) !! "trial.plot" ≠ files (empty_world (S := Z_scalar)) !! "trial.plot"
  | None => False
  end.
Proof.
  vm_compute. split; discriminate.
Qed.

(** ** The boundary forcing at an upper Dirichlet boundary *)

(** ** The rows of the boundary forcing *)

Section BoundaryRows.
Context {S : Scalar} {P : Problem}.

(** A loop over [j < n] whose step [j] rewrites the entries [j] and
    [n + j] of a vector of length [2 n], and no other. *)
Lemma foldl_rows (f : Vec → nat → Vec) (a b : nat → carrier → carrier) (n : nat) (rf : Vec) :
  length rf = 2 * n →
  (∀ rf j, length (f rf j) = length rf) →
  (∀ rf j p, j < n → length rf = 2 * n →
     vget (f rf j) p = if decide (p = j) then a j (vget rf p)
                       else if decide (p = n + j) then b j (vget rf p) else vget rf p) →
  ∀ m, m ≤ n →
    length (foldl f rf (seq 0 m)) = 2 * n
    ∧ ∀ p, vget (foldl f rf (seq 0 m)) p
           = if decide (p < m) then a p (vget rf p)
             else if decide (n ≤ p < n + m) then b (p - n) (vget rf p) else vget rf p.
Proof.
  intros Hlen Hf Hget m. induction m as [|m IH]; intros Hm.
  - split; [done|]. intros p. simpl. repeat case_decide; try lia; reflexivity.
  - destruct IH as [IHl IHg]; [lia|]. rewrite foldl_seq_S. split.
    + rewrite Hf. exact IHl.
    + intros p. rewrite Hget by (done || lia). rewrite IHg.
      repeat case_decide; try lia; try reflexivity; subst.
      all: try (replace (n + m - n) with m by lia; reflexivity).
Qed.

Lemma fill_RF_rows t I (rf rf' : Vec) j :
  0 < k → length rf = 2 * (nVar * (k + 1)) → fill_RF t I rf = Some rf' →
  j < nVar * (k + 1) →
  vget rf' j = RF_sigma_entry t I j
  ∧ vget rf' (nVar * (k + 1) + j) = RF_u_entry t I j.
Proof.
  intros Hk Hlen. unfold fill_RF, RF_sigma_entry, RF_u_entry.
  set (n := nVar * (k + 1)) in *.
  unfold upper_sigma_index. destruct (k =? 0) eqn:E; [apply Nat.eqb_eq in E; lia|].
  cbn [mbind option_bind].
  set (f1 := λ (rf : Vec) j, vset rf (n + j) (CellProduct I RHS (phi I (j mod (k + 1))))).
  pose proof (foldl_rows f1 (λ _ x, x) (λ j _, CellProduct I RHS (phi I (j mod (k + 1)))) n
                (vsetZero rf)) as H1.
  destruct (H1 ltac:(by rewrite length_vsetZero)) with (m := n) as [L1 G1]; [| |lia|].
  { intros. apply length_vset. }
  { intros r i p Hi Hr. unfold f1. rewrite vget_vset.
    repeat case_decide; try lia; try reflexivity. }
  fold f1. set (r1 := foldl f1 (vsetZero rf) (seq 0 n)) in *. clearbody r1. clear H1.
  set (f2 := λ (rf : Vec) j,
         vsub_at (vset rf j (- phi I (j mod (k + 1)) (x_l I) * sopp 1 * g_D BCs (x_l I) t)%S)
                 (n + j) (phi I (j mod (k + 1)) (x_l I) * (- c_fn (x_l I) - tau (x_l I))
                          * g_D BCs (x_l I) t)%S).
  set (r2 := if lowerDirichlet I then foldl f2 r1 (seq 0 n) else r1).
  assert (H2 : length r2 = 2 * n ∧ ∀ j, j < n →
     vget r2 j = (if lowerDirichlet I
                  then (- phi I (j mod (k + 1)) (x_l I) * sopp 1 * g_D BCs (x_l I) t)%S
                  else 0%S)
     ∧ vget r2 (n + j)
       = (if lowerDirichlet I
          then (CellProduct I RHS (phi I (j mod (k + 1)))
                - phi I (j mod (k + 1)) (x_l I) * (- c_fn (x_l I) - tau (x_l I))
                  * g_D BCs (x_l I) t)%S
          else CellProduct I RHS (phi I (j mod (k + 1))))).
  { unfold r2. destruct (lowerDirichlet I).
    - pose proof (foldl_rows f2
        (λ j _, (- phi I (j mod (k + 1)) (x_l I) * sopp 1 * g_D BCs (x_l I) t)%S)
        (λ j x, (x - phi I (j mod (k + 1)) (x_l I) * (- c_fn (x_l I) - tau (x_l I))
                     * g_D BCs (x_l I) t)%S) n r1 L1) as H2.
      destruct H2 with (m := n) as [L2 G2]; [| |lia|].
      { intros. unfold f2. rewrite length_vsub_at. apply length_vset. }
      { intros r i p Hi Hr. unfold f2. rewrite vget_vsub_at, vget_vset, length_vset.
        repeat case_decide; try lia; try reflexivity. }
      split; [done|]. intros i Hi. rewrite !G2, !G1.
      repeat case_decide; try lia. replace (n + i - n) with i by lia. done.
    - split; [done|]. intros i Hi. rewrite !G1, !vget_vsetZero.
      repeat case_decide; try lia. replace (n + i - n) with i by lia. done. }
  clearbody r2. destruct H2 as [L2 G2].
  destruct (upperDirichlet I).
  - rewrite ofoldl_Some. intros [= <-] Hj.
    set (f3 := λ (rf : Vec) j, vsub_at (vadd_at rf j _) (n + j) _).
    pose proof (foldl_rows f3
        (λ j x, (x + - phi I (j mod k + 1) (x_u I) * 1 * g_D BCs (x_u I) t)%S)
        (λ j x, (x - phi I (j mod (k + 1)) (x_u I) * (c_fn (x_u I) - tau (x_u I))
                     * g_D BCs (x_u I) t)%S) n r2 L2) as H3.
    destruct H3 with (m := n) as [L3 G3]; [| |lia|].
    { intros. unfold f3. rewrite length_vsub_at. apply length_vadd_at. }
    { intros r i p Hi Hr. unfold f3. rewrite vget_vsub_at, vget_vadd_at, length_vadd_at.
      repeat case_decide; try lia; try reflexivity. }
    rewrite !G3. destruct (G2 j Hj) as [-> ->].
    repeat case_decide; try lia. replace (n + j - n) with j by lia. done.
  - intros [= <-] Hj. apply G2, Hj.
Qed.

(** The loop over the cells hands every cell to [fill_RF] once. *)
Lemma RF_loop_entries t n (RF R : list Vec) :
  RF_loop t RF (seq 0 n) = Some R →
  length R = length RF
  ∧ (∀ i, n ≤ i → R !! i = RF !! i)
  ∧ (∀ i, i < n → i < length RF →
       ∃ rf, fill_RF t (cell i) (default [] (RF !! i)) = Some rf ∧ R !! i = Some rf).
Proof.
  unfold RF_loop. revert R. induction n as [|n IH]; intros R.
  - simpl. intros [= <-]. repeat split; try done; lia.
  - rewrite ofoldl_seq_S. destruct (ofoldl _ RF (seq 0 n)) as [R1|]; [|done].
    destruct (IH R1 eq_refl) as (Hl & Hge & Hlt). cbn [mbind option_bind].
    rewrite (Hge n) by lia.
    destruct (fill_RF t (cell n) (default [] (RF !! n))) as [rf|] eqn:E; [|done].
    cbn [mbind option_bind]. intros [= <-]. repeat split.
    + rewrite length_insert. done.
    + intros i Hi. rewrite list_lookup_insert_ne by lia. apply Hge. lia.
    + intros i Hi Hi'. destruct (decide (i = n)) as [->|Hne].
      * exists rf. split; [done|]. apply list_lookup_insert_eq. lia.
      * rewrite list_lookup_insert_ne by done. apply Hlt; lia.
Qed.

(** The rows of the forcing vector after [updateBoundaryConditions(t)]:
    on a Dirichlet boundary the sigma row [j] and the u row [j] of the
    cell are [RF_sigma_entry] and [RF_u_entry]; at the upper boundary the
    former reads the basis function [j mod k + 1]. *)
Lemma updateBoundaryConditions_rows t s s' i j :
  0 < k → updateBoundaryConditions t s = Some s' →
  i < length (RF_cellwise s) → i < nCells →
  length (nthV (RF_cellwise s) i) = 2 * (nVar * (k + 1)) →
  j < nVar * (k + 1) →
  vget (nthV (RF_cellwise s') i) j = RF_sigma_entry t (cell i) j
  ∧ vget (nthV (RF_cellwise s') i) (nVar * (k + 1) + j) = RF_u_entry t (cell i) j.
Proof.
  intros Hk. rewrite updateBoundaryConditions_eq.
  destruct (RF_loop t (RF_cellwise s) (seq 0 nCells)) as [R|] eqn:E; [|done].
  cbn [mbind option_bind]. intros [= <-] Hi Hi' Hlen Hj.
  destruct (RF_loop_entries _ _ _ _ E) as (_ & _ & Hlt).
  destruct (Hlt i Hi' Hi) as (rf & Hrf & HR).
  unfold nthV in *. destruct s; simpl in *. rewrite HR. simpl.
  eapply fill_RF_rows; eauto.
Qed.

End BoundaryRows.

Section UpperBoundaryEvaluated.
#[local] Existing Instance demo_problem.

(** C6, evaluated: in the demonstration problem (degree 1, Dirichlet
    value 1 at the upper boundary [x = 2], where the basis functions take
    the values 3 and 4) the sigma-row entry [j = 0] of the last cell is
    [-phi_1(2) * 1 * g_D = -4] after the boundary update: the index of the
    basis function is [j%k+1 = 1], not [j = 0], for which the entry would
    be [-3]. *)
Theorem C6_upper_sigma_row_basis_index :
  let I := cell 1 in
  upperDirichlet I = true
  ∧ vget (nthV (RF_cellwise demo_updated) 1) 0 = (-4)%Z
  ∧ (- phi I 1 (x_u I) * 1 * g_D BCs (x_u I) 7%Z)%S = (-4)%Z
  ∧ (- phi I 0 (x_u I) * 1 * g_D BCs (x_u I) 7%Z)%S = (-3)%Z.
Proof.
  vm_compute. repeat split; reflexivity.
Qed.

End UpperBoundaryEvaluated.

(** ** Matrices *)

Section MatrixLemmas.
Context {S : Scalar}.

Lemma mdims_row (M : Mat) n m r row : mdims M n m → M !! r = Some row → length row = m.
Proof.
  intros [_ H] Hr. rewrite Forall_forall in H. apply H. eapply list_elem_of_lookup_2, Hr.
Qed.

Lemma mdims_lookup (M : Mat) n m r :
  mdims M n m → r < n → ∃ row, M !! r = Some row ∧ length row = m.
Proof.
  intros HM Hr. destruct (lookup_lt_is_Some_2 M r) as [row Hrow]; [destruct HM; lia|].
  exists row. split; [done|]. eapply mdims_row; eauto.
Qed.

Lemma mget_row (M : Mat) r c row : M !! r = Some row → mget M r c = vget row c.
Proof. intros H. unfold mget. rewrite H. reflexivity. Qed.

Lemma mget_oob_row (M : Mat) r c : length M ≤ r → mget M r c = 0%S.
Proof. intros H. unfold mget. rewrite lookup_ge_None_2 by done. reflexivity. Qed.

Lemma mget_oob (M : Mat) n m r c : mdims M n m → ¬ (r < n ∧ c < m) → mget M r c = 0%S.
Proof.
  intros HM H. destruct (decide (r < n)) as [Hr|Hr].
  - destruct (mdims_lookup M n m r HM Hr) as (row & Hrow & Hl).
    rewrite (mget_row _ _ _ _ Hrow). apply vget_ge. lia.
  - apply mget_oob_row. destruct HM. lia.
Qed.

Lemma mdims_mbuild n m (f : nat → nat → carrier) : mdims (mbuild n m f) n m.
Proof.
  split.
  - unfold mbuild. rewrite length_fmap. apply length_seq.
  - unfold mbuild. apply Forall_fmap, Forall_forall. intros r _. simpl. apply length_vbuild.
Qed.

Lemma mget_mbuild n m (f : nat → nat → carrier) r c :
  r < n → c < m → mget (mbuild n m f) r c = f r c.
Proof.
  intros Hr Hc. unfold mget, mbuild.
  rewrite list_lookup_fmap, lookup_seq_lt by done. simpl. apply vget_vbuild, Hc.
Qed.

Lemma mbuild_ext n m (f g : nat → nat → carrier) :
  (∀ r c, r < n → c < m → f r c = g r c) → mbuild n m f = mbuild n m g.
Proof.
  intros H. unfold mbuild. apply list_eq. intros r.
  rewrite !list_lookup_fmap. destruct (decide (r < n)) as [Hr|Hr].
  - rewrite lookup_seq_lt by done. simpl. f_equal.
    apply vec_ext; [rewrite !length_vbuild; done|].
    rewrite length_vbuild. intros c Hc. rewrite !vget_vbuild by done. apply H; done.
  - rewrite lookup_seq_ge by lia. reflexivity.
Qed.

Lemma mdims_mzero n m : mdims (mzero n m) n m.
Proof. apply mdims_mbuild. Qed.

Lemma mget_mzero n m r c : mget (mzero n m) r c = 0%S.
Proof.
  destruct (decide (r < n ∧ c < m)) as [[Hr Hc]|H].
  - apply mget_mbuild; done.
  - eapply mget_oob; [apply mdims_mzero | done].
Qed.

(** Two matrices of the same dimensions with the same entries are equal. *)
Lemma mat_ext (A B : Mat) n m :
  mdims A n m → mdims B n m →
  (∀ r c, r < n → c < m → mget A r c = mget B r c) → A = B.
Proof.
  intros HA HB H. apply list_eq. intros r.
  destruct (decide (r < n)) as [Hr|Hr].
  - destruct (mdims_lookup A n m r HA Hr) as (ra & Hra & Hla).
    destruct (mdims_lookup B n m r HB Hr) as (rb & Hrb & Hlb).
    rewrite Hra, Hrb. f_equal. apply vec_ext; [lia|].
    intros c Hc. rewrite <- (mget_row A r c ra Hra), <- (mget_row B r c rb Hrb).
    apply H; lia.
  - destruct HA, HB. rewrite !lookup_ge_None_2 by lia. reflexivity.
Qed.

Lemma mget_block (M : Mat) r0 c0 h w r c :
  r < h → c < w → mget (block M r0 c0 h w) r c = mget M (r0 + r) (c0 + c).
Proof. intros Hr Hc. unfold block. rewrite mget_mbuild by done. reflexivity. Qed.

Lemma block_ext (M M' : Mat) r0 c0 r0' c0' h w :
  (∀ r c, r < h → c < w → mget M (r0 + r) (c0 + c) = mget M' (r0' + r) (c0' + c)) →
  block M r0 c0 h w = block M' r0' c0' h w.
Proof. intros H. unfold block. apply mbuild_ext, H. Qed.

Lemma mdims_imap2 (M : Mat) n m (f : nat → nat → carrier → carrier) :
  mdims M n m → mdims (imap (λ r row, imap (f r) row) M) n m.
Proof.
  intros [Hn Hm]. split; [rewrite length_imap; done|].
  rewrite Forall_forall in Hm. apply Forall_forall. intros row Hrow.
  apply list_elem_of_lookup in Hrow as [r Hr]. rewrite list_lookup_imap in Hr.
  destruct (M !! r) as [row0|] eqn:E; simpl in Hr; [|discriminate].
  injection Hr as <-. rewrite length_imap. apply Hm. eapply list_elem_of_lookup_2, E.
Qed.

Lemma mget_imap2 (M : Mat) n m (f : nat → nat → carrier → carrier) r c :
  mdims M n m → r < n → c < m →
  mget (imap (λ r row, imap (f r) row) M) r c = f r c (mget M r c).
Proof.
  intros HM Hr Hc. destruct (mdims_lookup M n m r HM Hr) as (row & Hrow & Hl).
  unfold mget. rewrite list_lookup_imap, Hrow. simpl.
  unfold vget. rewrite list_lookup_imap.
  destruct (lookup_lt_is_Some_2 row c) as [x Hx]; [lia|]. rewrite Hx. reflexivity.
Qed.

Lemma mdims_set_block (M : Mat) n m r0 c0 h w B :
  mdims M n m → mdims (set_block M r0 c0 h w B) n m.
Proof. apply mdims_imap2. Qed.

Lemma mdims_add_block (M : Mat) n m r0 c0 h w B :
  mdims M n m → mdims (add_block M r0 c0 h w B) n m.
Proof. apply mdims_imap2. Qed.

Lemma mget_set_block (M : Mat) n m r0 c0 h w B r c :
  mdims M n m → r < n → c < m →
  mget (set_block M r0 c0 h w B) r c
  = if decide (r0 ≤ r < r0 + h ∧ c0 ≤ c < c0 + w) then mget B (r - r0) (c - c0)
    else mget M r c.
Proof.
  intros HM Hr Hc. unfold set_block.
  rewrite (mget_imap2 M n m _ r c HM Hr Hc).
  destruct (in_range r0 h r) eqn:E1, (in_range c0 w c) eqn:E2; simpl;
    rewrite ?in_range_true, ?in_range_false in *; case_decide; try done; lia.
Qed.

Lemma mget_add_block (M : Mat) n m r0 c0 h w B r c :
  mdims M n m → r < n → c < m →
  mget (add_block M r0 c0 h w B) r c
  = if decide (r0 ≤ r < r0 + h ∧ c0 ≤ c < c0 + w)
    then (mget M r c + mget B (r - r0) (c - c0))%S
    else mget M r c.
Proof.
  intros HM Hr Hc. unfold add_block.
  rewrite (mget_imap2 M n m _ r c HM Hr Hc).
  destruct (in_range r0 h r) eqn:E1, (in_range c0 w c) eqn:E2; simpl;
    rewrite ?in_range_true, ?in_range_false in *; case_decide; try done; lia.
Qed.

Lemma mdims_foldl_inv {A : Type} (f : Mat → A → Mat) (M : Mat) (l : list A) n m :
  (∀ M x, mdims M n m → mdims (f M x) n m) → mdims M n m → mdims (foldl f M l) n m.
Proof.
  intros Hf. revert M. induction l as [|x l IH]; intros M HM; simpl; [done|].
  apply IH, Hf, HM.
Qed.

Lemma mget_mopp (M : Mat) r c : mget (mopp M) r c = (if decide (r < length M ∧ c < length (default [] (M !! r))) then - mget M r c else 0)%S.
Proof.
  unfold mget, mopp, vopp. rewrite list_lookup_fmap.
  destruct (M !! r) as [row|] eqn:E; simpl.
  - unfold vget. rewrite list_lookup_fmap. destruct (row !! c) as [x|] eqn:Ec; simpl.
    + rewrite decide_True; [done|]. split; [eapply lookup_lt_Some, E | eapply lookup_lt_Some, Ec].
    + rewrite decide_False; [done|]. apply lookup_ge_None in Ec. lia.
  - rewrite decide_False; [done|]. apply lookup_ge_None in E. lia.
Qed.

Lemma mget_mopp_dims (M : Mat) n m r c :
  mdims M n m → r < n → c < m → mget (mopp M) r c = (- mget M r c)%S.
Proof.
  intros HM Hr Hc. rewrite mget_mopp.
  destruct (mdims_lookup M n m r HM Hr) as (row & Hrow & Hl).
  rewrite Hrow. simpl. destruct HM as [Hn _]. rewrite decide_True by lia. reflexivity.
Qed.

Lemma mget_mtranspose (M : Mat) n m r c :
  r < m → c < n → mget (mtranspose n m M) r c = mget M c r.
Proof. intros Hr Hc. unfold mtranspose. rewrite mget_mbuild by done. reflexivity. Qed.

Lemma mdims_mtranspose (M : Mat) n m : mdims (mtranspose n m M) m n.
Proof. apply mdims_mbuild. Qed.

Lemma mdims_mopp (M : Mat) n m : mdims M n m → mdims (mopp M) n m.
Proof.
  intros [Hn Hm]. split; [unfold mopp; rewrite length_fmap; done|].
  unfold mopp. apply Forall_fmap. eapply Forall_impl; [exact Hm|].
  intros row Hrow. simpl. unfold vopp. rewrite length_fmap. done.
Qed.

Lemma mget_madd (A B : Mat) n m r c :
  mdims A n m → mdims B n m → r < n → c < m →
  mget (madd A B) r c = (mget A r c + mget B r c)%S.
Proof.
  intros HA HB Hr Hc.
  destruct (mdims_lookup A n m r HA Hr) as (ra & Hra & Hla).
  destruct (mdims_lookup B n m r HB Hr) as (rb & Hrb & Hlb).
  unfold mget, madd. rewrite lookup_zip_with, Hra, Hrb. simpl.
  unfold vget, vadd. rewrite lookup_zip_with.
  destruct (lookup_lt_is_Some_2 ra c) as [x Hx]; [lia|].
  destruct (lookup_lt_is_Some_2 rb c) as [y Hy]; [lia|].
  rewrite Hx, Hy. reflexivity.
Qed.

Lemma mdims_msetZero (M : Mat) n m : mdims M n m → mdims (msetZero M) n m.
Proof.
  intros [Hn Hm]. split; [unfold msetZero; rewrite length_fmap; done|].
  unfold msetZero. apply Forall_fmap. eapply Forall_impl; [exact Hm|].
  intros row Hrow. simpl. rewrite length_vsetZero. done.
Qed.

Lemma mget_msetZero (M : Mat) r c : mget (msetZero M) r c = 0%S.
Proof.
  unfold mget, msetZero. rewrite list_lookup_fmap. destruct (M !! r); simpl.
  - apply vget_vsetZero.
  - reflexivity.
Qed.

End MatrixLemmas.

(** ** The cell matrix of the Jacobian solve *)

Create HintDb mdims.
#[export] Hint Resolve mdims_mzero mdims_mbuild mdims_set_block mdims_add_block
  mdims_mtranspose mdims_mopp mdims_msetZero : mdims.

Ltac mget_step :=
  first [ erewrite mget_set_block by (eauto 20 with mdims; lia)
        | erewrite mget_add_block by (eauto 20 with mdims; lia) ].

Section CellMatrix.
Context {S : Scalar} {P : Problem}.

Lemma mdims_tiled (f : Mat → nat → Mat) n m (M : Mat) l :
  (∀ M x, mdims M n m → mdims (f M x) n m) → mdims M n m → mdims (foldl f M l) n m.
Proof. apply mdims_foldl_inv. Qed.

Lemma mdims_A_cell I : mdims (A_cell I) (nVar * (k + 1)) (nVar * (k + 1)).
Proof. unfold A_cell. apply mdims_foldl_inv; eauto with mdims. Qed.

Lemma mdims_B_cell I : mdims (B_cell I) (nVar * (k + 1)) (nVar * (k + 1)).
Proof. unfold B_cell. apply mdims_foldl_inv; eauto with mdims. Qed.

Lemma mdims_D_cell I : mdims (D_cell I) (nVar * (k + 1)) (nVar * (k + 1)).
Proof. unfold D_cell. apply mdims_foldl_inv; eauto with mdims. Qed.

Lemma mdims_X_alpha a I : mdims (X_alpha a I) (nVar * (k + 1)) (nVar * (k + 1)).
Proof. unfold X_alpha. apply mdims_foldl_inv; eauto with mdims. Qed.

Lemma mdims_M_block A B D :
  mdims (M_block A B D) (3 * (nVar * (k + 1))) (3 * (nVar * (k + 1))).
Proof. unfold M_block. cbv zeta. eauto 12 with mdims. Qed.

(** The blocks of the constant part. *)
Lemma mget_M_block A B D br bc r c :
  let n := nVar * (k + 1) in
  br < 3 → bc < 3 → r < n → c < n →
  mget (M_block A B D) (br * n + r) (bc * n + c)
  = match br, bc with
    | 0, 0 => 0%S
    | 0, 1 => mget (mopp A) r c
    | 0, _ => mget (mopp (mtranspose n n B)) r c
    | 1, 0 => mget B r c
    | 1, 1 => 0%S
    | 1, _ => mget D r c
    | _, 0 => mget A r c
    | _, _ => 0%S
    end.
Proof.
  intros n Hbr Hbc Hr Hc. unfold M_block. cbv zeta. fold n.
  assert (Hn : 0 < n) by lia.
  destruct br as [|[|[|]]]; [| | |lia]; destruct bc as [|[|[|]]]; try lia;
    repeat (mget_step; case_decide; try lia);
    rewrite ?mget_mzero; try reflexivity; f_equal; lia.
Qed.

End CellMatrix.

#[export] Hint Resolve mdims_M_block mdims_A_cell mdims_B_cell mdims_D_cell mdims_X_alpha
  : mdims.

Section CellJacobian.
Context {S : Scalar} {SR : ScalarRing S} {P : Problem}.
Add Ring scalar_ring_CellJacobian : scalar_ring.

Lemma MBlocks_after_init un s0 s i :
  initialiseMatrices un s0 = Some s → i < nCells →
  nthM (MBlocks s) i = M_block (A_cell (cell i)) (B_cell (cell i)) (D_cell (cell i)).
Proof.
  intros Hinit Hi. destruct (initialiseMatrices_spec _ _ _ Hinit) as (HM & _).
  unfold nthM. rewrite HM, list_lookup_fmap, lookup_seq_lt by done. reflexivity.
Qed.

(** The entries of the matrix that is factorised, block by block; [Fq]
    is what the first and [Fu] what the second call of [setdFdqMat]
    leaves in its matrix. *)
Lemma mget_MX_of un s0 s a newQ newU i br bc r c :
  let n := nVar * (k + 1) in
  let I := cell i in
  let Fq := setdFdqMat (mzero n n) newQ newU I in
  let Fu := setdFdqMat (mzero n n) newQ newU I in
  initialiseMatrices un s0 = Some s → i < nCells →
  br < 3 → bc < 3 → r < n → c < n →
  mget (MX_of s a newQ newU i) (br * n + r) (bc * n + c)
  = match br, bc with
    | 0, 0 => 0%S
    | 0, 1 => mget (mopp (A_cell I)) r c
    | 0, _ => mget (mopp (mtranspose n n (B_cell I))) r c
    | 1, 0 => mget (B_cell I) r c
    | 1, 1 => (0 + mget Fq r c + mget Fu r c)%S
    | 1, _ => (mget (D_cell I) r c + mget (X_alpha a I) r c)%S
    | _, 0 => mget (A_cell I) r c
    | _, 1 => mget (NLqMat (mzero n n) newQ newU I) r c
    | _, _ => mget (NLuMat (mzero n n) newQ newU I) r c
    end.
Proof.
  intros n I Fq Fu Hinit Hi Hbr Hbc Hr Hc.
  unfold MX_of. cbv zeta. rewrite (MBlocks_after_init _ _ _ _ Hinit Hi). fold n I.
  pose proof (mget_M_block (A_cell I) (B_cell I) (D_cell I)) as HMb. cbv zeta in HMb.
  fold n in HMb.
  assert (Hn : 0 < n) by lia.
  destruct br as [|[|[|]]]; [| | |lia]; destruct bc as [|[|[|]]]; try lia;
    repeat (mget_step; case_decide; try lia);
    rewrite ?HMb by lia;
    try reflexivity; repeat f_equal; lia.
Qed.

End CellJacobian.




(** ** Sums and loops that accumulate *)

Section Sums.
Context {S : Scalar} {SR : ScalarRing S}.
Add Ring scalar_ring_Sums : scalar_ring.

Lemma ssum_S n (f : nat → carrier) : ssum (Datatypes.S n) f = (ssum n f + f n)%S.
Proof. unfold ssum. rewrite foldl_seq_S. reflexivity. Qed.

Lemma ssum_ext n (f g : nat → carrier) :
  (∀ i, i < n → f i = g i) → ssum n f = ssum n g.
Proof.
  intros H. induction n as [|n IH]; [reflexivity|].
  rewrite !ssum_S, IH, H by (intros; auto with lia). reflexivity.
Qed.

Lemma ssum_zero n (f : nat → carrier) : (∀ i, i < n → f i = 0%S) → ssum n f = 0%S.
Proof.
  intros H. induction n as [|n IH]; [reflexivity|].
  rewrite ssum_S, IH, H by (intros; auto with lia). ring.
Qed.

Lemma ssum_add n (f g : nat → carrier) :
  ssum n (λ i, (f i + g i)%S) = (ssum n f + ssum n g)%S.
Proof.
  induction n as [|n IH]; [unfold ssum; simpl; ring|].
  rewrite !ssum_S, IH. ring.
Qed.

(** A sum with one term. *)
Lemma ssum_at n a (f : nat → carrier) :
  ssum n (λ i, if decide (i = a) then f i else 0%S) = if decide (a < n) then f a else 0%S.
Proof.
  induction n as [|n IH].
  - rewrite decide_False by lia. reflexivity.
  - rewrite ssum_S, IH. destruct (decide (n = a)) as [->|Hne].
    + rewrite decide_False, decide_True by lia. ring.
    + destruct (decide (a < n)).
      * rewrite decide_True by lia. ring.
      * rewrite decide_False by lia. ring.
Qed.

Lemma additive_foldl (U : nat → Vec → Vec) (c : nat → nat → carrier) n :
  (∀ x, x < n → additive (U x) (c x)) →
  additive (λ v, foldl (λ v x, U x v) v (seq 0 n)) (λ idx, ssum n (λ x, c x idx)).
Proof.
  intros H. induction n as [|n IH]; intros v.
  - simpl. split; [done|]. intros idx _. unfold ssum. simpl. ring.
  - rewrite foldl_seq_S. destruct (IH (λ x Hx, H x (Nat.lt_lt_succ_r _ _ Hx)) v) as [Hl Hv].
    destruct (H n (Nat.lt_succ_diag_r n) (foldl (λ v x, U x v) v (seq 0 n))) as [Hl' Hv'].
    split; [lia|]. intros idx Hidx. rewrite Hv', Hv, ssum_S by lia. ring.
Qed.

Lemma additive_id : additive (λ v, v) (λ _, 0%S).
Proof. intros v. split; [done|]. intros. ring. Qed.

Lemma additive_ext (U : Vec → Vec) (c c' : nat → carrier) :
  (∀ idx, c idx = c' idx) → additive U c → additive U c'.
Proof.
  intros Hc H v. destruct (H v) as [Hl Hv]. split; [done|].
  intros idx Hidx. rewrite <- Hc. apply Hv, Hidx.
Qed.

Lemma additive_add_vblock off w (b : Vec) :
  additive (λ v, add_vblock v off w b)
           (λ idx, if decide (off ≤ idx < off + w) then vget b (idx - off) else 0%S).
Proof.
  intros v. split; [apply length_add_vblock|].
  intros idx Hidx. rewrite vget_add_vblock.
  destruct (decide (off ≤ idx < off + w)).
  - rewrite decide_True by lia. reflexivity.
  - rewrite decide_False by lia. ring.
Qed.

Lemma additive_sub_vblock off w (b : Vec) :
  additive (λ v, sub_vblock v off w b)
           (λ idx, if decide (off ≤ idx < off + w) then (- vget b (idx - off))%S else 0%S).
Proof.
  intros v. split; [apply length_sub_vblock|].
  intros idx Hidx. rewrite vget_sub_vblock.
  destruct (decide (off ≤ idx < off + w)).
  - rewrite decide_True by lia. ring.
  - rewrite decide_False by lia. ring.
Qed.

Lemma vget_vadd (a b : Vec) i :
  i < length a → i < length b → vget (vadd a b) i = (vget a i + vget b i)%S.
Proof.
  intros Ha Hb. unfold vget, vadd. rewrite lookup_zip_with.
  destruct (lookup_lt_is_Some_2 a i Ha) as [x ->].
  destruct (lookup_lt_is_Some_2 b i Hb) as [y ->]. reflexivity.
Qed.

Lemma vget_vsub (a b : Vec) i :
  i < length a → i < length b → vget (vsub a b) i = (vget a i - vget b i)%S.
Proof.
  intros Ha Hb. unfold vget, vsub. rewrite lookup_zip_with.
  destruct (lookup_lt_is_Some_2 a i Ha) as [x ->].
  destruct (lookup_lt_is_Some_2 b i Hb) as [y ->]. reflexivity.
Qed.

Lemma length_vadd (a b : Vec) : length (vadd a b) = length a `min` length b.
Proof. apply length_zip_with. Qed.

Lemma length_vsub (a b : Vec) : length (vsub a b) = length a `min` length b.
Proof. apply length_zip_with. Qed.

Lemma vget_vopp (a : Vec) i : i < length a → vget (vopp a) i = (- vget a i)%S.
Proof.
  intros Ha. unfold vget, vopp. rewrite list_lookup_fmap.
  destruct (lookup_lt_is_Some_2 a i Ha) as [x ->]. reflexivity.
Qed.

Lemma length_vopp (a : Vec) : length (vopp a) = length a.
Proof. apply length_fmap. Qed.

Lemma length_mat_vec (M : Mat) (v : Vec) : length (mat_vec M v) = length M.
Proof. apply length_fmap. Qed.

End Sums.

(** ** The trace equation *)

Section TraceEquation.
Context {S : Scalar} {SR : ScalarRing S} {P : Problem}.
Add Ring scalar_ring_TraceEquation : scalar_ring.

Lemma face_div v j : j ≤ nCells → (v * (nCells + 1) + j) / (nCells + 1) = v.
Proof.
  intros Hj. rewrite Nat.div_add_l, Nat.div_small by lia. lia.
Qed.

Lemma face_mod v j : j ≤ nCells → (v * (nCells + 1) + j) mod (nCells + 1) = j.
Proof.
  intros Hj. rewrite Nat.add_comm, Nat.Div0.mod_add. apply Nat.mod_small. lia.
Qed.

(** Every index of a trace vector is a face of a variable. *)
Lemma face_cases idx :
  idx < nVar * (nCells + 1) →
  ∃ v j, v < nVar ∧ j ≤ nCells ∧ idx = v * (nCells + 1) + j.
Proof.
  intros H. exists (idx / (nCells + 1)), (idx mod (nCells + 1)).
  pose proof (Nat.div_mod_eq idx (nCells + 1)) as Hdm.
  pose proof (Nat.mod_upper_bound idx (nCells + 1) ltac:(lia)) as Hm.
  repeat split; [|lia|lia].
  apply Nat.Div0.div_lt_upper_bound. lia.
Qed.

(** The window of two entries that cell [i] and variable [var] update
    contains the face [j] of variable [v] when [var = v] and the face is
    an end of the cell. *)
Lemma face_in_window v j var i :
  v < nVar → j ≤ nCells → var < nVar → i < nCells →
  (var * (nCells + 1) + i ≤ v * (nCells + 1) + j < var * (nCells + 1) + i + 2)
  ↔ var = v ∧ (i = j ∨ i + 1 = j).
Proof.
  intros Hv Hj Hvar Hi. split.
  - intros [H1 H2]. assert (var = v) by nia. subst var. split; [done|]. lia.
  - intros [-> H]. lia.
Qed.

Lemma CsGuL_assemble_additive s sigc uc :
  additive
    (λ v0, foldl (λ acc i,
             foldl (λ acc var,
                add_vblock acc (var * (nCells + 1) + i) 2
                  (vsub (vsub (vblock (L_global s) (var * (nCells + 1) + i) 2)
                              (mat_vec (block (nthM (C_cellwise s) i) (var * 2)
                                              (var * (k + 1)) 2 (k + 1)) (sigc var i)))
                        (mat_vec (block (nthM (G_cellwise s) i) (var * 2)
                                        (var * (k + 1)) 2 (k + 1)) (uc var i))))
                  acc (seq 0 nVar))
             v0 (seq 0 nCells))
    (λ idx, ssum nCells (λ i, ssum nVar (λ var,
       if decide (var * (nCells + 1) + i ≤ idx < var * (nCells + 1) + i + 2)
       then vget (vsub (vsub (vblock (L_global s) (var * (nCells + 1) + i) 2)
                              (mat_vec (block (nthM (C_cellwise s) i) (var * 2)
                                              (var * (k + 1)) 2 (k + 1)) (sigc var i)))
                        (mat_vec (block (nthM (G_cellwise s) i) (var * 2)
                                        (var * (k + 1)) 2 (k + 1)) (uc var i)))
                 (idx - (var * (nCells + 1) + i))
       else 0%S))).
Proof.
  apply (additive_foldl
           (λ i acc, foldl (λ acc var, add_vblock acc (var * (nCells + 1) + i) 2 _) acc
                           (seq 0 nVar))).
  intros i _.
  apply (additive_foldl (λ var acc, add_vblock acc (var * (nCells + 1) + i) 2 _)).
  intros var _. apply additive_add_vblock.
Qed.

Lemma length_mat_vec_block2 (M : Mat) r0 c0 w (x : Vec) :
  length (mat_vec (block M r0 c0 2 w) x) = 2.
Proof.
  rewrite length_mat_vec. unfold block. destruct (mdims_mbuild 2 w (λ r c, mget M (r0 + r) (c0 + c))) as [H _]. exact H.
Qed.

(** The loop of [residual] and [setInitialConditions] computes the
    right-hand side of the trace equation. *)
Lemma CsGuL_assemble_spec s sigc uc :
  0 < nCells → L_interior_zero s →
  CsGuL_assemble s sigc uc = trace_rhs s sigc uc.
Proof.
  intros HNc HL. unfold CsGuL_assemble.
  destruct (CsGuL_assemble_additive s sigc uc (vzero (nVar * (nCells + 1)))) as [Hlen Hget].
  apply vec_ext.
  { rewrite Hlen. unfold trace_rhs. rewrite length_vzero, length_vbuild. reflexivity. }
  rewrite Hlen, length_vzero. intros idx Hidx.
  rewrite Hget by (rewrite length_vzero; done).
  unfold trace_rhs. rewrite vget_vbuild by done. rewrite vget_vzero.
  destruct (face_cases idx Hidx) as (v & j & Hv & Hj & ->).
  cbv zeta. rewrite face_div, face_mod by done.
  (* the sum over the variables *)
  set (T := λ i var,
         vsub (vsub (vblock (L_global s) (var * (nCells + 1) + i) 2)
                    (mat_vec (block (nthM (C_cellwise s) i) (var * 2) (var * (k + 1)) 2 (k + 1))
                             (sigc var i)))
              (mat_vec (block (nthM (G_cellwise s) i) (var * 2) (var * (k + 1)) 2 (k + 1))
                       (uc var i))).
  rewrite (ssum_ext nCells _
             (λ i, ((if decide (i = j) then vget (T i v) 0 else 0)
                    + (if decide (i = (j - 1)%nat)
                       then (if decide (0 < j) then vget (T i v) 1 else 0)
                       else 0))%S)).
  2:{ intros i Hi.
      rewrite (ssum_ext nVar _
                 (λ var, if decide (var = v)
                         then (if decide (i = j) then vget (T i var) 0
                               else if decide (i + 1 = j) then vget (T i var) 1 else 0%S)
                         else 0%S)).
      - rewrite ssum_at, decide_True by done.
        destruct (decide (i = j)) as [->|Hne].
        + destruct (decide (j = j - 1)); [rewrite decide_False by lia|]; ring.
        + destruct (decide (i + 1 = j)).
          * rewrite decide_True, decide_True by lia. ring.
          * destruct (decide (i = j - 1)); [rewrite decide_False by lia|]; ring.
      - intros var Hvar.
        pose proof (face_in_window v j var i Hv Hj Hvar Hi) as Hw.
        destruct (decide (var * (nCells + 1) + i ≤ v * (nCells + 1) + j
                          < var * (nCells + 1) + i + 2)) as [Hin|Hout].
        + apply Hw in Hin as [-> Hij]. rewrite decide_True by done.
          destruct (decide (i = j)) as [->|Hne].
          * f_equal. lia.
          * rewrite decide_True by lia. f_equal. lia.
        + destruct (decide (var = v)) as [->|]; [|reflexivity].
          destruct (decide (i = j)); [exfalso; apply Hout, Hw; auto|].
          destruct (decide (i + 1 = j)); [exfalso; apply Hout, Hw; auto|]. reflexivity. }
  rewrite ssum_add, !ssum_at.
  assert (HT : ∀ i e, e < 2 →
            vget (T i v) e
            = (vget (L_global s) (v * (nCells + 1) + i + e)
               - vget (mat_vec (block (nthM (C_cellwise s) i) (v * 2) (v * (k + 1)) 2 (k + 1))
                               (sigc v i)) e
               - vget (mat_vec (block (nthM (G_cellwise s) i) (v * 2) (v * (k + 1)) 2 (k + 1))
                               (uc v i)) e)%S).
  { intros i e He. unfold T.
    rewrite !vget_vsub, vget_vblock
      by (rewrite ?length_vsub, ?length_vblock, ?length_mat_vec_block2; lia).
    reflexivity. }
  assert (HC : ∀ i e, e < 2 →
            vget (cell_trace s sigc uc i v) e
            = (vget (mat_vec (block (nthM (C_cellwise s) i) (v * 2) (v * (k + 1)) 2 (k + 1))
                             (sigc v i)) e
               + vget (mat_vec (block (nthM (G_cellwise s) i) (v * 2) (v * (k + 1)) 2 (k + 1))
                               (uc v i)) e)%S).
  { intros i e He. unfold cell_trace.
    rewrite vget_vadd by (rewrite ?length_mat_vec_block2; lia). reflexivity. }
  rewrite (decide_True (P := j - 1 < nCells)) by lia.
  destruct (decide (j < nCells)) as [Hjlt|Hjge], (decide (0 < j)) as [Hjpos|Hj0];
    rewrite ?HT, ?HC by lia.
  - replace (v * (nCells + 1) + (j - 1) + 1) with (v * (nCells + 1) + j) by lia.
    replace (v * (nCells + 1) + j + 0) with (v * (nCells + 1) + j) by lia.
    rewrite (HL v j Hv) by lia. ring.
  - replace (v * (nCells + 1) + j + 0) with (v * (nCells + 1) + j) by lia. ring.
  - replace (v * (nCells + 1) + (j - 1) + 1) with (v * (nCells + 1) + j) by lia. ring.
  - lia.
Qed.

End TraceEquation.

(** ** Loops and what they leave alone *)

Lemma foldl_inv {A B : Type} (Pinv : A → Prop) (f : A → B → A) (l : list B) (a : A) :
  Pinv a → (∀ a x, x ∈ l → Pinv a → Pinv (f a x)) → Pinv (foldl f a l).
Proof.
  revert a. induction l as [|x l IH]; intros a Ha Hf; simpl; [done|].
  apply IH.
  - apply Hf; [left | done].
  - intros a' y Hy. apply Hf. right. done.
Qed.

Lemma foldl_ext_elem {A B : Type} (f g : A → B → A) (l : list B) (a : A) :
  (∀ a x, x ∈ l → f a x = g a x) → foldl f a l = foldl g a l.
Proof.
  revert a. induction l as [|x l IH]; intros a H; simpl; [done|].
  rewrite H by left. apply IH. intros a' y Hy. apply H. right. done.
Qed.

Lemma elem_of_seq0 (n x : nat) : x ∈ seq 0 n ↔ x < n.
Proof. rewrite elem_of_seq. lia. Qed.

Section WindowLemmas.
Context {S : Scalar} {P : Problem}.

Lemma length_write (Y : Vec) (w : View) (b : Vec) : length (write Y w b) = length Y.
Proof. apply length_set_vblock. Qed.

Lemma vget_write_out (Y : Vec) (w : View) (b : Vec) idx :
  ¬ (w.1 ≤ idx < w.1 + w.2) → vget (write Y w b) idx = vget Y idx.
Proof.
  intros H. unfold write. rewrite vget_set_vblock, decide_False by lia. reflexivity.
Qed.

Lemma vget_write_in (Y : Vec) (w : View) (b : Vec) idx :
  w.1 ≤ idx < w.1 + w.2 → idx < length Y → vget (write Y w b) idx = vget b (idx - w.1).
Proof.
  intros H Hl. unfold write. rewrite vget_set_vblock, decide_True by lia. reflexivity.
Qed.

(** The windows of the cells end where the trace begins. *)
Lemma block_below_lambda b v i :
  b ≤ 2 → v < nVar → i < nCells →
  block_offset b v i + (k + 1) ≤ lambda_offset 0 0.
Proof.
  intros Hb Hv Hi. unfold block_offset, lambda_offset.
  assert (H1 : (v + 1) * (k + 1) ≤ nVar * (k + 1)) by (apply Nat.mul_le_mono_r; lia).
  assert (H2 : b * (nVar * (k + 1)) ≤ 2 * (nVar * (k + 1))) by (apply Nat.mul_le_mono_r; lia).
  assert (H3 : (i + 1) * (3 * nVar * (k + 1)) ≤ nCells * (3 * nVar * (k + 1)))
    by (apply Nat.mul_le_mono_r; lia).
  lia.
Qed.

Lemma lambda_in_state v j :
  v < nVar → j ≤ nCells → lambda_offset v j < state_length.
Proof.
  intros Hv Hj. unfold lambda_offset, state_length.
  assert (H1 : (v + 1) * (nCells + 1) ≤ nVar * (nCells + 1)) by (apply Nat.mul_le_mono_r; lia).
  lia.
Qed.

(** The windows that the fresh fields of an entry point are bound to. *)
Lemma fresh_views (lam0 : View) :
  fits32 → 0 < nVar →
  ∃ sg qq uu,
    mapDGtoSundials [] [] [] lam0 = (sg, qq, uu, (lambda_offset 0 0, nVar * (nCells + 1)))
    ∧ mapDGtoSundials_u [] = uu
    ∧ ∀ v i, v < nVar → i < nCells →
        coeffs sg v i = (block_offset 0 v i, k + 1)
        ∧ coeffs qq v i = (block_offset 1 v i, k + 1)
        ∧ coeffs uu v i = (block_offset 2 v i, k + 1).
Proof.
  intros Hf Hn. rewrite mapDGtoSundials_eq, mapDGtoSundials_u_eq. simpl.
  assert (Hn0 : (nVar =? 0) = false) by (apply Nat.eqb_neq; lia).
  rewrite Hn0, lamView_eq by done.
  eexists _, _, _. split; [|split; [reflexivity|]].
  - unfold lambda_offset. do 2 f_equal. lia.
  - intros v i Hv Hi. rewrite sig_view, q_view, u_view by done.
    unfold block_offset. repeat split; f_equal; lia.
Qed.

End WindowLemmas.

Section TraceResidual.
Context {S : Scalar} {SR : ScalarRing S} {P : Problem}.
Add Ring scalar_ring_TraceResidual : scalar_ring.

Lemma interior_not_end v j var :
  0 < j < nCells →
  var * (nCells + 1) ≠ v * (nCells + 1) + j
  ∧ var * (nCells + 1) + nCells ≠ v * (nCells + 1) + j.
Proof.
  intros Hj. split; intros H.
  - destruct (decide (var ≤ v)); nia.
  - destruct (decide (var ≤ v)); [destruct (decide (var = v)); nia | nia].
Qed.

(** The boundary update writes the Neumann data at the two ends of the
    domain only. *)
Lemma L_loop_interior t (L : Vec) v j :
  grid_ok → 0 < j < nCells →
  vget L (v * (nCells + 1) + j) = 0%S →
  vget (L_loop t L (seq 0 nCells)) (v * (nCells + 1) + j) = 0%S.
Proof.
  intros Hg Hj H0. unfold L_loop.
  apply (foldl_inv (λ L : Vec, vget L (v * (nCells + 1) + j) = 0%S)); [done|].
  intros L' i Hi HL'. apply elem_of_seq0 in Hi. destruct (Hg i Hi) as [Hlo Hup].
  unfold fill_L.
  apply (foldl_inv (λ L : Vec, vget L (v * (nCells + 1) + j) = 0%S)); [done|].
  intros L'' var _ HL''.
  destruct (interior_not_end v j var Hj) as [Hne1 Hne2].
  assert (Hstep : ∀ (M : Vec) idx x, idx ≠ v * (nCells + 1) + j →
            vget M (v * (nCells + 1) + j) = 0%S →
            vget (vadd_at M idx x) (v * (nCells + 1) + j) = 0%S).
  { intros M idx x Hne HM. rewrite vget_vadd_at, decide_False by lia. done. }
  unfold lowerNeumann, upperNeumann.
  destruct (atLowerBound (cell i)) eqn:El, (atUpperBound (cell i)) eqn:Eu; simpl;
    destruct (isLBoundDirichlet BCs), (isUBoundDirichlet BCs); simpl; try done;
    repeat (apply Hstep; [try (rewrite (Hlo eq_refl)); try lia|]); try done.
  all: specialize (Hup eq_refl); lia.
Qed.

Lemma update_L_interior_zero t s s' :
  grid_ok → updateBoundaryConditions t s = Some s' → L_interior_zero s'.
Proof.
  intros Hg. rewrite updateBoundaryConditions_eq.
  destruct (RF_loop t (RF_cellwise s) (seq 0 nCells)) as [RF|]; simpl; [|discriminate].
  intros [= <-] v j Hv Hj. simpl. apply L_loop_interior; [done | done |].
  apply vget_vsetZero.
Qed.

Lemma CsGuL_assemble_ext s sigc uc sigc' uc' :
  (∀ v i, v < nVar → i < nCells → sigc v i = sigc' v i ∧ uc v i = uc' v i) →
  CsGuL_assemble s sigc uc = CsGuL_assemble s sigc' uc'.
Proof.
  intros H. unfold CsGuL_assemble. apply foldl_ext_elem. intros acc i Hi.
  apply foldl_ext_elem. intros acc' v Hv.
  apply elem_of_seq0 in Hi, Hv. destruct (H v i Hv Hi) as [-> ->]. reflexivity.
Qed.

(** The trace block of the vector that [residual_vector] computes. *)
Lemma residual_vector_trace Y dydt resval s log v j :
  fits32 → length resval = state_length → v < nVar → j ≤ nCells →
  trace_of (residual_vector Y dydt resval s log).1 v j
  = (- trace_of Y v j
     + vget (FullPivLU_solve (H_global s) (CsGuL_assemble s (coeffs_of Y 0) (coeffs_of Y 2)))
            (v * (nCells + 1) + j))%S.
Proof.
  intros Hf Hlen Hv Hj. unfold residual_vector, trace_of.
  destruct (fresh_views (0, nVar * (nCells + 1)) Hf ltac:(lia))
    as (sg & qq & uu & -> & -> & Hviews).
  set (lam := read _ (0, nVar * (nCells + 1))).
  set (rv0 := write (vsetZero resval) _ _).
  assert (Hin : lambda_offset 0 0 ≤ lambda_offset v j
                < lambda_offset 0 0 + nVar * (nCells + 1)).
  { pose proof (lambda_in_state v j Hv Hj) as Hs. unfold lambda_offset, state_length in *.
    lia. }
  assert (H0 : vget rv0 (lambda_offset v j)
               = (- vget Y (lambda_offset v j)
                  + vget (FullPivLU_solve (H_global s)
                            (CsGuL_assemble s (coeffs_of Y 0) (coeffs_of Y 2)))
                         (v * (nCells + 1) + j))%S).
  { unfold rv0. rewrite vget_write_in; simpl; [|done|].
    2:{ rewrite length_vsetZero, Hlen. apply lambda_in_state; done. }
    assert (Hidx : lambda_offset v j - lambda_offset 0 0 = v * (nCells + 1) + j)
      by (unfold lambda_offset; lia).
    rewrite Hidx.
    assert (Hm : v * (nCells + 1) + j < nVar * (nCells + 1)).
    { assert ((v + 1) * (nCells + 1) ≤ nVar * (nCells + 1))
        by (apply Nat.mul_le_mono_r; lia). lia. }
    rewrite vget_vadd, vget_vopp;
      [| unfold read; simpl; rewrite length_vblock; done
       | rewrite length_vopp; unfold read; simpl; rewrite length_vblock; done
       | unfold lam, read; simpl; rewrite length_vblock; done ].
    unfold read at 1. simpl. rewrite vget_vblock by done.
    unfold lam, read. simpl. rewrite vget_vblock by done. simpl.
    replace (lambda_offset 0 0 + (v * (nCells + 1) + j)) with (lambda_offset v j)
      by (unfold lambda_offset; lia).
    do 3 f_equal. apply CsGuL_assemble_ext. intros v' i' Hv' Hi'.
    destruct (Hviews v' i' Hv' Hi') as (-> & _ & ->). done. }
  clearbody rv0. clear lam.
  apply (foldl_inv (λ st : Vec * list LogItem,
           vget st.1 (lambda_offset v j)
           = (- vget Y (lambda_offset v j)
              + vget (FullPivLU_solve (H_global s)
                        (CsGuL_assemble s (coeffs_of Y 0) (coeffs_of Y 2)))
                     (v * (nCells + 1) + j))%S)); [exact H0|].
  intros [rv lg] i Hi Hrv. apply elem_of_seq0 in Hi.
  apply (foldl_inv (λ st : Vec * list LogItem,
           vget st.1 (lambda_offset v j)
           = (- vget Y (lambda_offset v j)
              + vget (FullPivLU_solve (H_global s)
                        (CsGuL_assemble s (coeffs_of Y 0) (coeffs_of Y 2)))
                     (v * (nCells + 1) + j))%S)); [exact Hrv|].
  intros [rv' lg'] var Hvar Hrv'. apply elem_of_seq0 in Hvar. simpl in Hrv' |- *.
  destruct (Hviews var i Hvar Hi) as (E1 & E2 & E3). rewrite E1, E2, E3.
  pose proof (block_below_lambda 0 var i ltac:(lia) Hvar Hi) as B0.
  pose proof (block_below_lambda 1 var i ltac:(lia) Hvar Hi) as B1.
  pose proof (block_below_lambda 2 var i ltac:(lia) Hvar Hi) as B2.
  rewrite !vget_write_out by (simpl; lia). exact Hrv'.
Qed.

End TraceResidual.


(** ** Sums over cells and variables, face by face *)

Section FaceSums.
Context {S : Scalar} {SR : ScalarRing S} {P : Problem}.
Add Ring scalar_ring_FaceSums : scalar_ring.

(** Of all the windows of two entries, one per cell and variable, only
    those of the two cells next to a face contain it. *)
Lemma face_sum (T : nat → nat → nat → carrier) v j :
  v < nVar → j ≤ nCells →
  ssum nCells (λ i, ssum nVar (λ var,
    if decide (var * (nCells + 1) + i ≤ v * (nCells + 1) + j < var * (nCells + 1) + i + 2)
    then T i var (v * (nCells + 1) + j - (var * (nCells + 1) + i)) else 0%S))
  = sadd (if decide (j < nCells) then T j v 0 else 0%S)
         (if decide (0 < j) then T (j - 1) v 1 else 0%S).
Proof.
  intros Hv Hj.
  rewrite (ssum_ext nCells _
             (λ i, sadd (if decide (i = j) then T i v 0 else 0%S)
                        (if decide (i = j - 1)
                         then (if decide (0 < j) then T i v 1 else 0%S)
                         else 0%S))).
  - rewrite ssum_add, !ssum_at.
    destruct (decide (j < nCells)), (decide (0 < j)), (decide (j - 1 < nCells));
      try lia; ring.
  - intros i Hi.
    rewrite (ssum_ext nVar _
               (λ var, if decide (var = v)
                       then (if decide (i = j) then T i var 0
                             else if decide (i + 1 = j) then T i var 1 else 0%S)
                       else 0%S)).
    + rewrite ssum_at, decide_True by done.
      destruct (decide (i = j)) as [->|Hne].
      * destruct (decide (j = j - 1)); [rewrite decide_False by lia|]; ring.
      * destruct (decide (i + 1 = j)).
        -- rewrite decide_True, decide_True by lia. ring.
        -- destruct (decide (i = j - 1)); [rewrite decide_False by lia|]; ring.
    + intros var Hvar.
      pose proof (face_in_window v j var i Hv Hj Hvar Hi) as Hw.
      destruct (decide (var * (nCells + 1) + i ≤ v * (nCells + 1) + j
                        < var * (nCells + 1) + i + 2)) as [Hin|Hout].
      * apply Hw in Hin as [-> Hij]. rewrite decide_True by done.
        destruct (decide (i = j)) as [->|Hne].
        -- f_equal. lia.
        -- rewrite decide_True by lia. f_equal. lia.
      * destruct (decide (var = v)) as [->|]; [|reflexivity].
        destruct (decide (i = j)); [exfalso; apply Hout, Hw; auto|].
        destruct (decide (i + 1 = j)); [exfalso; apply Hout, Hw; auto|]. reflexivity.
Qed.

(** The same for windows of two rows and two columns. *)
Lemma face_sum2 (T : nat → nat → nat → nat → carrier) v j v' j' :
  v < nVar → j ≤ nCells → v' < nVar → j' ≤ nCells →
  ssum nCells (λ i, ssum nVar (λ var,
    if decide ((var * (nCells + 1) + i ≤ v * (nCells + 1) + j < var * (nCells + 1) + i + 2)
               ∧ (var * (nCells + 1) + i ≤ v' * (nCells + 1) + j'
                  < var * (nCells + 1) + i + 2))
    then T i var (v * (nCells + 1) + j - (var * (nCells + 1) + i))
                 (v' * (nCells + 1) + j' - (var * (nCells + 1) + i))
    else 0%S))
  = if decide (v = v')
    then sadd (if decide (j < nCells ∧ j ≤ j' ≤ j + 1) then T j v 0 (j' - j) else 0%S)
              (if decide (0 < j ∧ j - 1 ≤ j' ≤ j) then T (j - 1) v 1 (j' - (j - 1)) else 0%S)
    else 0%S.
Proof.
  intros Hv Hj Hv' Hj'.
  pose proof (face_sum
    (λ i var a,
       if decide (var * (nCells + 1) + i ≤ v' * (nCells + 1) + j' < var * (nCells + 1) + i + 2)
       then T i var a (v' * (nCells + 1) + j' - (var * (nCells + 1) + i)) else 0%S)
    v j Hv Hj) as Hfs.
  cbv beta in Hfs.
  rewrite (ssum_ext nCells _
    (λ i, ssum nVar
       (λ var,
          if decide (var * (nCells + 1) + i ≤ v * (nCells + 1) + j
                     < var * (nCells + 1) + i + 2)
          then (if decide (var * (nCells + 1) + i ≤ v' * (nCells + 1) + j'
                           < var * (nCells + 1) + i + 2)
                then T i var (v * (nCells + 1) + j - (var * (nCells + 1) + i))
                             (v' * (nCells + 1) + j' - (var * (nCells + 1) + i))
                else 0%S)
          else 0%S))).
  - rewrite Hfs. clear Hfs.
    destruct (decide (v = v')) as [<-|Hne].
    + f_equal.
      * destruct (decide (j < nCells)) as [Hlt|Hge].
        -- destruct (decide (v * (nCells + 1) + j ≤ v * (nCells + 1) + j'
                             < v * (nCells + 1) + j + 2)).
           ++ rewrite decide_True by lia. f_equal. lia.
           ++ rewrite decide_False by lia. reflexivity.
        -- rewrite decide_False by lia. reflexivity.
      * destruct (decide (0 < j)) as [Hpos|H0].
        -- destruct (decide (v * (nCells + 1) + (j - 1) ≤ v * (nCells + 1) + j'
                             < v * (nCells + 1) + (j - 1) + 2)).
           ++ rewrite decide_True by lia. f_equal. lia.
           ++ rewrite decide_False by lia. reflexivity.
        -- rewrite decide_False by lia. reflexivity.
    + assert (Hno : ∀ i, i < nCells →
                ¬ (v * (nCells + 1) + i ≤ v' * (nCells + 1) + j' < v * (nCells + 1) + i + 2)).
      { intros i Hi Hin. apply (face_in_window v' j' v i Hv' Hj' Hv Hi) in Hin as [? _].
        done. }
      destruct (decide (j < nCells)), (decide (0 < j));
        rewrite ?decide_False by (apply Hno; lia); ring.
  - intros i Hi. apply ssum_ext. intros var Hvar.
    destruct (decide (var * (nCells + 1) + i ≤ v * (nCells + 1) + j
                      < var * (nCells + 1) + i + 2)),
             (decide (var * (nCells + 1) + i ≤ v' * (nCells + 1) + j'
                      < var * (nCells + 1) + i + 2)).
    + rewrite decide_True by done. reflexivity.
    + rewrite decide_False by tauto. reflexivity.
    + rewrite decide_False by tauto. reflexivity.
    + rewrite decide_False by tauto. reflexivity.
Qed.

(** Loops that accumulate into a matrix. *)
Lemma additive2_foldl n m (U : nat → Mat → Mat) (c : nat → nat → nat → carrier) l :
  (∀ x, x < l → additive2 n m (U x) (c x)) →
  additive2 n m (λ M, foldl (λ M x, U x M) M (seq 0 l)) (λ r c', ssum l (λ x, c x r c')).
Proof.
  intros H. induction l as [|l IH]; intros M HM.
  - simpl. split; [done|]. intros r c' _ _. unfold ssum. simpl. ring.
  - rewrite foldl_seq_S.
    destruct (IH (λ x Hx, H x (Nat.lt_lt_succ_r _ _ Hx)) M HM) as [Hd Hv].
    destruct (H l (Nat.lt_succ_diag_r l) (foldl (λ M x, U x M) M (seq 0 l)) Hd) as [Hd' Hv'].
    split; [done|]. intros r c' Hr Hc. rewrite Hv', Hv, ssum_S by done. ring.
Qed.

Lemma additive2_add_block n m r0 c0 h w (B : Mat) :
  additive2 n m (λ M, add_block M r0 c0 h w B)
    (λ r c, if decide ((r0 ≤ r < r0 + h) ∧ (c0 ≤ c < c0 + w))
            then mget B (r - r0) (c - c0) else 0%S).
Proof.
  intros M HM. split; [apply mdims_add_block, HM|].
  intros r c Hr Hc. rewrite (mget_add_block M n m) by done.
  destruct (decide ((r0 ≤ r < r0 + h) ∧ (c0 ≤ c < c0 + w))); [reflexivity | ring].
Qed.

End FaceSums.

(** ** The statically condensed solve *)

Lemma foldl_triple {A B C X : Type} (fa : A → X → A) (fb : B → X → B) (fc : C → X → C)
    (l : list X) (a : A) (b : B) (c : C) :
  foldl (λ '(a, b, c) x, (fa a x, fb b x, fc c x)) (a, b, c) l
  = (foldl fa a l, foldl fb b l, foldl fc c l).
Proof.
  revert a b c. induction l as [|x l IH]; intros a b c; simpl; [reflexivity | apply IH].
Qed.

Lemma foldl_pair_fst {A B X : Type} (fa : A → X → A) (fb : A → B → X → B)
    (l : list X) (a : A) (b : B) :
  (foldl (λ '(a, b) x, (fa a x, fb a b x)) (a, b) l).1 = foldl fa a l.
Proof.
  revert a b. induction l as [|x l IH]; intros a b; simpl; [reflexivity | apply IH].
Qed.

(** A vector of slots filled one after the other. *)
Lemma lookup_foldl_insert {A : Type} (F : nat → A) (n : nat) (l : list A) (i : nat) :
  i < n → i < length l →
  foldl (λ a i, <[i := F i]> a) l (seq 0 n) !! i = Some (F i).
Proof.
  intros Hi Hl. induction n as [|n IH]; [lia|].
  rewrite foldl_seq_S.
  assert (Hlen : ∀ m, length (foldl (λ a i, <[i := F i]> a) l (seq 0 m)) = length l).
  { intros m. induction m as [|m IHm]; [done|]. rewrite foldl_seq_S, length_insert. done. }
  destruct (decide (i = n)) as [->|Hne].
  - apply list_lookup_insert_eq. rewrite Hlen. done.
  - rewrite list_lookup_insert_ne by done. apply IH. lia.
Qed.

Section CondensedSolve.
Context {S : Scalar} {SR : ScalarRing S} {P : Problem}.
Add Ring scalar_ring_CondensedSolve : scalar_ring.

Lemma updateMForJacSolve_fst s a Y delY delQ delU log :
  (updateMForJacSolve s a Y delY delQ delU log).1
  = (λ i, MX_of s a (DG_sum (DGread Y (q s)) (DGread delY delQ))
                    (DG_sum (DGread Y (u s)) (DGread delY delU)) i) <$> seq 0 nCells.
Proof.
  unfold updateMForJacSolve. cbv zeta.
  rewrite (foldl_pair_fst
             (λ MXsolvers i,
                MXsolvers ++ [MX_of s a (DG_sum (DGread Y (q s)) (DGread delY delQ))
                                       (DG_sum (DGread Y (u s)) (DGread delY delU)) i])).
  induction nCells as [|n IH]; [reflexivity|].
  rewrite foldl_seq_S, IH, seq_S, fmap_app. reflexivity.
Qed.

End CondensedSolve.

Section CondensedSolveUnfold.
Context {S : Scalar} {SR : ScalarRing S} {P : Problem}.

Lemma views_block_offset v i :
  fits32 → v < nVar → i < nCells →
  coeffs (cellSigCoeffs <$> seq 0 nVar) v i = (block_offset 0 v i, k + 1)
  ∧ coeffs (cellQCoeffs <$> seq 0 nVar) v i = (block_offset 1 v i, k + 1)
  ∧ coeffs (cellUCoeffs <$> seq 0 nVar) v i = (block_offset 2 v i, k + 1).
Proof.
  intros Hf Hv Hi. rewrite sig_view, q_view, u_view by done.
  unfold block_offset. repeat split; f_equal; lia.
Qed.

(** [solveJacEq] is its three loops, run on the matrices that
    [updateMForJacSolve] builds. *)
Lemma solveJacEq_unfold g delY Y s w :
  fits32 → 0 < nVar →
  let M := jac_matrix s Y delY in
  let K := K_loop s M (msetZero (K_global s)) in
  let F := F_loop s M g (vblock g (lambda_offset 0 0) (nVar * (nCells + 1))) in
  K_global (jac_sys (solveJacEq g delY Y s w)) = K
  ∧ delY_out (solveJacEq g delY Y s w)
    = delY_loop s M g (write (vsetZero delY) (lambda_offset 0 0, nVar * (nCells + 1))
                             (FullPivLU_solve K F)).
Proof.
  intros Hf Hn M K F. unfold solveJacEq.
  rewrite mapDGtoSundials_eq, mapDGtoSundials_cellwise_eq.
  assert (Hn0 : (nVar =? 0) = false) by (apply Nat.eqb_neq; lia).
  rewrite Hn0, lamView_eq by done. cbn [app].
  cbv beta iota zeta.
  pose proof (updateMForJacSolve_fst s (alpha s) Y (vsetZero delY)
                (cellQCoeffs <$> seq 0 nVar) (cellUCoeffs <$> seq 0 nVar) (console w)) as HfM.
  destruct (updateMForJacSolve s (alpha s) Y (vsetZero delY)
                (cellQCoeffs <$> seq 0 nVar) (cellUCoeffs <$> seq 0 nVar) (console w)) as [fM lg].
  simpl in HfM. fold (jac_newQ s Y delY) (jac_newU s Y delY) in HfM.
  fold (jac_matrix s Y delY) in HfM. fold M in HfM.
  rewrite foldl_triple.
  assert (HM : ∀ i, i < nCells → nthM fM i = M i).
  { intros i Hi. subst fM. unfold nthM. rewrite list_lookup_fmap, lookup_seq_lt by done.
    reflexivity. }
  assert (Hg : ∀ i, i < nCells →
            read g (default (0, 0)
                      (((λ i0 : nat, (u32 (i0 * 3 * nVar * (k + 1)), u32 (nVar * 3 * (k + 1))))
                          <$> seq 0 nCells) !! i))
            = vblock g (block_offset 0 0 i) (3 * nVar * (k + 1))).
  { intros i Hi. rewrite list_lookup_fmap, lookup_seq_lt by done. simpl.
    unfold fits32, state_length in Hf. rewrite !u32_small by nia.
    unfold read, block_offset. simpl. f_equal; lia. }
  match goal with |- context [nthV ?l _] => set (SQf := l) end.
  match goal with |- context [mat_vec (nthM ?l _) (delLambdaCell_of _ _)] => set (SQ0 := l) end.
  assert (HSf : ∀ i, i < nCells → nthV SQf i = Sigma_f M g i).
  { intros i Hi. unfold nthV, SQf.
    rewrite lookup_foldl_insert by (rewrite ?length_replicate; done).
    simpl. unfold Sigma_f. rewrite HM, Hg by done. reflexivity. }
  assert (HS0 : ∀ i, i < nCells → nthM SQ0 i = Sigma_0 s M i).
  { intros i Hi. unfold nthM at 1. unfold SQ0.
    rewrite lookup_foldl_insert by (rewrite ?length_replicate; done).
    simpl. unfold Sigma_0. rewrite HM by done. reflexivity. }
  clearbody SQf SQ0.
  match goal with |- context [FullPivLU_solve ?a ?b] =>
    assert (HK : a = K); [|assert (HF : b = F)] end.
  { unfold K, K_loop. apply foldl_ext_elem. intros K1 i Hi. apply elem_of_seq0 in Hi.
    apply foldl_ext_elem. intros K2 var Hvar. unfold K_cell_of, Sigma_0.
    rewrite HM by done. reflexivity. }
  { unfold F, F_loop. replace (lambda_offset 0 0) with (3 * nVar * (k + 1) * nCells)
      by (unfold lambda_offset; lia).
    apply foldl_ext_elem. intros F1 i Hi. apply elem_of_seq0 in Hi.
    apply foldl_ext_elem. intros F2 var Hvar. rewrite HSf by done. reflexivity. }
  rewrite HF, !HK. clear HF HK.
  split; [reflexivity|].
  cbn [delY_out]. unfold delY_loop.
  replace (3 * nVar * (k + 1) * nCells) with (lambda_offset 0 0)
    by (unfold lambda_offset; lia).
  apply foldl_ext_elem. intros d1 i Hi. apply elem_of_seq0 in Hi.
  apply foldl_ext_elem. intros d2 var Hvar. apply elem_of_seq0 in Hvar.
  destruct (views_block_offset var i Hf Hvar Hi) as (-> & -> & ->).
  unfold delSQU_of. rewrite HSf, HS0 by done. reflexivity.
Qed.

End CondensedSolveUnfold.

Section CondensedSolveLoops.
Context {S : Scalar} {SR : ScalarRing S} {P : Problem}.
Add Ring scalar_ring_CondensedSolveLoops : scalar_ring.

(** The loop over cells and variables sums the cell Schur complements
    into the block-tridiagonal pattern. *)
Lemma K_loop_spec s M (K0 : Mat) :
  mdims K0 (nVar * (nCells + 1)) (nVar * (nCells + 1)) →
  K_loop s M (msetZero K0) = assemble_tridiag (K_cell_of s M).
Proof.
  intros HK0. set (m := nVar * (nCells + 1)) in *.
  pose proof (additive2_foldl m m
    (λ i K, foldl (λ K var,
       add_block K (var * (nCells + 1) + i) (var * (nCells + 1) + i) 2 2
                 (block (K_cell_of s M i) (var * 2) (var * 2) 2 2)) K (seq 0 nVar))
    (λ i r c, ssum nVar (λ var,
       if decide ((var * (nCells + 1) + i ≤ r < var * (nCells + 1) + i + 2)
                  ∧ (var * (nCells + 1) + i ≤ c < var * (nCells + 1) + i + 2))
       then mget (block (K_cell_of s M i) (var * 2) (var * 2) 2 2)
                 (r - (var * (nCells + 1) + i)) (c - (var * (nCells + 1) + i))
       else 0%S))
    nCells) as Hadd.
  destruct (Hadd (λ i _, additive2_foldl m m
              (λ var K, add_block K (var * (nCells + 1) + i) (var * (nCells + 1) + i) 2 2
                                  (block (K_cell_of s M i) (var * 2) (var * 2) 2 2))
              _ nVar (λ var _, additive2_add_block m m _ _ 2 2 _))
              (msetZero K0) (mdims_msetZero _ _ _ HK0)) as [Hd Hget].
  apply (mat_ext _ _ m m); [exact Hd | apply mdims_mbuild |].
  intros r c Hr Hc. unfold K_loop. rewrite Hget by done.
  unfold assemble_tridiag. fold m. rewrite mget_mbuild by done. rewrite mget_msetZero.
  destruct (face_cases r Hr) as (v & j & Hv & Hj & ->).
  destruct (face_cases c Hc) as (v' & j' & Hv' & Hj' & ->).
  cbv zeta. rewrite !face_div, !face_mod by done.
  rewrite (face_sum2 (λ i var a b, mget (block (K_cell_of s M i) (var * 2) (var * 2) 2 2) a b)
             v j v' j' Hv Hj Hv' Hj').
  destruct (decide (v = v')) as [<-|Hne]; [|ring].
  destruct (decide (j < nCells ∧ j ≤ j' ≤ j + 1)) as [H1|H1],
           (decide (0 < j ∧ j - 1 ≤ j' ≤ j)) as [H2|H2];
    rewrite ?mget_block by lia;
    replace (v * 2 + 0) with (2 * v) by lia;
    replace (v * 2 + 1) with (2 * v + 1) by lia;
    replace (v * 2 + (j' - j)) with (2 * v + (j' - j)) by lia;
    replace (v * 2 + (j' - (j - 1))) with (2 * v + (j' - (j - 1))) by lia;
    ring.
Qed.

(** The loop over cells and variables subtracts the particular parts,
    face by face. *)
Lemma F_loop_spec s M g :
  F_loop s M g (vblock g (lambda_offset 0 0) (nVar * (nCells + 1))) = F_global s M g.
Proof.
  set (m := nVar * (nCells + 1)).
  pose proof (additive_foldl
    (λ i F, foldl (λ F var,
       sub_vblock F (var * (nCells + 1) + i) 2
         (vblock (mat_vec (nthM (CG_cellwise s) i) (Sigma_f M g i)) (var * 2) 2))
       F (seq 0 nVar))
    (λ i idx, ssum nVar (λ var,
       if decide (var * (nCells + 1) + i ≤ idx < var * (nCells + 1) + i + 2)
       then (- vget (vblock (mat_vec (nthM (CG_cellwise s) i) (Sigma_f M g i)) (var * 2) 2)
                    (idx - (var * (nCells + 1) + i)))%S
       else 0%S))
    nCells) as Hadd.
  destruct (Hadd (λ i _, additive_foldl
              (λ var F, sub_vblock F (var * (nCells + 1) + i) 2
                 (vblock (mat_vec (nthM (CG_cellwise s) i) (Sigma_f M g i)) (var * 2) 2))
              _ nVar (λ var _, additive_sub_vblock _ 2 _))
              (vblock g (lambda_offset 0 0) m)) as [Hlen Hget].
  apply vec_ext.
  { unfold F_loop. rewrite Hlen. unfold F_global. rewrite length_vblock, length_vbuild. done. }
  unfold F_loop. rewrite Hlen, length_vblock. intros idx Hidx.
  rewrite Hget by (rewrite length_vblock; done).
  unfold F_global. fold m. rewrite vget_vbuild, vget_vblock by done.
  destruct (face_cases idx Hidx) as (v & j & Hv & Hj & ->).
  cbv zeta. rewrite face_div, face_mod by done.
  rewrite (face_sum (λ i var e,
             (- vget (vblock (mat_vec (nthM (CG_cellwise s) i) (Sigma_f M g i)) (var * 2) 2) e)%S)
             v j Hv Hj).
  destruct (decide (j < nCells)), (decide (0 < j));
    rewrite ?vget_vblock by lia;
    replace (v * 2 + 0) with (2 * v) by lia;
    replace (v * 2 + 1) with (2 * v + 1) by lia;
    ring.
Qed.

End CondensedSolveLoops.

(** An entry that one turn of a loop writes and the other turns leave
    alone. *)
Lemma foldl_written {A V : Type} (Pinv : A → Prop) (val : A → V) (f : A → nat → A)
    (n x0 : nat) (X : V) (a0 : A) :
  x0 < n → Pinv a0 →
  (∀ a x, x < n → Pinv a → Pinv (f a x)) →
  (∀ a, Pinv a → val (f a x0) = X) →
  (∀ a x, x < n → x ≠ x0 → Pinv a → val (f a x) = val a) →
  val (foldl f a0 (seq 0 n)) = X.
Proof.
  intros Hx0 H0 Hinv Hw Ho. induction n as [|n IH]; [lia|].
  rewrite foldl_seq_S.
  assert (HP : Pinv (foldl f a0 (seq 0 n))).
  { apply foldl_inv; [done|]. intros a x Hx. apply elem_of_seq0 in Hx. apply Hinv. lia. }
  destruct (decide (x0 = n)) as [->|Hne].
  - apply Hw, HP.
  - rewrite Ho by (done || lia). apply IH; [lia | |].
    + intros a x Hx. apply Hinv. lia.
    + intros a x Hx. apply Ho. lia.
Qed.

Section BlockWindows.
Context {S : Scalar} {P : Problem}.

(** The windows of distinct blocks do not overlap. *)
Lemma block_offset_flat b v i :
  block_offset b v i = ((i * 3 + b) * nVar + v) * (k + 1).
Proof. unfold block_offset. lia. Qed.

Lemma block_disjoint b v i b' v' i' e :
  b ≤ 2 → b' ≤ 2 → v < nVar → v' < nVar → e ≤ k →
  (b, v, i) ≠ (b', v', i') →
  ¬ (block_offset b' v' i' ≤ block_offset b v i + e < block_offset b' v' i' + (k + 1)).
Proof.
  intros Hb Hb' Hv Hv' He Hne. rewrite !block_offset_flat.
  set (c := (i * 3 + b) * nVar + v). set (c' := (i' * 3 + b') * nVar + v').
  assert (Hc : c ≠ c').
  { intros Hcc. apply Hne. unfold c, c' in Hcc.
    assert (H1 : i * 3 + b = i' * 3 + b').
    { destruct (decide (i * 3 + b = i' * 3 + b')) as [|Hd]; [done|]. exfalso.
      destruct (decide (i * 3 + b < i' * 3 + b')); nia. }
    assert (v = v') by nia. assert (i = i') by lia. assert (b = b') by lia.
    congruence. }
  intros [H1 H2]. destruct (decide (c < c')); nia.
Qed.

End BlockWindows.

Section DelYLoop.
Context {S : Scalar} {SR : ScalarRing S} {P : Problem}.

Lemma vbuild_ext n (f g : nat → carrier) :
  (∀ i, i < n → f i = g i) → vbuild n f = vbuild n g.
Proof.
  intros H. apply vec_ext; [rewrite !length_vbuild; done|].
  rewrite length_vbuild. intros i Hi. rewrite !vget_vbuild by done. apply H, Hi.
Qed.

Lemma lam_intact_refl d : lam_intact d d.
Proof. split; done. Qed.

Lemma delSQU_of_intact s M g d0 d i :
  lam_intact d0 d → delSQU_of s M g d i = delSQU_of s M g d0 i.
Proof.
  intros [_ H]. unfold delSQU_of. do 3 f_equal. unfold vblock. apply vbuild_ext.
  intros x _. apply H. lia.
Qed.

Lemma length_write_SQU dS i d var : length (write_SQU dS i d var) = length d.
Proof. unfold write_SQU. cbv zeta. rewrite !length_write. done. Qed.

Lemma write_SQU_intact dS d0 d i var :
  var < nVar → i < nCells → lam_intact d0 d → lam_intact d0 (write_SQU dS i d var).
Proof.
  intros Hvar Hi [Hl H]. split; [rewrite length_write_SQU; done|].
  intros idx Hidx. unfold write_SQU. cbv zeta.
  pose proof (block_below_lambda 0 var i ltac:(lia) Hvar Hi) as B0.
  pose proof (block_below_lambda 1 var i ltac:(lia) Hvar Hi) as B1.
  pose proof (block_below_lambda 2 var i ltac:(lia) Hvar Hi) as B2.
  rewrite !vget_write_out by (simpl; lia). apply H, Hidx.
Qed.

Lemma write_SQU_other dS d i var b v i0 e :
  b ≤ 2 → v < nVar → var < nVar → e ≤ k → (var, i) ≠ (v, i0) →
  vget (write_SQU dS i d var) (block_offset b v i0 + e) = vget d (block_offset b v i0 + e).
Proof.
  intros Hb Hv Hvar He Hne. unfold write_SQU. cbv zeta.
  rewrite !vget_write_out; [done | | |]; simpl;
    apply block_disjoint; try done; try lia; congruence.
Qed.

Lemma write_SQU_here dS d i v b e :
  b ≤ 2 → v < nVar → e ≤ k → block_offset b v i + e < length d →
  vget (write_SQU dS i d v) (block_offset b v i + e)
  = vget dS (b * (nVar * (k + 1)) + v * (k + 1) + e).
Proof.
  intros Hb Hv He Hl. unfold write_SQU. cbv zeta.
  assert (D : ∀ b', b' ≤ 2 → b' ≠ b →
            ¬ (block_offset b' v i ≤ block_offset b v i + e < block_offset b' v i + (k + 1))).
  { intros b' Hb' Hne. apply block_disjoint; try done. congruence. }
  destruct b as [|[|[|]]]; [| | |lia].
  - rewrite !vget_write_out by (simpl; apply D; lia).
    rewrite vget_write_in by (rewrite ?length_write; simpl; lia). simpl.
    rewrite vget_vblock by lia. f_equal. lia.
  - rewrite vget_write_out by (simpl; apply D; lia).
    rewrite vget_write_in by (rewrite ?length_write; simpl; lia). simpl.
    rewrite vget_vblock by lia. f_equal. lia.
  - rewrite vget_write_in by (rewrite ?length_write; simpl; lia). simpl.
    rewrite vget_vblock by lia. f_equal. lia.
Qed.

Lemma delY_loop_fold s M g d0 :
  delY_loop s M g d0
  = foldl (λ d i, foldl (write_SQU (delSQU_of s M g d i) i) d (seq 0 nVar)) d0 (seq 0 nCells).
Proof. reflexivity. Qed.

Lemma delY_loop_intact s M g d0 : lam_intact d0 (delY_loop s M g d0).
Proof.
  rewrite delY_loop_fold. apply (foldl_inv (lam_intact d0)); [apply lam_intact_refl|].
  intros d i Hi Hd. apply elem_of_seq0 in Hi.
  apply (foldl_inv (lam_intact d0)); [done|].
  intros d' var Hvar Hd'. apply elem_of_seq0 in Hvar. apply write_SQU_intact; done.
Qed.

(** The cell blocks of the increment. *)
Lemma delY_loop_block s M g d0 b v i e :
  b ≤ 2 → v < nVar → i < nCells → e ≤ k → length d0 = state_length →
  vget (delY_loop s M g d0) (block_offset b v i + e)
  = vget (delSQU_of s M g d0 i) (b * (nVar * (k + 1)) + v * (k + 1) + e).
Proof.
  intros Hb Hv Hi He Hlen. rewrite delY_loop_fold.
  assert (Hidx : block_offset b v i + e < state_length).
  { pose proof (block_below_lambda b v i Hb Hv Hi). unfold lambda_offset, state_length in *.
    lia. }
  apply (foldl_written (lam_intact d0) (λ d, vget d (block_offset b v i + e))
           _ nCells i); [done | apply lam_intact_refl | | |].
  - intros d x Hx Hd. apply (foldl_inv (lam_intact d0)); [done|].
    intros d' var Hvar Hd'. apply elem_of_seq0 in Hvar. apply write_SQU_intact; done.
  - intros d Hd. rewrite (delSQU_of_intact s M g d0 d i Hd).
    apply (foldl_written (λ d', length d' = length d0)
             (λ d', vget d' (block_offset b v i + e)) _ nVar v); [done | apply Hd | | |].
    + intros d' var _ Hd'. rewrite length_write_SQU. done.
    + intros d' Hd'. apply write_SQU_here; try done. lia.
    + intros d' var Hvar Hne Hd'. apply write_SQU_other; try done. congruence.
  - intros d x Hx Hne Hd.
    apply (foldl_inv (λ d', vget d' (block_offset b v i + e) = vget d (block_offset b v i + e)));
      [done|].
    intros d' var Hvar Hd'. apply elem_of_seq0 in Hvar.
    rewrite write_SQU_other; try done. congruence.
Qed.

End DelYLoop.

Section CondensedSolveResult.
Context {S : Scalar} {SR : ScalarRing S} {P : Problem}.

(** The gather of the two traces per variable at cell [i]. *)
Lemma delLambdaCell_of_spec (X : Vec) i :
  delLambdaCell_of X i = vbuild (2 * nVar) (λ p, vget X (p / 2 * (nCells + 1) + i + p mod 2)).
Proof.
  unfold delLambdaCell_of.
  assert (Hlen : ∀ n, length (foldl (λ v var,
                   set_vblock v (2 * var) 2 (vblock X (var * (nCells + 1) + i) 2))
                   (vzero (2 * nVar)) (seq 0 n)) = 2 * nVar).
  { intros n. rewrite foldl_length_inv; [apply length_vzero|].
    intros. apply length_set_vblock. }
  apply vec_ext; [rewrite Hlen, length_vbuild; done|].
  rewrite Hlen. intros p Hp. rewrite vget_vbuild by done.
  pose proof (Nat.div_mod_eq p 2) as Hdm.
  pose proof (Nat.mod_upper_bound p 2 ltac:(lia)) as Hm.
  apply (foldl_written (λ v : Vec, length v = 2 * nVar) (λ v, vget v p) _ nVar (p / 2)).
  - apply Nat.Div0.div_lt_upper_bound. lia.
  - apply length_vzero.
  - intros v x _ Hv. rewrite length_set_vblock. done.
  - intros v Hv. rewrite vget_set_vblock, decide_True by lia.
    rewrite vget_vblock by lia. f_equal. lia.
  - intros v x _ Hne Hv. rewrite vget_set_vblock, decide_False; [done|]. lia.
Qed.

End CondensedSolveResult.


Lemma demo_grid_ok : grid_ok (P := demo_problem).
Proof.
  intros i Hi. destruct i as [|[|i]].
  - vm_compute. split; [reflexivity | discriminate].
  - vm_compute. split; [discriminate | reflexivity].
  - vm_compute in Hi. lia.
Defined.



(** ** The initial state and derivative *)

Section InitialConditionLemmas.
Context {S : Scalar} {P : Problem}.

(** The windows bound by [mapDGtoSundials] on unbound fields. *)
Lemma mapped_views (lam0 : View) :
  fits32 → 0 < nVar →
  mapDGtoSundials [] [] [] lam0
  = (block_views 0, block_views 1, block_views 2,
     (lambda_offset 0 0, nVar * (nCells + 1))).
Proof.
  intros Hf Hn. rewrite mapDGtoSundials_eq. simpl.
  assert (Hn0 : (nVar =? 0) = false) by (apply Nat.eqb_neq; lia).
  rewrite Hn0, lamView_eq by done.
  assert (Hv : ∀ b (f : nat → nat → View),
             (∀ v i, v < nVar → i < nCells →
                coeffs ((λ var, (λ i, f var i) <$> seq 0 nCells) <$> seq 0 nVar) v i
                = (block_offset b v i, k + 1)) →
             (λ var, (λ i, f var i) <$> seq 0 nCells) <$> seq 0 nVar = block_views b).
  { intros b f H. unfold block_views. apply Forall_fmap_ext, Forall_forall.
    intros v Hv%elem_of_seq0. apply Forall_fmap_ext, Forall_forall.
    intros i Hi%elem_of_seq0. rewrite <- H by done. rewrite coeffs_fresh by done. done. }
  f_equal; [f_equal; [f_equal|]|].
  - apply (Hv 0 (λ var i, _)). intros v i Hv' Hi. apply (views_block_offset v i Hf Hv' Hi).
  - apply (Hv 1 (λ var i, _)). intros v i Hv' Hi. apply (views_block_offset v i Hf Hv' Hi).
  - apply (Hv 2 (λ var i, _)). intros v i Hv' Hi. apply (views_block_offset v i Hf Hv' Hi).
  - unfold lambda_offset. f_equal. lia.
Qed.

Lemma coeffs_block_views b v i :
  v < nVar → i < nCells → coeffs (block_views b) v i = (block_offset b v i, k + 1).
Proof. intros Hv Hi. unfold block_views. rewrite coeffs_fresh by done. done. Qed.

Lemma length_write_blocks b val (Y : Vec) : length (write_blocks b val Y) = length Y.
Proof.
  unfold write_blocks. apply foldl_length_inv. intros Y' var.
  apply foldl_length_inv. intros. apply length_write.
Qed.

(** An entry outside the windows of block [b] is not written. *)
Lemma write_blocks_out b val (Y : Vec) idx :
  (∀ v i, v < nVar → i < nCells →
          ¬ (block_offset b v i ≤ idx < block_offset b v i + (k + 1))) →
  vget (write_blocks b val Y) idx = vget Y idx.
Proof.
  intros H. unfold write_blocks.
  apply (foldl_inv (λ Y', vget Y' idx = vget Y idx)); [done|].
  intros Y1 var Hvar%elem_of_seq0 H1.
  apply (foldl_inv (λ Y', vget Y' idx = vget Y idx)); [done|].
  intros Y2 i Hi%elem_of_seq0 H2. rewrite vget_write_out; [done|]. simpl. apply H; done.
Qed.

Lemma write_blocks_other b b' val (Y : Vec) v i e :
  b ≤ 2 → b' ≤ 2 → b ≠ b' → v < nVar → e ≤ k →
  vget (write_blocks b val Y) (block_offset b' v i + e) = vget Y (block_offset b' v i + e).
Proof.
  intros Hb Hb' Hne Hv He. apply write_blocks_out. intros v' i' Hv' Hi'.
  apply block_disjoint; try done. congruence.
Qed.

Lemma write_blocks_trace b val (Y : Vec) idx :
  b ≤ 2 → lambda_offset 0 0 ≤ idx → vget (write_blocks b val Y) idx = vget Y idx.
Proof.
  intros Hb Hidx. apply write_blocks_out. intros v i Hv Hi.
  pose proof (block_below_lambda b v i Hb Hv Hi). lia.
Qed.

(** The entries of block [b] hold what the loop wrote. *)
Lemma write_blocks_in b val (Y : Vec) v i e :
  b ≤ 2 → v < nVar → i < nCells → e ≤ k → length Y = state_length →
  vget (write_blocks b val Y) (block_offset b v i + e) = vget (val v i) e.
Proof.
  intros Hb Hv Hi He Hlen. unfold write_blocks.
  assert (Hidx : block_offset b v i + e < state_length).
  { pose proof (block_below_lambda b v i Hb Hv Hi). unfold lambda_offset, state_length in *.
    lia. }
  apply (foldl_written (λ Y', length Y' = state_length)
           (λ Y', vget Y' (block_offset b v i + e)) _ nVar v); [done | done | | |].
  - intros Y1 var _ H1. rewrite foldl_length_inv; [done|]. intros. apply length_write.
  - intros Y1 H1.
    apply (foldl_written (λ Y', length Y' = state_length)
             (λ Y', vget Y' (block_offset b v i + e)) _ nCells i); [done | done | | |].
    + intros Y2 x _ H2. rewrite length_write. done.
    + intros Y2 H2. rewrite vget_write_in; simpl; [f_equal; lia | lia | lia].
    + intros Y2 x Hx Hne H2. rewrite vget_write_out; [done|]. simpl.
      apply block_disjoint; try done. congruence.
  - intros Y1 var Hvar Hne H1.
    apply (foldl_inv (λ Y', vget Y' (block_offset b v i + e)
                            = vget Y1 (block_offset b v i + e))); [done|].
    intros Y2 x Hx%elem_of_seq0 H2. rewrite vget_write_out; [done|]. simpl.
    apply block_disjoint; try done. congruence.
Qed.

(** [zeroCoeffs] and the assignment of a function, on the windows of
    block [b]. *)
Lemma zeroCoeffs_blocks b (Y : Vec) :
  zeroCoeffs Y (block_views b) = write_blocks b (λ _ _, vzero (k + 1)) Y.
Proof.
  unfold zeroCoeffs, write_blocks, block_views. rewrite foldl_fmap.
  apply foldl_ext_elem. intros Y1 var _. rewrite foldl_fmap. reflexivity.
Qed.

Lemma DG_assign_blocks b (Y : Vec) f :
  DG_assign Y (block_views b) f = write_blocks b (λ var i, assign f var (cell i)) Y.
Proof.
  unfold DG_assign, write_blocks.
  assert (Hl : length (block_views b) = nVar).
  { unfold block_views. rewrite length_fmap, length_seq. done. }
  rewrite Hl. apply foldl_ext_elem. intros Y1 var Hvar%elem_of_seq0.
  assert (Hr : length (default [] (block_views b !! var)) = nCells).
  { unfold block_views. rewrite list_lookup_fmap, lookup_seq_lt by done. simpl.
    rewrite length_fmap, length_seq. done. }
  rewrite Hr. apply foldl_ext_elem. intros Y2 i Hi%elem_of_seq0.
  rewrite coeffs_block_views by done. reflexivity.
Qed.

(** [initialiseMatrices] does not bind the fields. *)
Lemma init_loop_fields un n s C E HG st :
  ofoldl (init_cell un) (s, C, E, HG) (seq 0 n) = Some st →
  sig st.1.1.1 = sig s ∧ q st.1.1.1 = q s ∧ u st.1.1.1 = u s
  ∧ dsigdt st.1.1.1 = dsigdt s ∧ dqdt st.1.1.1 = dqdt s ∧ dudt st.1.1.1 = dudt s
  ∧ L_global st.1.1.1 = L_loop 0%S (L_global s) (seq 0 n).
Proof.
  revert st. induction n as [|n IH]; intros st.
  - simpl. intros [= <-]. simpl. done.
  - rewrite ofoldl_seq_S. unfold L_loop. rewrite foldl_seq_S.
    fold (L_loop 0%S (L_global s) (seq 0 n)).
    destruct (ofoldl (init_cell un) (s, C, E, HG) (seq 0 n)) as [[[[s1 C1] E1] HG1]|];
      [cbn [mbind option_bind] | discriminate].
    destruct (IH _ eq_refl) as (H1 & H2 & H3 & H4 & H5 & H6 & H7). simpl in *.
    unfold init_cell.
    destruct (CE_fill (cell n) C1 E1) as [C' E'].
    destruct (fill_RF 0%S (cell n) _) as [rf|]; simpl; [|discriminate].
    destruct (H_fill n (cell n) HG1) as [H HG'].
    intros [= <-]. simpl. rewrite H1, H2, H3, H4, H5, H6, H7. done.
Qed.

Lemma initialiseMatrices_fields un s0 s :
  initialiseMatrices un s0 = Some s →
  (unbound s0 → unbound s)
  ∧ L_global s = L_loop 0%S (vzero (nVar * (nCells + 1))) (seq 0 nCells).
Proof.
  unfold initialiseMatrices.
  destruct (ofoldl _ _ (seq 0 nCells)) as [[[[s1 C1] E1] HG1]|] eqn:E; simpl; [|discriminate].
  intros [= <-].
  destruct (init_loop_fields _ _ _ _ _ _ _ E) as (H1 & H2 & H3 & H4 & H5 & H6 & H7).
  simpl in *. split; [|done]. unfold unbound. simpl. rewrite H1, H2, H3, H4, H5, H6. done.
Qed.

Lemma initialiseMatrices_L_interior un s0 s :
  grid_ok → initialiseMatrices un s0 = Some s → L_interior_zero s.
Proof.
  intros Hg H. destruct (initialiseMatrices_fields _ _ _ H) as [_ HL].
  intros v j Hv Hj. rewrite HL. apply L_loop_interior; [done | done |]. apply vget_vzero.
Qed.

(** [setInitialConditions] on a solver whose fields are not bound yet,
    with its loops over the windows written as [write_blocks]. *)
Lemma setInitialConditions_unfold un u_0 gradu_0 sigma_0 (Y dYdt : Vec) s r :
  fits32 → 0 < nVar → unbound s →
  setInitialConditions un u_0 gradu_0 sigma_0 Y dYdt s = Some r →
  ∃ s1,
    (if initialised s then Some s else initialiseMatrices un s) = Some s1
    ∧ let lam : View := (lambda_offset 0 0, nVar * (nCells + 1)) in
      let zero := λ _ _ : nat, vzero (k + 1) in
      let clear := λ Y, write (write_blocks 2 zero (write_blocks 1 zero (write_blocks 0 zero Y)))
                              lam (vzero (nVar * (nCells + 1))) in
      let s' := set_fields (block_views 0) (block_views 1) (block_views 2)
                           (block_views 0) (block_views 1) (block_views 2)
                           (Some lam) (Some lam) s1 in
      let Y5 := write_blocks 0 (λ var i, assign sigma_0 var (cell i))
                  (write_blocks 1 (λ var i, assign gradu_0 var (cell i))
                     (write_blocks 2 (λ var i, assign u_0 var (cell i)) (clear Y))) in
      let Yf := write Y5 lam (FullPivLU_solve (H_global s')
                                (CsGuL_assemble s' (coeffs_of Y5 0) (coeffs_of Y5 2))) in
      ic_sys r = s' ∧ ic_Y r = Yf
      ∧ ic_dYdt r
        = write_blocks 2
            (λ var i, dudt_of s' i var (coeffs_of Yf 0 var i) (coeffs_of Yf 2 var i)
                        [vget (read Yf lam) (var * (nCells + 1) + i);
                         vget (read Yf lam) (var * (nCells + 1) + i + 1)]
                        (F_cellwise_of (cell i) var (DGread Yf (block_views 1))
                                       (DGread Yf (block_views 1))))
            (clear dYdt).
Proof.
  intros Hf Hn Hu. unfold setInitialConditions.
  destruct (if initialised s then Some s else initialiseMatrices un s) as [s1|] eqn:E1;
    [|discriminate].
  cbn [mbind option_bind]. intros H. exists s1. split; [reflexivity|].
  assert (Hu1 : unbound s1).
  { destruct (initialised s); [by injection E1 as <-|].
    apply (initialiseMatrices_fields _ _ _ E1), Hu. }
  destruct Hu1 as (H1 & H2 & H3 & H4 & H5 & H6).
  rewrite H1, H2, H3, H4, H5, H6, !mapped_views in H by done. cbv beta iota zeta in H.
  injection H as <-. cbn [ic_sys ic_Y ic_dYdt].
  rewrite !zeroCoeffs_blocks, !DG_assign_blocks. cbn [snd].
  set (lam := (lambda_offset 0 0, nVar * (nCells + 1))).
  set (s' := set_fields _ _ _ _ _ _ _ _ s1).
  set (Y5 := write_blocks 0 _ _).
  assert (EC : CsGuL_assemble s' (λ var i, read Y5 (coeffs (block_views 0) var i))
                              (λ var i, read Y5 (coeffs (block_views 2) var i))
               = CsGuL_assemble s' (coeffs_of Y5 0) (coeffs_of Y5 2)).
  { apply CsGuL_assemble_ext. intros v i Hv Hi. rewrite !coeffs_block_views by done. done. }
  rewrite EC. set (Yf := write Y5 lam _).
  repeat split. unfold write_blocks.
  apply foldl_ext_elem. intros d1 var Hvar%elem_of_seq0.
  apply foldl_ext_elem. intros d2 i Hi%elem_of_seq0.
  rewrite !coeffs_block_views by done. f_equal. f_equal.
  unfold F_cellwise_of. apply foldl_ext_elem. intros w j Hj%elem_of_seq0.
  rewrite Nat.mod_small by done. reflexivity.
Qed.

Lemma coeffs_of_write_trace (Y x : Vec) b v i :
  b ≤ 2 → v < nVar → i < nCells →
  coeffs_of (write Y (lambda_offset 0 0, nVar * (nCells + 1)) x) b v i = coeffs_of Y b v i.
Proof.
  intros Hb Hv Hi. unfold coeffs_of. apply vec_ext; [by rewrite !length_vblock|].
  rewrite length_vblock. intros e He. rewrite !vget_vblock by done.
  apply vget_write_out. simpl. pose proof (block_below_lambda b v i Hb Hv Hi). lia.
Qed.

(** What [setInitialConditions] leaves in [Y] and [dYdt]: the projected
    data in the cell blocks of [Y], the solution of the trace equation
    (assembled from those blocks by the loop over the cells) in its trace
    block, the explicit expression for the derivative of [u] with the
    source evaluated at [(q, q)], and zeros in the other blocks of
    [dYdt]. *)
Lemma setInitialConditions_spec un u_0 gradu_0 sigma_0 (Y dYdt : Vec) s r :
  fits32 → 0 < nVar → unbound s →
  length Y = state_length → length dYdt = state_length →
  setInitialConditions un u_0 gradu_0 sigma_0 Y dYdt s = Some r →
  let Y' := ic_Y r in
  let s' := ic_sys r in
  (∀ v i e, v < nVar → i < nCells → e ≤ k →
     vget (coeffs_of Y' 0 v i) e = vget (assign sigma_0 v (cell i)) e
     ∧ vget (coeffs_of Y' 1 v i) e = vget (assign gradu_0 v (cell i)) e
     ∧ vget (coeffs_of Y' 2 v i) e = vget (assign u_0 v (cell i)) e)
  ∧ (∀ v j, v < nVar → j ≤ nCells →
       trace_of Y' v j
       = vget (FullPivLU_solve (H_global s')
                 (CsGuL_assemble s' (coeffs_of Y' 0) (coeffs_of Y' 2)))
              (v * (nCells + 1) + j))
  ∧ (∀ v i e, v < nVar → i < nCells → e ≤ k →
       vget (coeffs_of (ic_dYdt r) 2 v i) e
       = vget (dudt_of s' i v (coeffs_of Y' 0 v i) (coeffs_of Y' 2 v i)
                 [trace_of Y' v i; trace_of Y' v (i + 1)]
                 (F_cellwise_of (cell i) v (DGread Y' (q s')) (DGread Y' (q s')))) e)
  ∧ block_zero (ic_dYdt r) 0 ∧ block_zero (ic_dYdt r) 1 ∧ trace_zero (ic_dYdt r).
Proof.
  intros Hf Hn Hu HlY Hld H.
  destruct (setInitialConditions_unfold _ _ _ _ _ _ _ _ Hf Hn Hu H) as (s1 & _ & Hr).
  cbv zeta in Hr. destruct Hr as (Hs & HY & Hd). cbv zeta. rewrite Hs, HY, Hd.
  clear Hs HY Hd H r.
  set (lam := (lambda_offset 0 0, nVar * (nCells + 1))).
  set (zero := λ _ _ : nat, vzero (k + 1)).
  set (s' := set_fields _ _ _ _ _ _ _ _ s1).
  set (cY := write (write_blocks 2 zero (write_blocks 1 zero (write_blocks 0 zero Y))) lam _).
  set (cd := write (write_blocks 2 zero (write_blocks 1 zero (write_blocks 0 zero dYdt))) lam _).
  set (Y5 := write_blocks 0 _ (write_blocks 1 _ (write_blocks 2 _ cY))).
  assert (HlcY : length cY = state_length).
  { unfold cY. rewrite length_write, !length_write_blocks. done. }
  assert (Hlcd : length cd = state_length).
  { unfold cd. rewrite length_write, !length_write_blocks. done. }
  assert (HlY5 : length Y5 = state_length).
  { unfold Y5. rewrite !length_write_blocks. done. }
  assert (HE : CsGuL_assemble s' (coeffs_of Y5 0) (coeffs_of Y5 2)
               = CsGuL_assemble s'
                   (coeffs_of (write Y5 lam (FullPivLU_solve (H_global s')
                      (CsGuL_assemble s' (coeffs_of Y5 0) (coeffs_of Y5 2)))) 0)
                   (coeffs_of (write Y5 lam (FullPivLU_solve (H_global s')
                      (CsGuL_assemble s' (coeffs_of Y5 0) (coeffs_of Y5 2)))) 2)).
  { apply CsGuL_assemble_ext. intros v i Hv Hi.
    unfold lam. rewrite !coeffs_of_write_trace by (done || lia). done. }
  set (Yf := write Y5 lam _) in *.
  assert (Htr : ∀ v j, v < nVar → j ≤ nCells →
            lambda_offset 0 0 ≤ lambda_offset v j < lambda_offset 0 0 + nVar * (nCells + 1)
            ∧ lambda_offset v j - lambda_offset 0 0 = v * (nCells + 1) + j
            ∧ v * (nCells + 1) + j < nVar * (nCells + 1)).
  { intros v j Hv Hj. pose proof (lambda_in_state v j Hv Hj) as Hs.
    unfold lambda_offset, state_length in *.
    assert ((v + 1) * (nCells + 1) ≤ nVar * (nCells + 1)) by (apply Nat.mul_le_mono_r; lia).
    lia. }
  assert (HYf : ∀ b v i e, b ≤ 2 → v < nVar → i < nCells → e ≤ k →
            vget (coeffs_of Yf b v i) e = vget Y5 (block_offset b v i + e)).
  { intros b v i e Hb Hv Hi He. unfold Yf, lam. rewrite coeffs_of_write_trace by done.
    unfold coeffs_of. rewrite vget_vblock by lia. done. }
  assert (Hlam : ∀ v j, v < nVar → j ≤ nCells →
            trace_of Yf v j
            = vget (FullPivLU_solve (H_global s')
                      (CsGuL_assemble s' (coeffs_of Yf 0) (coeffs_of Yf 2)))
                   (v * (nCells + 1) + j)).
  { intros v j Hv Hj. destruct (Htr v j Hv Hj) as (H1 & H2 & H3).
    unfold trace_of. unfold Yf at 1. rewrite vget_write_in; simpl; [| done |].
    2:{ rewrite HlY5. apply lambda_in_state; done. }
    rewrite H2, HE. done. }
  split; [|split; [exact Hlam|split; [|split; [|split]]]].
  - intros v i e Hv Hi He. rewrite !HYf by (done || lia). unfold Y5. repeat split.
    + rewrite write_blocks_in; try done; try lia. rewrite !length_write_blocks. done.
    + rewrite (write_blocks_other 0 1) by (done || lia).
      rewrite write_blocks_in; try done; try lia. rewrite !length_write_blocks. done.
    + rewrite (write_blocks_other 0 2), (write_blocks_other 1 2) by (done || lia).
      rewrite write_blocks_in; try done; lia.
  - intros v i e Hv Hi He. unfold coeffs_of at 1. rewrite vget_vblock by lia.
    rewrite write_blocks_in; try done; try lia.
    destruct (Htr v i Hv ltac:(lia)) as (_ & H2 & H3).
    destruct (Htr v (i + 1) Hv ltac:(lia)) as (_ & H2' & H3').
    unfold read, trace_of. simpl. rewrite !vget_vblock by lia.
    replace (lambda_offset 0 0 + (v * (nCells + 1) + i)) with (lambda_offset v i)
      by (unfold lambda_offset; lia).
    replace (lambda_offset 0 0 + (v * (nCells + 1) + i + 1)) with (lambda_offset v (i + 1))
      by (unfold lambda_offset; lia).
    reflexivity.
  - intros v i e Hv Hi He.
    rewrite (write_blocks_other 2 0) by (done || lia). unfold cd.
    rewrite vget_write_out.
    2:{ simpl. pose proof (block_below_lambda 0 v i ltac:(lia) Hv Hi). lia. }
    rewrite (write_blocks_other 2 0), (write_blocks_other 1 0) by (done || lia).
    rewrite write_blocks_in; try done; try lia. apply vget_vzero.
  - intros v i e Hv Hi He.
    rewrite (write_blocks_other 2 1) by (done || lia). unfold cd.
    rewrite vget_write_out.
    2:{ simpl. pose proof (block_below_lambda 1 v i ltac:(lia) Hv Hi). lia. }
    rewrite (write_blocks_other 2 1) by (done || lia).
    rewrite write_blocks_in; try done; try lia; [apply vget_vzero|].
    rewrite length_write_blocks. done.
  - intros v j Hv Hj. destruct (Htr v j Hv Hj) as (H1 & H2 & H3). unfold trace_of.
    rewrite write_blocks_trace by lia. unfold cd.
    rewrite vget_write_in; simpl; [apply vget_vzero | done |].
    rewrite !length_write_blocks, Hld. apply lambda_in_state; done.
Qed.

End InitialConditionLemmas.

Section InitialTrace.
Context {S : Scalar} {SR : ScalarRing S} {P : Problem}.

(** On a solver that [setInitialConditions] initialises itself, the trace
    block of [Y] solves the trace equation
    [H_global lambda = L - sum_i (C_i sigma_i + G_i u_i)]. *)
Lemma setInitialConditions_trace un u_0 gradu_0 sigma_0 (Y dYdt : Vec) s r v j :
  fits32 → 0 < nVar → 0 < nCells → grid_ok → unbound s → initialised s = false →
  length Y = state_length → length dYdt = state_length →
  setInitialConditions un u_0 gradu_0 sigma_0 Y dYdt s = Some r →
  v < nVar → j ≤ nCells →
  trace_of (ic_Y r) v j
  = vget (FullPivLU_solve (H_global (ic_sys r))
            (trace_rhs (ic_sys r) (coeffs_of (ic_Y r) 0) (coeffs_of (ic_Y r) 2)))
         (v * (nCells + 1) + j).
Proof.
  intros Hf Hn Hc Hg Hu Hi HlY Hld H Hv Hj.
  destruct (setInitialConditions_spec _ _ _ _ _ _ _ _ Hf Hn Hu HlY Hld H) as (_ & HL & _).
  cbv zeta in HL. rewrite HL by done. rewrite CsGuL_assemble_spec; [done | done |].
  destruct (setInitialConditions_unfold _ _ _ _ _ _ _ _ Hf Hn Hu H) as (s1 & E1 & Hr).
  cbv zeta in Hr. destruct Hr as (Hs & _). rewrite Hs. rewrite Hi in E1.
  apply (initialiseMatrices_L_interior _ _ _ Hg E1).
Qed.

End InitialTrace.

Section InitialSource.
#[local] Existing Instance source_problem.

(** C5, evaluated: with a source that depends on [u] and initial data
    [u_0 = 1], [q_0 = 0], [sigma_0 = 0], the derivative of [u] on the
    first cell is the R2 expression with the source projected at [(q, q)]
    (no source, since [q = 0]), not at the initial state [(q, u)], for
    which the projection is [(1, 2)]. *)
Theorem C5_initial_source_at_q :
  match setInitialConditions zero_garbage (λ _, 1%Z) (λ _, 0%Z) (λ _, 0%Z)
                             (replicate 15 0%Z) (replicate 15 0%Z) fresh_solver with
  | Some r =>
      let Y := ic_Y r in
      let s := ic_sys r in
      let Q := DGread Y (q s) in
      let U := DGread Y (u s) in
      let lamCell := [trace_of Y 0 0; trace_of Y 0 1] in
      let R2 := dudt_of s 0 0 (coeffs_of Y 0 0 0) (coeffs_of Y 2 0 0) lamCell in
      F_cellwise_of (cell 0) 0 Q Q = [0; 0]%Z
      ∧ F_cellwise_of (cell 0) 0 Q U = [1; 2]%Z
      ∧ coeffs_of (ic_dYdt r) 2 0 0 = R2 (F_cellwise_of (cell 0) 0 Q Q)
      ∧ coeffs_of (ic_dYdt r) 2 0 0 = [-31; -47]%Z
      ∧ R2 (F_cellwise_of (cell 0) 0 Q U) = [-32; -49]%Z
  | None => False
  end.
Proof.
  vm_compute. repeat split; reflexivity.
Qed.

End InitialSource.

(** ** The windows and the state vector *)

Section Partition.
Context {S : Scalar} {P : Problem}.

(** Every index below the trace block lies in the window of one block,
    variable and cell. *)
Lemma block_cover idx :
  idx < lambda_offset 0 0 →
  ∃ b v i e, b ≤ 2 ∧ v < nVar ∧ i < nCells ∧ e ≤ k ∧ idx = block_offset b v i + e.
Proof.
  intros H. unfold lambda_offset in H.
  set (p := idx / (k + 1)). set (e := idx mod (k + 1)).
  set (c := p / nVar). set (v := p mod nVar).
  assert (Hk : k + 1 ≠ 0) by lia.
  assert (Hn : nVar ≠ 0) by (intros E; rewrite E in H; simpl in H; lia).
  assert (Hidx : idx = p * (k + 1) + e).
  { unfold p, e. rewrite Nat.mul_comm. apply Nat.div_mod_eq. }
  assert (He : e < k + 1) by (apply Nat.mod_upper_bound; done).
  assert (Hp : p = c * nVar + v).
  { unfold c, v. rewrite Nat.mul_comm. apply Nat.div_mod_eq. }
  assert (Hv : v < nVar) by (apply Nat.mod_upper_bound; done).
  assert (Hc : c = c / 3 * 3 + c mod 3).
  { rewrite Nat.mul_comm. apply Nat.div_mod_eq. }
  assert (Hb : c mod 3 < 3) by (apply Nat.mod_upper_bound; lia).
  assert (Hc3 : c < 3 * nCells).
  { destruct (decide (c < 3 * nCells)) as [|Hge]; [done|]. exfalso.
    assert (3 * nCells * nVar ≤ c * nVar) by (apply Nat.mul_le_mono_r; lia).
    assert (3 * nCells * nVar * (k + 1) ≤ p * (k + 1)) by (apply Nat.mul_le_mono_r; lia).
    lia. }
  exists (c mod 3), v, (c / 3), e. repeat split; try lia.
  rewrite block_offset_flat. rewrite <- Hc, <- Hp. done.
Qed.

(** X1: the windows that [mapDGtoSundials] binds tile the state vector
    that [runSolver] allocates: each of them lies within the vector, and
    every index of the vector lies in the trace window or in the window
    of exactly one block, variable and cell, never in both. *)
Theorem X1_windows_tile_state (lam0 : View) (sg qq uu : DGApprox) (lam : View) :
  fits32 → 0 < nVar →
  mapDGtoSundials [] [] [] lam0 = (sg, qq, uu, lam) →
  (∀ idx, in_view lam idx → idx < state_length)
  ∧ (∀ b v i idx, b ≤ 2 → v < nVar → i < nCells →
       in_view (coeffs (field_of sg qq uu b) v i) idx → idx < state_length ∧ ¬ in_view lam idx)
  ∧ (∀ idx, idx < state_length → ¬ in_view lam idx →
       ∃ b v i, b ≤ 2 ∧ v < nVar ∧ i < nCells
                ∧ in_view (coeffs (field_of sg qq uu b) v i) idx
                ∧ ∀ b' v' i', b' ≤ 2 → v' < nVar → i' < nCells →
                    in_view (coeffs (field_of sg qq uu b') v' i') idx →
                    (b', v', i') = (b, v, i)).
Proof.
  intros Hf Hn. rewrite mapped_views by done. intros [= <- <- <- <-].
  assert (Hw : ∀ b v i, b ≤ 2 → v < nVar → i < nCells →
            coeffs (field_of (block_views 0) (block_views 1) (block_views 2) b) v i
            = (block_offset b v i, k + 1)).
  { intros b v i Hb Hv Hi. destruct b as [|[|[|]]]; try lia; simpl;
      apply coeffs_block_views; done. }
  assert (Hl : lambda_offset 0 0 + nVar * (nCells + 1) = state_length).
  { unfold lambda_offset, state_length. lia. }
  unfold in_view. simpl. repeat split.
  - lia.
  - rewrite Hw in H2 by done. simpl in H2.
    pose proof (block_below_lambda b v i H H0 H1). lia.
  - rewrite Hw in H2 by done. simpl in H2.
    pose proof (block_below_lambda b v i H H0 H1). lia.
  - intros idx Hidx Hnl.
    destruct (block_cover idx) as (b & v & i & e & Hb & Hv & Hi & He & ->); [lia|].
    exists b, v, i. repeat split; try done.
    + rewrite Hw by done. simpl. lia.
    + rewrite Hw by done. simpl. lia.
    + intros b' v' i' Hb' Hv' Hi'. rewrite Hw by done. simpl. intros Hin.
      destruct (decide ((b, v, i) = (b', v', i'))) as [E|Hne]; [done|].
      exfalso. apply (block_disjoint b v i b' v' i' e Hb Hb' Hv Hv' He Hne). done.
Qed.

End Partition.

Section PartitionWitness.
#[local] Existing Instance demo_problem.

Lemma X1_windows_tile_state_witness :
  in_view (lambda_offset 0 0, nVar * (nCells + 1)) 13 ∧ 13 < state_length.
Proof.
  assert (H : in_view (lambda_offset 0 0, nVar * (nCells + 1)) 13).
  { unfold in_view. vm_compute. lia. }
  split; [exact H|].
  refine (proj1 (X1_windows_tile_state (0, 0) (block_views 0) (block_views 1) (block_views 2)
                   (lambda_offset 0 0, nVar * (nCells + 1)) _ _ _) 13 H).
  - vm_compute. reflexivity.
  - vm_compute. lia.
  - vm_compute. reflexivity.
Defined.

End PartitionWitness.

(** ** The differential entries *)

Section DifferentialEntriesLemmas.
Context {S : Scalar} {P : Problem}.

Lemma length_idVals : length idVals = state_length.
Proof.
  unfold idVals. rewrite foldl_length_inv.
  - rewrite length_vzero. unfold state_length. done.
  - intros v i. apply foldl_length_inv. intros. apply length_vset.
Qed.

(** X2: the vector [id] that [runSolver] hands to the integrator is one
    on the coefficients of [u] and zero on those of sigma and q and on
    the traces: the windows of [u] are exactly the differential
    entries. *)
Theorem X2_id_marks_u :
  (Z.of_nat state_length < 2147483648)%Z →
  (∀ v i e, v < nVar → i < nCells → e ≤ k → vget idVals (block_offset 2 v i + e) = 1%S)
  ∧ (∀ b v i e, b ≤ 1 → v < nVar → i < nCells → e ≤ k →
       vget idVals (block_offset b v i + e) = 0%S)
  ∧ (∀ v j, v < nVar → j ≤ nCells → vget idVals (lambda_offset v j) = 0%S).
Proof.
  intros _.
  assert (Hzero : ∀ idx,
            (∀ i j, i < nCells → j < nVar * (k + 1) →
                    i * 3 * nVar * (k + 1) + 2 * nVar * (k + 1) + j ≠ idx) →
            vget idVals idx = 0%S).
  { intros idx H. unfold idVals.
    apply (foldl_inv (λ id : Vec, vget id idx = 0%S)); [apply vget_vzero|].
    intros id i Hi%elem_of_seq0 Hid.
    apply (foldl_inv (λ id : Vec, vget id idx = 0%S)); [done|].
    intros id' j Hj%elem_of_seq0 Hid'. rewrite vget_vset, decide_False; [done|].
    intros [E _]. apply (H i j Hi Hj E). }
  assert (Hmul : ∀ v, v < nVar → (v + 1) * (k + 1) ≤ nVar * (k + 1)).
  { intros v Hv. apply Nat.mul_le_mono_r. lia. }
  assert (Hsep : ∀ i i' r r', r < 3 * (nVar * (k + 1)) → r' < 3 * (nVar * (k + 1)) →
            i * (3 * (nVar * (k + 1))) + r = i' * (3 * (nVar * (k + 1))) + r' →
            i = i' ∧ r = r').
  { intros i i' r r' Hr Hr' E. set (m := 3 * (nVar * (k + 1))) in *.
    destruct (Nat.lt_trichotomy i i') as [Hlt|[->|Hlt]].
    - assert ((i + 1) * m ≤ i' * m) by (apply Nat.mul_le_mono_r; lia). lia.
    - lia.
    - assert ((i' + 1) * m ≤ i * m) by (apply Nat.mul_le_mono_r; lia). lia. }
  repeat split.
  - intros v i e Hv Hi He. pose proof (Hmul v Hv) as Hm.
    assert (Hidx : block_offset 2 v i + e
                   = i * 3 * nVar * (k + 1) + 2 * nVar * (k + 1) + (v * (k + 1) + e)).
    { unfold block_offset. lia. }
    unfold idVals.
    apply (foldl_written (λ id : Vec, length id = state_length)
             (λ id, vget id (block_offset 2 v i + e)) _ nCells i); [done | | | |].
    + rewrite length_vzero. unfold state_length. done.
    + intros id x _ Hid. rewrite foldl_length_inv; [done|]. intros. apply length_vset.
    + intros id Hid.
      apply (foldl_written (λ id : Vec, length id = state_length)
               (λ id, vget id (block_offset 2 v i + e)) _ (nVar * (k + 1)) (v * (k + 1) + e));
        [lia | done | | |].
      * intros id' x _ Hid'. rewrite length_vset. done.
      * intros id' Hid'. rewrite vget_vset, decide_True; [done|]. split; [lia|].
        rewrite Hid'. pose proof (block_below_lambda 2 v i ltac:(lia) Hv Hi).
        unfold lambda_offset, state_length in *. lia.
      * intros id' x Hx Hne Hid'. rewrite vget_vset, decide_False; [done|]. lia.
    + intros id x Hx Hne Hid.
      apply (foldl_inv (λ id' : Vec, vget id' (block_offset 2 v i + e)
                                     = vget id (block_offset 2 v i + e))); [done|].
      intros id' j Hj%elem_of_seq0 Hid'. rewrite vget_vset, decide_False; [done|].
      intros [E _]. rewrite Hidx in E.
      destruct (Hsep x i (2 * nVar * (k + 1) + j) (2 * nVar * (k + 1) + (v * (k + 1) + e)));
        lia.
  - intros b v i e Hb Hv Hi He. pose proof (Hmul v Hv) as Hm.
    apply Hzero. intros i' j Hi' Hj E. unfold block_offset in E.
    assert (b * (nVar * (k + 1)) ≤ 1 * (nVar * (k + 1))) by (apply Nat.mul_le_mono_r; lia).
    destruct (Hsep i' i (2 * nVar * (k + 1) + j) (b * (nVar * (k + 1)) + v * (k + 1) + e));
      lia.
  - intros v j Hv Hj. apply Hzero. intros i' j' Hi' Hj' E. unfold lambda_offset in E.
    assert ((i' + 1) * (3 * (nVar * (k + 1))) ≤ nCells * (3 * (nVar * (k + 1))))
      by (apply Nat.mul_le_mono_r; lia).
    lia.
Qed.

End DifferentialEntriesLemmas.

Section DifferentialEntriesWitness.
#[local] Existing Instance demo_problem.

Lemma X2_id_marks_u_witness :
  vget idVals (lambda_offset 0 1) = 0%Z.
Proof.
  refine (proj2 (proj2 (X2_id_marks_u _)) 0 1 _ _).
  - vm_compute. reflexivity.
  - vm_compute. lia.
  - vm_compute. lia.
Defined.

End DifferentialEntriesWitness.

(** ** The boundary update: rows, degree zero, Neumann data *)

(** X3: for polynomial degree [k >= 1], after [updateBoundaryConditions(t)]
    the sigma row [j] and the u row [j] of the forcing vector of every
    cell are [RF_sigma_entry] and [RF_u_entry]: the projection of the
    forcing in the u half, the Dirichlet terms of the boundaries the cell
    touches, with the basis function [j mod k + 1] in the sigma row of the
    upper boundary. *)
Theorem X3_boundary_rows {S : Scalar} {P : Problem} t s s' i j :
  0 < k → updateBoundaryConditions t s = Some s' →
  i < length (RF_cellwise s) → i < nCells →
  length (nthV (RF_cellwise s) i) = 2 * (nVar * (k + 1)) →
  j < nVar * (k + 1) →
  vget (nthV (RF_cellwise s') i) j = RF_sigma_entry t (cell i) j
  ∧ vget (nthV (RF_cellwise s') i) (nVar * (k + 1) + j) = RF_u_entry t (cell i) j.
Proof. apply updateBoundaryConditions_rows. Qed.

Section BoundaryWitness.
#[local] Existing Instance demo_problem.

Lemma X3_boundary_rows_witness :
  vget (nthV (RF_cellwise demo_updated) 1) 0 = RF_sigma_entry 7%Z (cell 1) 0
  ∧ vget (nthV (RF_cellwise demo_updated) 1) (nVar * (k + 1) + 0) = RF_u_entry 7%Z (cell 1) 0.
Proof.
  apply (X3_boundary_rows (P := demo_problem) 7%Z demo_solver demo_updated 1 0).
  - vm_compute. lia.
  - vm_compute. reflexivity.
  - vm_compute. lia.
  - vm_compute. lia.
  - vm_compute. reflexivity.
  - vm_compute. lia.
Defined.

End BoundaryWitness.

Section DegreeZero.
Context {S : Scalar} {P : Problem}.

Lemma ofoldl_None {A B : Type} (f : A → B → option A) (l : list B) (x : B) (a : A) :
  x ∈ l → (∀ a, f a x = None) → ofoldl f a l = None.
Proof.
  intros Hx Hf. revert a. induction l as [|y l IH]; intros a.
  - by apply elem_of_nil in Hx.
  - simpl. apply elem_of_cons in Hx as [<-|Hx].
    + rewrite Hf. reflexivity.
    + destruct (f a y) as [a'|]; simpl; [apply IH, Hx | reflexivity].
Qed.

(** With degree zero the index [j%k+1] of the upper Dirichlet loop is a
    remainder by zero. *)
Lemma fill_RF_degree_zero t I (rf : Vec) :
  k = 0 → 0 < nVar → upperDirichlet I = true → fill_RF t I rf = None.
Proof.
  intros Hk Hn Hu. unfold fill_RF. rewrite Hu.
  apply (ofoldl_None _ _ 0).
  - apply elem_of_seq0. lia.
  - intros a. unfold upper_sigma_index. rewrite Hk. reflexivity.
Qed.

(** X4: with polynomial degree [k = 0] and a Dirichlet condition at the
    upper boundary, the boundary loops take a remainder by zero: the
    behaviour of [updateBoundaryConditions], of [initialiseMatrices] and of
    every residual evaluation is undefined. *)
Theorem X4_degree_zero_undefined un t s (Y dydt resval : Vec) (w : World) i :
  k = 0 → 0 < nVar → i < nCells → upperDirichlet (cell i) = true →
  updateBoundaryConditions t s = None
  ∧ initialiseMatrices un s = None
  ∧ residual t Y dydt resval s w = None.
Proof.
  intros Hk Hn Hi Hu.
  assert (H1 : updateBoundaryConditions t s = None).
  { unfold updateBoundaryConditions.
    rewrite (ofoldl_None _ _ i); [reflexivity | by apply elem_of_seq0 |].
    intros [RF L]. rewrite fill_RF_degree_zero by done. reflexivity. }
  repeat split; [exact H1 | |].
  - unfold initialiseMatrices.
    rewrite (ofoldl_None _ _ i); [reflexivity | by apply elem_of_seq0 |].
    intros [[[s1 C] E] HG]. unfold init_cell.
    destruct (CE_fill (cell i) C E) as [C' E'].
    rewrite fill_RF_degree_zero by done. reflexivity.
  - unfold residual. rewrite H1. reflexivity.
Qed.

End DegreeZero.

Lemma X4_degree_zero_undefined_witness :
  updateBoundaryConditions (P := degree0_problem) 7%Z fresh_solver = None
  ∧ initialiseMatrices (P := degree0_problem) (zero_garbage (P := degree0_problem))
                       fresh_solver = None
  ∧ residual (P := degree0_problem) 7%Z [] [] [] fresh_solver empty_world = None.
Proof.
  apply (X4_degree_zero_undefined (P := degree0_problem) _ _ _ _ _ _ _ 1).
  - reflexivity.
  - vm_compute. lia.
  - vm_compute. lia.
  - vm_compute. reflexivity.
Defined.

Section NeumannData.
Context {S : Scalar} {P : Problem}.

Lemma face_index_inj v v' a b :
  a ≤ nCells → b ≤ nCells → v * (nCells + 1) + a = v' * (nCells + 1) + b → v = v' ∧ a = b.
Proof.
  intros Ha Hb E. destruct (Nat.lt_trichotomy v v') as [Hlt|[->|Hlt]].
  - assert ((v + 1) * (nCells + 1) ≤ v' * (nCells + 1)) by (apply Nat.mul_le_mono_r; lia). lia.
  - lia.
  - assert ((v' + 1) * (nCells + 1) ≤ v * (nCells + 1)) by (apply Nat.mul_le_mono_r; lia). lia.
Qed.

(** What one turn of the loop over the cells does to an entry of [L]. *)
Lemma fill_L_entry t i I (L : Vec) v j :
  i < nCells → v < nVar → j ≤ nCells → length L = nVar * (nCells + 1) →
  vget (fill_L t i I L) (v * (nCells + 1) + j)
  = let a := vget L (v * (nCells + 1) + j) in
    let a := if lowerNeumann I && (j =? i) then (a + g_N BCs (LowerBound BCs) t)%S else a in
    if upperNeumann I && (j =? i + 1) then (a + g_N BCs (UpperBound BCs) t)%S else a.
Proof.
  intros Hi Hv Hj Hlen. unfold fill_L. cbv zeta.
  set (idx := v * (nCells + 1) + j).
  set (step := λ (L : Vec) var,
         let L := if lowerNeumann I
                  then vadd_at L (var * (nCells + 1) + i) (g_N BCs (LowerBound BCs) t)
                  else L in
         if upperNeumann I
         then vadd_at L (var * (nCells + 1) + i + 1) (g_N BCs (UpperBound BCs) t)
         else L).
  assert (Hidx : idx < nVar * (nCells + 1)).
  { assert ((v + 1) * (nCells + 1) ≤ nVar * (nCells + 1)) by (apply Nat.mul_le_mono_r; lia).
    unfold idx. lia. }
  assert (Hsl : ∀ (L : Vec) var, length (step L var) = length L).
  { intros L' var. unfold step.
    destruct (lowerNeumann I), (upperNeumann I); rewrite ?length_vadd_at; done. }
  assert (H : ∀ m, m ≤ nVar →
            length (foldl step L (seq 0 m)) = nVar * (nCells + 1)
            ∧ vget (foldl step L (seq 0 m)) idx
              = if decide (v < m)
                then (let a := vget L idx in
                      let a := if lowerNeumann I && (j =? i)
                               then (a + g_N BCs (LowerBound BCs) t)%S else a in
                      if upperNeumann I && (j =? i + 1)
                      then (a + g_N BCs (UpperBound BCs) t)%S else a)
                else vget L idx).
  { induction m as [|m IH]; intros Hm.
    - split; [done|]. rewrite decide_False by lia. done.
    - destruct IH as [IHl IHv]; [lia|]. rewrite foldl_seq_S. split; [by rewrite Hsl|].
      set (L' := foldl step L (seq 0 m)) in *. unfold step. cbv zeta.
      destruct (decide (m = v)) as [->|Hne].
      + rewrite decide_False in IHv by lia. rewrite decide_True by lia.
        destruct (lowerNeumann I), (upperNeumann I); simpl;
          rewrite ?vget_vadd_at, ?length_vadd_at, ?IHl;
          destruct (Nat.eqb_spec j i), (Nat.eqb_spec j (i + 1)); subst;
          repeat case_decide; try lia; rewrite ?IHv; try reflexivity;
          unfold idx in *; try lia.
      + assert (Hne1 : m * (nCells + 1) + i ≠ idx).
        { unfold idx. intros E. apply face_index_inj in E; lia. }
        assert (Hne2 : m * (nCells + 1) + i + 1 ≠ idx).
        { unfold idx. intros E. rewrite <- Nat.add_assoc in E.
          apply face_index_inj in E; lia. }
        destruct (lowerNeumann I), (upperNeumann I); simpl;
          rewrite ?vget_vadd_at; repeat (rewrite decide_False by lia); rewrite IHv;
          repeat case_decide; try lia; reflexivity. }
  destruct (H nVar ltac:(lia)) as [_ Hv']. fold step. rewrite Hv', decide_True by lia.
  reflexivity.
Qed.

Lemma L_loop_entry t (L0 : Vec) n v j :
  n ≤ nCells → v < nVar → j ≤ nCells → length L0 = nVar * (nCells + 1) →
  vget L0 (v * (nCells + 1) + j) = 0%S →
  vget (L_loop t L0 (seq 0 n)) (v * (nCells + 1) + j)
  = let a := if (0 <? j) && (j - 1 <? n) && upperNeumann (cell (j - 1))
             then (0 + g_N BCs (UpperBound BCs) t)%S else 0%S in
    if (j <? n) && lowerNeumann (cell j)
    then (a + g_N BCs (LowerBound BCs) t)%S else a.
Proof.
  intros Hn Hv Hj Hlen H0. induction n as [|n IH].
  - simpl. rewrite H0, ?andb_false_r. destruct (0 <? j); reflexivity.
  - unfold L_loop in *. rewrite foldl_seq_S.
    rewrite fill_L_entry; [| lia | done | done |].
    2:{ rewrite foldl_length_inv; [done|]. intros. apply fill_L_length. }
    rewrite IH by lia. cbv zeta.
    destruct (Nat.eqb_spec j n) as [Ejn|Hjn], (Nat.eqb_spec j (n + 1)) as [Ejn1|Hjn1];
      try lia; rewrite ?andb_true_r, ?andb_false_r.
    + subst j. replace (n <? n) with false by (symmetry; apply Nat.ltb_ge; lia).
      replace (n <? Datatypes.S n) with true by (symmetry; apply Nat.ltb_lt; lia).
      replace (n - 1 <? Datatypes.S n) with true by (symmetry; apply Nat.ltb_lt; lia).
      destruct (0 <? n) eqn:E0; simpl.
      * replace (n - 1 <? n) with true
          by (symmetry; apply Nat.ltb_lt; apply Nat.ltb_lt in E0; lia).
        reflexivity.
      * reflexivity.
    + subst j. replace (n + 1 <? n) with false by (symmetry; apply Nat.ltb_ge; lia).
      replace (n + 1 <? Datatypes.S n) with false by (symmetry; apply Nat.ltb_ge; lia).
      replace (n + 1 - 1 <? n) with false by (symmetry; apply Nat.ltb_ge; lia).
      replace (n + 1 - 1 <? Datatypes.S n) with true by (symmetry; apply Nat.ltb_lt; lia).
      replace (0 <? n + 1) with true by (symmetry; apply Nat.ltb_lt; lia).
      replace (n + 1 - 1) with n by lia. simpl.
      destruct (upperNeumann (cell n)); reflexivity.
    + assert (E1 : (j <? Datatypes.S n) = (j <? n)).
      { destruct (Nat.ltb_spec j n), (Nat.ltb_spec j (Datatypes.S n)); try done; lia. }
      assert (E2 : (0 <? j) && (j - 1 <? Datatypes.S n) = (0 <? j) && (j - 1 <? n)).
      { destruct (Nat.ltb_spec 0 j); simpl; [|done].
        destruct (Nat.ltb_spec (j - 1) n), (Nat.ltb_spec (j - 1) (Datatypes.S n));
          try done; lia. }
      rewrite E1, E2. reflexivity.
Qed.

(** X5: after [updateBoundaryConditions(t)] the trace right-hand side
    [L_global] holds, for every variable alike, the Neumann datum of the
    lower boundary at the lower face of a cell that begins at a Neumann
    lower boundary, the one of the upper boundary at the upper face of a
    cell that ends at a Neumann upper boundary, and zero elsewhere,
    whatever it held before. *)
Theorem X5_neumann_data t s s' v j :
  length (L_global s) = nVar * (nCells + 1) →
  updateBoundaryConditions t s = Some s' →
  v < nVar → j ≤ nCells →
  vget (L_global s') (v * (nCells + 1) + j) = L_entry t j.
Proof.
  intros Hlen. rewrite updateBoundaryConditions_eq.
  destruct (RF_loop t (RF_cellwise s) (seq 0 nCells)) as [RF|]; simpl; [|discriminate].
  intros [= <-] Hv Hj. simpl.
  rewrite L_loop_entry; [| lia | done | done | by rewrite length_vsetZero | apply vget_vsetZero].
  unfold L_entry. cbv zeta.
  destruct (Nat.ltb_spec 0 j) as [H0|H0]; simpl; [|reflexivity].
  replace (j - 1 <? nCells) with true by (symmetry; apply Nat.ltb_lt; lia). reflexivity.
Qed.

End NeumannData.

Lemma X5_neumann_data_witness :
  vget (L_global demo_updated) (0 * (nCells (Problem := demo_problem) + 1) + 0)
  = L_entry (P := demo_problem) 7%Z 0.
Proof.
  apply (X5_neumann_data (P := demo_problem) 7%Z demo_solver demo_updated 0 0).
  - vm_compute. reflexivity.
  - vm_compute. reflexivity.
  - vm_compute. lia.
  - vm_compute. lia.
Defined.

(** ** The matrices of [initialiseMatrices] *)

Section InitLists.
Context {S : Scalar} {P : Problem}.

Lemma foldl_pair {A B X : Type} (fa : A → X → A) (fb : B → X → B) (l : list X) (a : A) (b : B) :
  foldl (λ '(a, b) x, (fa a x, fb b x)) (a, b) l = (foldl fa a l, foldl fb b l).
Proof.
  revert a b. induction l as [|x l IH]; intros a b; simpl; [reflexivity | apply IH].
Qed.

Lemma H_fill_eq i I (HG : Mat) : H_fill i I HG = (H_cell I, HG_step i I HG).
Proof. unfold H_fill, H_cell, HG_step. apply foldl_pair. Qed.

Lemma CE_after_S (C E : Mat) n :
  CE_after C E (Datatypes.S n)
  = CE_fill (cell n) (CE_after C E n).1 (CE_after C E n).2.
Proof.
  unfold CE_after. rewrite foldl_seq_S.
  destruct (foldl _ (C, E) (seq 0 n)) as [C' E']. reflexivity.
Qed.

(** The lists of a solver whose cell-wise vectors have been cleared,
    after the first [n] turns of the loop over the cells. *)
Lemma init_loop_lists un n s C E HG s' C' E' HG' :
  CG_cellwise s = [] → RF_cellwise s = [] →
  ofoldl (init_cell un) (s, C, E, HG) (seq 0 n) = Some (s', C', E', HG') →
  (C', E') = CE_after C E n
  ∧ HG' = HG_loop HG n
  ∧ A_cellwise s' = A_cellwise s ++ ((λ i, A_cell (cell i)) <$> seq 0 n)
  ∧ B_cellwise s' = B_cellwise s ++ ((λ i, B_cell (cell i)) <$> seq 0 n)
  ∧ D_cellwise s' = D_cellwise s ++ ((λ i, D_cell (cell i)) <$> seq 0 n)
  ∧ G_cellwise s' = G_cellwise s ++ ((λ i, G_cell (cell i)) <$> seq 0 n)
  ∧ H_cellwise s' = H_cellwise s ++ ((λ i, H_cell (cell i)) <$> seq 0 n)
  ∧ XMats s' = XMats s ++ ((λ i, X_cell un i (cell i)) <$> seq 0 n)
  ∧ C_cellwise s' = C_cellwise s ++ ((λ i, (CE_after C E (i + 1)).1) <$> seq 0 n)
  ∧ E_cellwise s' = E_cellwise s ++ ((λ i, (CE_after C E (i + 1)).2) <$> seq 0 n)
  ∧ CEBlocks s' = CEBlocks s
                  ++ ((λ i, CE_vec_of (CE_after C E (i + 1)).1 (CE_after C E (i + 1)).2)
                        <$> seq 0 n)
  ∧ CG_cellwise s' = (λ i, CG_of (CE_after C E (i + 1)).1 (G_cell (cell i))) <$> seq 0 n
  ∧ length (RF_cellwise s') = n
  ∧ (∀ i, i < n → ∃ rf, RF_cellwise s' !! i = Some rf
                        ∧ fill_RF 0%S (cell i) (vzero (nVar * 2 * (k + 1))) = Some rf).
Proof.
  intros HCG HRF. revert s' C' E' HG'. induction n as [|n IH]; intros s' C' E' HG'.
  - simpl. intros [= <- <- <- <-]. rewrite !app_nil_r, HCG, HRF.
    repeat split; try done. intros i Hi. lia.
  - rewrite ofoldl_seq_S. unfold HG_loop. rewrite !seq_S, !fmap_app, foldl_app.
    fold (HG_loop HG n).
    destruct (ofoldl (init_cell un) (s, C, E, HG) (seq 0 n)) as [[[[s1 C1] E1] HG1]|];
      [cbn [mbind option_bind] | discriminate].
    destruct (IH _ _ _ _ eq_refl)
      as (HCE & HHG & HA & HB & HD & HG_ & HH & HX & HC & HE & HCEB & HCG1 & HRl & HRF1).
    unfold init_cell. rewrite H_fill_eq.
    destruct (CE_fill (cell n) C1 E1) as [C2 E2] eqn:ECE.
    assert (HCE2 : CE_after C E (n + 1) = (C2, E2)).
    { rewrite Nat.add_1_r, CE_after_S, <- HCE. simpl. exact ECE. }
    assert (Hlook : (RF_cellwise s1 ++ [vzero (nVar * 2 * (k + 1))]) !! n
                    = Some (vzero (nVar * 2 * (k + 1)))).
    { rewrite lookup_app_r by lia. rewrite HRl, Nat.sub_diag. reflexivity. }
    rewrite Hlook. simpl.
    destruct (fill_RF 0%S (cell n) (vzero (nVar * 2 * (k + 1)))) as [rf|] eqn:Erf;
      [cbn [mbind option_bind] | discriminate].
    intros [= <- <- <- <-]. simpl.
    rewrite HA, HB, HD, HG_, HH, HX, HC, HE, HCEB, HCG1.
    rewrite !app_assoc. simpl. rewrite HCE2. simpl.
    repeat split; try done.
    + rewrite CE_after_S, <- HCE. simpl. symmetry. exact ECE.
    + rewrite HHG. reflexivity.
    + apply list_eq. intros i.
      destruct (decide (i = n)) as [->|Hne].
      * rewrite list_lookup_alter_eq, !lookup_app_r by (rewrite length_fmap, length_seq; lia).
        rewrite length_fmap, length_seq, Nat.sub_diag. reflexivity.
      * rewrite list_lookup_alter_ne by done.
        destruct (decide (i < n)) as [Hlt|Hge].
        -- rewrite !lookup_app_l by (rewrite length_fmap, length_seq; lia). reflexivity.
        -- rewrite !lookup_ge_None_2; [done | |];
             rewrite length_app, length_fmap, length_seq; simpl; lia.
    + rewrite length_insert, length_app, HRl. simpl. lia.
    + intros i Hi. destruct (decide (i = n)) as [->|Hne].
      * exists rf. split; [|done]. apply list_lookup_insert_eq.
        rewrite length_app, HRl. simpl. lia.
      * rewrite list_lookup_insert_ne by done. rewrite lookup_app_l by lia.
        apply HRF1. lia.
Qed.

End InitLists.

Section InitResult.
Context {S : Scalar} {P : Problem}.

(** The solver that [initialiseMatrices] leaves. *)
Lemma initialiseMatrices_lists un s0 s :
  initialiseMatrices un s0 = Some s →
  let CE := CE_after (C_uninit un) (E_uninit un) in
  let m := nVar * (nCells + 1) in
  H_global s = HG_loop (mzero m m) nCells
  ∧ H_global_mat s = HG_loop (mzero m m) nCells
  ∧ A_cellwise s = (λ i, A_cell (cell i)) <$> seq 0 nCells
  ∧ B_cellwise s = (λ i, B_cell (cell i)) <$> seq 0 nCells
  ∧ D_cellwise s = D_cellwise s0 ++ ((λ i, D_cell (cell i)) <$> seq 0 nCells)
  ∧ G_cellwise s = (λ i, G_cell (cell i)) <$> seq 0 nCells
  ∧ H_cellwise s = (λ i, H_cell (cell i)) <$> seq 0 nCells
  ∧ XMats s = (λ i, X_cell un i (cell i)) <$> seq 0 nCells
  ∧ C_cellwise s = (λ i, (CE (i + 1)).1) <$> seq 0 nCells
  ∧ E_cellwise s = (λ i, (CE (i + 1)).2) <$> seq 0 nCells
  ∧ CEBlocks s = CEBlocks s0 ++ ((λ i, CE_vec_of (CE (i + 1)).1 (CE (i + 1)).2) <$> seq 0 nCells)
  ∧ CG_cellwise s = (λ i, CG_of (CE (i + 1)).1 (G_cell (cell i))) <$> seq 0 nCells
  ∧ length (RF_cellwise s) = nCells
  ∧ (∀ i, i < nCells → ∃ rf, RF_cellwise s !! i = Some rf
                             ∧ fill_RF 0%S (cell i) (vzero (nVar * 2 * (k + 1))) = Some rf)
  ∧ initialised s = true.
Proof.
  unfold initialiseMatrices.
  destruct (ofoldl _ _ (seq 0 nCells)) as [[[[s1 C1] E1] HG1]|] eqn:E; simpl; [|discriminate].
  intros [= <-].
  destruct (λ H1 H2, init_loop_lists _ _ _ _ _ _ _ _ _ _ H1 H2 E)
    as (HCE & HHG & HA & HB & HD & HG_ & HH & HX & HC & HE & HCEB & HCG1 & HRl & HRF1).
  { reflexivity. }
  { reflexivity. }
  simpl in *. rewrite HHG, HA, HB, HD, HG_, HH, HX, HC, HE, HCEB, HCG1. done.
Qed.

End InitResult.

(** ** Initialisation and the boundary update *)

Section InitThenUpdate.
Context {S : Scalar} {P : Problem}.

(** A loop over forcing vectors that are already those of time [t]. *)
Lemma RF_loop_fixed t (RF : list Vec) n :
  n ≤ length RF →
  (∀ i, i < n → ∃ rf len, RF !! i = Some rf ∧ fill_RF t (cell i) (vzero len) = Some rf) →
  RF_loop t RF (seq 0 n) = Some RF.
Proof.
  intros Hn H. unfold RF_loop. induction n as [|n IH]; [reflexivity|].
  rewrite ofoldl_seq_S, IH; [| lia | intros i Hi; apply H; lia].
  cbn [mbind option_bind].
  destruct (H n ltac:(lia)) as (rf & len & Hrf & Hfill). rewrite Hrf. simpl.
  rewrite (fill_RF_length_dep t (cell n) rf (vzero len)).
  - rewrite Hfill. simpl. rewrite list_insert_id by done. reflexivity.
  - apply (fill_RF_length _ _ _ _ Hfill).
Qed.

(** X6: the boundary data that [initialiseMatrices] stores are those of
    time zero: [updateBoundaryConditions(0)] leaves a solver that has just
    been initialised as it is. *)
Theorem X6_update_at_zero_after_init un s0 s :
  initialiseMatrices un s0 = Some s →
  updateBoundaryConditions 0%S s = Some s.
Proof.
  intros Hinit. rewrite updateBoundaryConditions_eq.
  destruct (initialiseMatrices_lists _ _ _ Hinit)
    as (_ & _ & _ & _ & _ & _ & _ & _ & _ & _ & _ & _ & HRl & HRF & _).
  destruct (initialiseMatrices_fields _ _ _ Hinit) as [_ HL].
  destruct (initialiseMatrices_spec _ _ _ Hinit) as (_ & _ & _ & HLl).
  rewrite RF_loop_fixed; [| lia |].
  2:{ intros i Hi. destruct (HRF i Hi) as (rf & H1 & H2). eauto. }
  cbn [mbind option_bind]. f_equal.
  assert (HZ : vsetZero (L_global s) = vzero (nVar * (nCells + 1))).
  { apply vec_ext; [rewrite length_vsetZero, length_vzero; done|].
    intros i _. rewrite vget_vsetZero, vget_vzero. done. }
  rewrite HZ, <- HL. destruct s. reflexivity.
Qed.

End InitThenUpdate.

Lemma X6_update_at_zero_after_init_witness :
  updateBoundaryConditions (P := demo_problem) 0%Z demo_solver = Some demo_solver.
Proof.
  apply (X6_update_at_zero_after_init (P := demo_problem) (zero_garbage (P := demo_problem))
           fresh_solver).
  vm_compute. reflexivity.
Defined.

(** ** The work matrices [C] and [E] *)

Section Tiles.
Context {S : Scalar}.

Lemma div_range h m r : 0 < h → (m * h ≤ r < m * h + h) ↔ r / h = m.
Proof.
  intros Hh. split.
  - intros H. symmetry. apply (Nat.div_unique r h m (r - m * h)); lia.
  - intros <-. pose proof (Nat.div_mod_eq r h). pose proof (Nat.mod_upper_bound r h). lia.
Qed.

Lemma sub_div_mod h r : r - r / h * h = r mod h.
Proof. pose proof (Nat.div_mod_eq r h). lia. Qed.

(** A matrix whose diagonal blocks are assigned one after the other:
    the entries outside the diagonal blocks stay as they were. *)
Lemma mget_tile (M B : Mat) rows cols h w n r c :
  0 < h → 0 < w → mdims M rows cols → r < rows → c < cols →
  mget (foldl (λ M var, set_block M (var * h) (var * w) h w B) M (seq 0 n)) r c
  = if decide (r / h = c / w ∧ r / h < n) then mget B (r mod h) (c mod w) else mget M r c.
Proof.
  intros Hh Hw HM Hr Hc.
  assert (H : mdims (foldl (λ M var, set_block M (var * h) (var * w) h w B) M (seq 0 n))
                    rows cols
              ∧ mget (foldl (λ M var, set_block M (var * h) (var * w) h w B) M (seq 0 n)) r c
                = if decide (r / h = c / w ∧ r / h < n)
                  then mget B (r mod h) (c mod w) else mget M r c).
  { induction n as [|n [IHd IHg]].
    - split; [done|]. rewrite decide_False by lia. done.
    - rewrite foldl_seq_S. split; [by apply mdims_set_block|].
      rewrite (mget_set_block _ rows cols) by done. rewrite IHg.
      pose proof (div_range h n r Hh) as H1. pose proof (div_range w n c Hw) as H2.
      destruct (decide (n * h ≤ r < n * h + h ∧ n * w ≤ c < n * w + w)) as [[Ha Hb]|Hn].
      + apply H1 in Ha. apply H2 in Hb. rewrite decide_True by lia.
        assert (r - n * h = r mod h) as -> by (rewrite <- Ha; apply sub_div_mod).
        assert (c - n * w = c mod w) as -> by (rewrite <- Hb; apply sub_div_mod).
        done.
      + repeat case_decide; try done; try lia.
        all: exfalso; apply Hn; split; [apply H1 | apply H2]; lia. }
  apply H.
Qed.

Lemma mdims_tile (M B : Mat) rows cols h w n :
  mdims M rows cols →
  mdims (foldl (λ M var, set_block M (var * h) (var * w) h w B) M (seq 0 n)) rows cols.
Proof. intros HM. apply mdims_foldl_inv; [|done]. intros. by apply mdims_set_block. Qed.

End Tiles.

Section WorkMatrices.
Context {S : Scalar} {P : Problem}.

Lemma CE_fill_eq I (C E : Mat) :
  CE_fill I C E
  = (foldl (λ C var, set_block C (var * 2) (var * (k + 1)) 2 (k + 1) (CEvar_of I).1)
           C (seq 0 nVar),
     foldl (λ E var, set_block E (var * (k + 1)) (var * 2) (k + 1) 2 (CEvar_of I).2)
           E (seq 0 nVar)).
Proof.
  unfold CE_fill. destruct (CEvar_of I) as [Cvar Evar]. simpl. apply foldl_pair.
Qed.

(** The work matrices after [n] cells: their diagonal blocks are those
    of the last cell, the rest is what the memory held. *)
Lemma CE_after_entries (C E : Mat) n :
  mdims C (2 * nVar) (nVar * (k + 1)) → mdims E (nVar * (k + 1)) (2 * nVar) →
  mdims (CE_after C E n).1 (2 * nVar) (nVar * (k + 1))
  ∧ mdims (CE_after C E n).2 (nVar * (k + 1)) (2 * nVar)
  ∧ (∀ r c, r < 2 * nVar → c < nVar * (k + 1) →
       mget (CE_after C E n).1 r c
       = if decide (r / 2 = c / (k + 1) ∧ 0 < n)
         then mget (CEvar_of (cell (n - 1))).1 (r mod 2) (c mod (k + 1))
         else mget C r c)
  ∧ (∀ r c, r < nVar * (k + 1) → c < 2 * nVar →
       mget (CE_after C E n).2 r c
       = if decide (r / (k + 1) = c / 2 ∧ 0 < n)
         then mget (CEvar_of (cell (n - 1))).2 (r mod (k + 1)) (c mod 2)
         else mget E r c).
Proof.
  intros HC HE. induction n as [|n (IHC & IHE & IHc & IHe)].
  - unfold CE_after. simpl. split; [done|split; [done|split]];
      intros r c _ _; rewrite decide_False by lia; done.
  - rewrite CE_after_S, CE_fill_eq. cbn [fst snd].
    replace (Datatypes.S n - 1) with n by lia.
    assert (Hdiv : ∀ r, r < 2 * nVar → r / 2 < nVar).
    { intros r Hr. apply Nat.Div0.div_lt_upper_bound. lia. }
    assert (Hdiv' : ∀ c, c < nVar * (k + 1) → c / (k + 1) < nVar).
    { intros c Hc. apply Nat.Div0.div_lt_upper_bound. lia. }
    split; [|split; [|split]].
    + by apply mdims_tile.
    + by apply mdims_tile.
    + intros r c Hr Hc.
      rewrite (mget_tile _ _ (2 * nVar) (nVar * (k + 1))) by (done || lia).
      rewrite IHc by done. specialize (Hdiv r Hr).
      repeat case_decide; try done; try lia.
    + intros r c Hr Hc.
      rewrite (mget_tile _ _ (nVar * (k + 1)) (2 * nVar)) by (done || lia).
      rewrite IHe by done. specialize (Hdiv' r Hr).
      repeat case_decide; try done; try lia.
Qed.

(** X7: the work matrices [C] and [E] of [initialiseMatrices] are
    allocated without being set to zero, and only their diagonal blocks
    (one per variable) are assigned: with more than one variable the
    entries of [C_cellwise[i]], of the [C] part of [CG_cellwise[i]] and of
    [E_cellwise[i]] that couple different variables are whatever the
    memory held. *)
Theorem X7_cross_blocks_unassigned un s0 s i r c :
  initialiseMatrices un s0 = Some s →
  mdims (C_uninit un) (2 * nVar) (nVar * (k + 1)) →
  mdims (E_uninit un) (nVar * (k + 1)) (2 * nVar) →
  i < nCells → r < 2 * nVar → c < nVar * (k + 1) →
  mget (nthM (C_cellwise s) i) r c
  = (if decide (r / 2 = c / (k + 1))
     then mget (CEvar_of (cell i)).1 (r mod 2) (c mod (k + 1))
     else mget (C_uninit un) r c)
  ∧ mget (nthM (CG_cellwise s) i) r c = mget (nthM (C_cellwise s) i) r c
  ∧ mget (nthM (E_cellwise s) i) c r
    = (if decide (c / (k + 1) = r / 2)
       then mget (CEvar_of (cell i)).2 (c mod (k + 1)) (r mod 2)
       else mget (E_uninit un) c r).
Proof.
  intros Hinit HC HE Hi Hr Hc.
  destruct (initialiseMatrices_lists _ _ _ Hinit)
    as (_ & _ & _ & _ & _ & _ & _ & _ & HCl & HEl & _ & HCG & _).
  cbv zeta in HCl, HEl, HCG.
  destruct (CE_after_entries (C_uninit un) (E_uninit un) (i + 1) HC HE)
    as (Hd1 & Hd2 & Hc1 & He1).
  assert (HC' : nthM (C_cellwise s) i = (CE_after (C_uninit un) (E_uninit un) (i + 1)).1).
  { unfold nthM. rewrite HCl, list_lookup_fmap, lookup_seq_lt by done. reflexivity. }
  assert (HE' : nthM (E_cellwise s) i = (CE_after (C_uninit un) (E_uninit un) (i + 1)).2).
  { unfold nthM. rewrite HEl, list_lookup_fmap, lookup_seq_lt by done. reflexivity. }
  assert (HCG' : nthM (CG_cellwise s) i
                 = CG_of (CE_after (C_uninit un) (E_uninit un) (i + 1)).1 (G_cell (cell i))).
  { unfold nthM. rewrite HCG, list_lookup_fmap, lookup_seq_lt by done. reflexivity. }
  rewrite HC', HE', HCG'.
  replace (i + 1 - 1) with i in * by lia.
  split; [|split].
  - rewrite Hc1 by done. repeat case_decide; try done; lia.
  - unfold CG_of. cbv zeta.
    assert (Hr' : r < 2 * nVar) by done.
    assert (Hc' : c < 3 * (nVar * (k + 1))) by lia.
    repeat (erewrite (mget_set_block _ (2 * nVar) (3 * (nVar * (k + 1))));
            [| eauto 20 with mdims | done | done]).
    repeat case_decide; try lia. f_equal; lia.
  - rewrite He1 by done. repeat case_decide; try done; lia.
Qed.

(** X8: [initialiseMatrices] rebuilds the cell-wise lists with one entry
    per cell, except [D_cellwise] and [CEBlocks], which
    [clearCellwiseVecs] leaves alone: every call appends [nCells] entries
    to these two, behind the entries of the calls before. *)
Theorem X8_reinitialise_appends un s0 s :
  initialiseMatrices un s0 = Some s →
  (length (A_cellwise s) = nCells ∧ length (B_cellwise s) = nCells
   ∧ length (C_cellwise s) = nCells ∧ length (E_cellwise s) = nCells
   ∧ length (G_cellwise s) = nCells ∧ length (H_cellwise s) = nCells
   ∧ length (XMats s) = nCells ∧ length (MBlocks s) = nCells
   ∧ length (CG_cellwise s) = nCells ∧ length (RF_cellwise s) = nCells)
  ∧ D_cellwise s = D_cellwise s0 ++ ((λ i, D_cell (cell i)) <$> seq 0 nCells)
  ∧ ∃ new, CEBlocks s = CEBlocks s0 ++ new ∧ length new = nCells.
Proof.
  intros Hinit.
  destruct (initialiseMatrices_lists _ _ _ Hinit)
    as (_ & _ & HA & HB & HD & HG & HH & HX & HC & HE & HCEB & HCG & HRl & _).
  destruct (initialiseMatrices_spec _ _ _ Hinit) as (HM & _).
  cbv zeta in *. rewrite HA, HB, HG, HH, HX, HC, HE, HCG, HM, HRl.
  rewrite !length_fmap, !length_seq. repeat split; try done.
  eexists. split; [exact HCEB|]. rewrite length_fmap, length_seq. done.
Qed.

End WorkMatrices.

Lemma X7_cross_blocks_unassigned_witness :
  mget (nthM (C_cellwise two_channel_solver) 0) 0 2 = 9%Z.
Proof.
  destruct (X7_cross_blocks_unassigned (P := two_channel_problem)
              (nines (P := two_channel_problem)) fresh_solver two_channel_solver 0 0 2)
    as (H & _).
  - vm_compute. reflexivity.
  - vm_compute. repeat constructor.
  - vm_compute. repeat constructor.
  - vm_compute. lia.
  - vm_compute. lia.
  - vm_compute. lia.
  - rewrite H. vm_compute. reflexivity.
Defined.

Lemma X8_reinitialise_appends_witness :
  length (D_cellwise demo_solver_again) = 4.
Proof.
  destruct (X8_reinitialise_appends (P := demo_problem) (zero_garbage (P := demo_problem))
              demo_solver demo_solver_again) as (_ & H & _).
  - vm_compute. reflexivity.
  - rewrite H. vm_compute. reflexivity.
Defined.

(** ** The trace matrix *)

Section TraceMatrix.
Context {S : Scalar} {SR : ScalarRing S} {P : Problem}.
Add Ring scalar_ring_TraceMatrix : scalar_ring.

Lemma mget_Hvar_of I a b :
  mget (Hvar_of I) a b
  = match a, b with
    | 0, 0 => if lowerDirichlet I then 0%S else (- c_fn (x_l I) - tau (x_l I))%S
    | 1, 1 => if upperDirichlet I then 0%S else (c_fn (x_u I) - tau (x_u I))%S
    | _, _ => 0%S
    end.
Proof.
  unfold Hvar_of, mget, vget. destruct a as [|[|a]], b as [|[|b]]; reflexivity.
Qed.

(** The matrix that [initialiseMatrices] factorises for the trace
    equation, entry by entry. *)
Lemma HG_loop_entries r c :
  let m := nVar * (nCells + 1) in
  r < m → c < m →
  mdims (HG_loop (mzero m m) nCells) m m
  ∧ mget (HG_loop (mzero m m) nCells) r c
    = if decide (r = c) then H_face (r mod (nCells + 1)) else 0%S.
Proof.
  intros m Hr Hc.
  pose proof (additive2_foldl m m
    (λ i HG, HG_step i (cell i) HG)
    (λ i r c, ssum nVar (λ var,
       if decide ((var * (nCells + 1) + i ≤ r < var * (nCells + 1) + i + 2)
                  ∧ (var * (nCells + 1) + i ≤ c < var * (nCells + 1) + i + 2))
       then mget (Hvar_of (cell i)) (r - (var * (nCells + 1) + i))
                 (c - (var * (nCells + 1) + i))
       else 0%S))
    nCells) as Hadd.
  destruct (Hadd (λ i _, additive2_foldl m m
              (λ var HG, add_block HG (var * (nCells + 1) + i) (var * (nCells + 1) + i) 2 2
                                   (Hvar_of (cell i)))
              _ nVar (λ var _, additive2_add_block m m _ _ 2 2 _))
              (mzero m m) (mdims_mzero m m)) as [Hd Hget].
  split; [exact Hd|].
  unfold HG_loop. rewrite Hget by done. rewrite mget_mzero.
  destruct (face_cases r Hr) as (v & j & Hv & Hj & ->).
  destruct (face_cases c Hc) as (v' & j' & Hv' & Hj' & ->).
  rewrite face_mod by done.
  rewrite (face_sum2 (λ i var a b, mget (Hvar_of (cell i)) a b) v j v' j' Hv Hj Hv' Hj').
  unfold H_face.
  destruct (decide (v = v')) as [<-|Hne].
  - destruct (decide (j = j')) as [<-|Hjj].
    + rewrite (decide_True (P := v * (nCells + 1) + j = v * (nCells + 1) + j)) by done.
      replace (j - j) with 0 by lia.
      destruct (decide (j < nCells ∧ j ≤ j ≤ j + 1)) as [H1|H1],
               (decide (0 < j ∧ j - 1 ≤ j ≤ j)) as [H2|H2],
               (decide (j < nCells)) as [H3|H3], (decide (0 < j)) as [H4|H4]; try lia;
        try (replace (j - (j - 1)) with 1 by lia); ring.
    + rewrite (decide_False (P := v * (nCells + 1) + j = v * (nCells + 1) + j')) by lia.
      destruct (decide (j < nCells ∧ j ≤ j' ≤ j + 1)) as [H1|H1],
               (decide (0 < j ∧ j - 1 ≤ j' ≤ j)) as [H2|H2]; try lia.
      * replace (j' - j) with 1 by lia. rewrite mget_Hvar_of. ring.
      * replace (j' - (j - 1)) with 0 by lia. rewrite mget_Hvar_of. ring.
      * ring.
  - rewrite (decide_False (P := v * (nCells + 1) + j = v' * (nCells + 1) + j')); [ring|].
    intros E. apply face_index_inj in E; lia.
Qed.

(** X9: the matrix of the trace equation that [initialiseMatrices]
    assembles and factorises is diagonal: the two-by-two blocks of the
    cells have no off-diagonal entries, and the entry of a face is the
    lower-face entry of the cell above it plus the upper-face entry of the
    cell below it, the same for every variable. *)
Theorem X9_trace_matrix_diagonal un s0 s r c :
  initialiseMatrices un s0 = Some s →
  r < nVar * (nCells + 1) → c < nVar * (nCells + 1) →
  H_global s = H_global_mat s
  ∧ mget (H_global_mat s) r c = if decide (r = c) then H_face (r mod (nCells + 1)) else 0%S.
Proof.
  intros Hinit Hr Hc.
  destruct (initialiseMatrices_lists _ _ _ Hinit) as (H1 & H2 & _).
  cbv zeta in H1, H2. rewrite H1, H2. split; [done|].
  apply (HG_loop_entries r c Hr Hc).
Qed.

(** X10: at a face of the global boundary that carries a Dirichlet
    condition the trace matrix has a zero row and a zero column: the
    matrix that [H_global.solve] is called on is singular as soon as one
    boundary is of Dirichlet type. *)
Theorem X10_trace_matrix_singular un s0 s v c :
  initialiseMatrices un s0 = Some s →
  0 < nCells → v < nVar → c < nVar * (nCells + 1) →
  (lowerDirichlet (cell 0) = true →
     mget (H_global s) (v * (nCells + 1)) c = 0%S
     ∧ mget (H_global s) c (v * (nCells + 1)) = 0%S)
  ∧ (upperDirichlet (cell (nCells - 1)) = true →
     mget (H_global s) (v * (nCells + 1) + nCells) c = 0%S
     ∧ mget (H_global s) c (v * (nCells + 1) + nCells) = 0%S).
Proof.
  intros Hinit Hn Hv Hc.
  destruct (initialiseMatrices_lists _ _ _ Hinit) as (H1 & _).
  cbv zeta in H1. rewrite H1.
  assert (Hm : (v + 1) * (nCells + 1) ≤ nVar * (nCells + 1))
    by (apply Nat.mul_le_mono_r; lia).
  assert (Hlo : lowerDirichlet (cell 0) = true → H_face 0 = 0%S).
  { intros E. unfold H_face. rewrite decide_True, decide_False by lia.
    rewrite mget_Hvar_of, E. ring. }
  assert (Hup : upperDirichlet (cell (nCells - 1)) = true → H_face nCells = 0%S).
  { intros E. unfold H_face. rewrite decide_False, decide_True by lia.
    rewrite mget_Hvar_of, E. ring. }
  assert (Hc0 : c mod (nCells + 1) = 0 → ∃ v', c = v' * (nCells + 1)).
  { intros E. exists (c / (nCells + 1)). pose proof (Nat.div_mod_eq c (nCells + 1)). lia. }
  split; intros E; split.
  - destruct (HG_loop_entries (v * (nCells + 1)) c ltac:(lia) Hc) as [_ ->].
    case_decide; [|done]. replace (v * (nCells + 1)) with (v * (nCells + 1) + 0) by lia.
    rewrite face_mod by lia. auto.
  - destruct (HG_loop_entries c (v * (nCells + 1)) Hc ltac:(lia)) as [_ ->].
    case_decide as Ec; [|done]. rewrite Ec.
    replace (v * (nCells + 1)) with (v * (nCells + 1) + 0) by lia.
    rewrite face_mod by lia. auto.
  - destruct (HG_loop_entries (v * (nCells + 1) + nCells) c ltac:(lia) Hc) as [_ ->].
    case_decide; [|done]. rewrite face_mod by lia. auto.
  - destruct (HG_loop_entries c (v * (nCells + 1) + nCells) Hc ltac:(lia)) as [_ ->].
    case_decide as Ec; [|done]. rewrite Ec. rewrite face_mod by lia. auto.
Qed.

End TraceMatrix.

Lemma X9_trace_matrix_diagonal_witness :
  mget (H_global_mat demo_solver) 0 1 = 0%Z.
Proof.
  destruct (X9_trace_matrix_diagonal (P := demo_problem) (zero_garbage (P := demo_problem))
              fresh_solver demo_solver 0 1) as [_ H].
  - vm_compute. reflexivity.
  - vm_compute. lia.
  - vm_compute. lia.
  - rewrite H. reflexivity.
Defined.

Lemma X10_trace_matrix_singular_witness :
  mget (H_global demo_solver) 2 2 = 0%Z.
Proof.
  destruct (X10_trace_matrix_singular (P := demo_problem) (zero_garbage (P := demo_problem))
              fresh_solver demo_solver 0 2) as [_ H].
  - vm_compute. reflexivity.
  - vm_compute. lia.
  - vm_compute. lia.
  - vm_compute. lia.
  - destruct H as [H _]; [vm_compute; reflexivity|]. exact H.
Defined.

(** ** The initial state *)

(** X11: on a solver whose fields are not bound yet,
    [setInitialConditions] puts the projections of the initial data into
    the cell blocks of [Y] and the solution of the assembled trace system
    into its trace block; in [dYdt] it fills the blocks of [u] with
    [-B sigma - D u - E lambda + RF_u - F], the source [F] being projected
    with [q] in the place of [u], and sets every other entry to zero,
    whatever the two arrays held before. *)
Theorem X11_initial_state {S : Scalar} {P : Problem} un u_0 gradu_0 sigma_0
    (Y dYdt : Vec) s r :
  fits32 → 0 < nVar → unbound s →
  length Y = state_length → length dYdt = state_length →
  setInitialConditions un u_0 gradu_0 sigma_0 Y dYdt s = Some r →
  let Y' := ic_Y r in
  let s' := ic_sys r in
  (∀ v i e, v < nVar → i < nCells → e ≤ k →
     vget (coeffs_of Y' 0 v i) e = vget (assign sigma_0 v (cell i)) e
     ∧ vget (coeffs_of Y' 1 v i) e = vget (assign gradu_0 v (cell i)) e
     ∧ vget (coeffs_of Y' 2 v i) e = vget (assign u_0 v (cell i)) e)
  ∧ (∀ v j, v < nVar → j ≤ nCells →
       trace_of Y' v j
       = vget (FullPivLU_solve (H_global s')
                 (CsGuL_assemble s' (coeffs_of Y' 0) (coeffs_of Y' 2)))
              (v * (nCells + 1) + j))
  ∧ (∀ v i e, v < nVar → i < nCells → e ≤ k →
       vget (coeffs_of (ic_dYdt r) 2 v i) e
       = vget (dudt_of s' i v (coeffs_of Y' 0 v i) (coeffs_of Y' 2 v i)
                 [trace_of Y' v i; trace_of Y' v (i + 1)]
                 (F_cellwise_of (cell i) v (DGread Y' (q s')) (DGread Y' (q s')))) e)
  ∧ block_zero (ic_dYdt r) 0 ∧ block_zero (ic_dYdt r) 1 ∧ trace_zero (ic_dYdt r).
Proof. apply setInitialConditions_spec. Qed.

Lemma X11_initial_state_witness :
  ∃ r, source_initial = Some r ∧ trace_zero (P := source_problem) (ic_dYdt r).
Proof.
  assert (H1 : fits32 (P := source_problem)) by (vm_compute; reflexivity).
  assert (H2 : 0 < nVar (Problem := source_problem)) by (vm_compute; lia).
  assert (H3 : unbound (fresh_solver (S := Z_scalar))) by (repeat split).
  assert (H4 : length (replicate 15 0%Z) = state_length (P := source_problem))
    by reflexivity.
  unfold source_initial.
  destruct (setInitialConditions (P := source_problem) (zero_garbage (P := source_problem))
              (λ _, 1%Z) (λ _, 0%Z) (λ _, 0%Z) (replicate 15 0%Z) (replicate 15 0%Z)
              fresh_solver) as [r|] eqn:E.
  - exists r. split; [reflexivity|].
    apply (X11_initial_state (P := source_problem) _ _ _ _ _ _ _ r H1 H2 H3 H4 H4 E).
  - vm_compute in E. discriminate E.
Defined.

Section InitialTraceGeneral.
Context {S : Scalar} {SR : ScalarRing S} {P : Problem}.

(** The trace equation at the initial state, for a solver that
    [setInitialConditions] initialises itself or that has been initialised
    before with Neumann data at the ends of the domain only. *)
Lemma setInitialConditions_trace_rhs un u_0 gradu_0 sigma_0 (Y dYdt : Vec) s r v j :
  fits32 → 0 < nVar → 0 < nCells → grid_ok → unbound s →
  (initialised s = true → L_interior_zero s) →
  length Y = state_length → length dYdt = state_length →
  setInitialConditions un u_0 gradu_0 sigma_0 Y dYdt s = Some r →
  v < nVar → j ≤ nCells →
  trace_of (ic_Y r) v j
  = vget (FullPivLU_solve (H_global (ic_sys r))
            (trace_rhs (ic_sys r) (coeffs_of (ic_Y r) 0) (coeffs_of (ic_Y r) 2)))
         (v * (nCells + 1) + j).
Proof.
  intros Hf Hn Hc Hg Hu Hi HlY Hld H Hv Hj.
  destruct (setInitialConditions_spec _ _ _ _ _ _ _ _ Hf Hn Hu HlY Hld H) as (_ & HL & _).
  cbv zeta in HL. rewrite HL by done. rewrite CsGuL_assemble_spec; [done | done |].
  destruct (setInitialConditions_unfold _ _ _ _ _ _ _ _ Hf Hn Hu H) as (s1 & E1 & Hr).
  cbv zeta in Hr. destruct Hr as (Hs & _). rewrite Hs.
  destruct (initialised s) eqn:Ei.
  - injection E1 as <-. apply (Hi eq_refl).
  - apply (initialiseMatrices_L_interior _ _ _ Hg E1).
Qed.

End InitialTraceGeneral.


Lemma source_grid_ok : grid_ok (P := source_problem).
Proof.
  intros i Hi. destruct i as [|[|i]].
  - vm_compute. split; [reflexivity | discriminate].
  - vm_compute. split; [discriminate | reflexivity].
  - vm_compute in Hi. lia.
Defined.


(** ** The cell blocks of the residual *)

Section ResidualBlocks.
Context {S : Scalar} {P : Problem}.

Lemma mapped_u_views : fits32 → 0 < nVar → mapDGtoSundials_u [] = block_views 2.
Proof.
  intros Hf Hn. destruct (fresh_views (0, 0) Hf Hn) as (sg & qq & uu & E1 & E2 & _).
  rewrite mapped_views in E1 by done. injection E1 as _ _ Hu. rewrite Hu. exact E2.
Qed.

Lemma length_F_cellwise_of I var (Q U : DGval) : length (F_cellwise_of I var Q U) = k + 1.
Proof.
  unfold F_cellwise_of. rewrite foldl_length_inv; [apply length_vzero|].
  intros. apply length_vset.
Qed.

(** The four writes of one turn of the loops of [residual]. *)
Lemma residual_step_blocks (rv r1 r2 F r3 : Vec) var i' b v i e :
  length rv = state_length → var < nVar → i' < nCells → b ≤ 2 → v < nVar → i < nCells →
  e ≤ k → length F = k + 1 →
  let rv1 := write rv (block_offset 0 var i', k + 1) r1 in
  let rv2 := write rv1 (block_offset 1 var i', k + 1) r2 in
  let rv3 := write rv2 (block_offset 1 var i', k + 1)
                   (vadd (read rv2 (block_offset 1 var i', k + 1)) F) in
  let rv4 := write rv3 (block_offset 2 var i', k + 1) r3 in
  length rv4 = state_length
  ∧ vget rv4 (block_offset b v i + e)
    = if decide ((var, i') = (v, i))
      then match b with
           | 0 => vget r1 e
           | 1 => (vget r2 e + vget F e)%S
           | _ => vget r3 e
           end
      else vget rv (block_offset b v i + e).
Proof.
  intros Hlen Hvar Hi' Hb Hv Hi He HF. cbv zeta.
  split; [rewrite !length_write; done|].
  assert (Hidx : ∀ b', b' ≤ 2 → block_offset b' v i + e < state_length).
  { intros b' Hb'. pose proof (block_below_lambda b' v i Hb' Hv Hi).
    unfold lambda_offset, state_length in *. lia. }
  assert (Hout : ∀ (X x : Vec) b', b' ≤ 2 → (b, v, i) ≠ (b', var, i') →
            vget (write X (block_offset b' var i', k + 1) x) (block_offset b v i + e)
            = vget X (block_offset b v i + e)).
  { intros X x b' Hb' Hne. apply vget_write_out. simpl. apply block_disjoint; done. }
  assert (Hin : ∀ (X x : Vec), length X = state_length →
            vget (write X (block_offset b v i, k + 1) x) (block_offset b v i + e)
            = vget x e).
  { intros X x HX. rewrite vget_write_in; simpl; [f_equal; lia | lia |].
    rewrite HX. apply Hidx, Hb. }
  case_decide as Heq.
  - injection Heq as -> ->. destruct b as [|[|[|]]]; try lia.
    + rewrite !Hout by (lia || congruence). apply Hin, Hlen.
    + rewrite Hout by (lia || congruence). rewrite Hin by (rewrite !length_write; done).
      rewrite vget_vadd; [| unfold read; simpl; rewrite length_vblock; lia | lia].
      f_equal. unfold read. simpl. rewrite vget_vblock by lia.
      rewrite Hin by (rewrite !length_write; done). done.
    + apply Hin. rewrite !length_write. done.
  - rewrite !Hout by (lia || congruence). done.
Qed.

(** The cell blocks of the vector that [residual] returns. *)
Lemma residual_vector_blocks (Y dydt resval : Vec) s log b v i e :
  fits32 → 0 < nVar → length resval = state_length →
  b ≤ 2 → v < nVar → i < nCells → e ≤ k →
  vget (residual_vector Y dydt resval s log).1 (block_offset b v i + e)
  = residual_entry s Y dydt b v i e.
Proof.
  intros Hf Hn Hlen Hb Hv Hi He. unfold residual_vector.
  rewrite !mapped_views, mapped_u_views by done. cbv beta iota zeta.
  set (lam := (lambda_offset 0 0, nVar * (nCells + 1))).
  set (rv0 := write (vsetZero resval) lam _).
  assert (Hl0 : length rv0 = state_length).
  { unfold rv0. rewrite length_write, length_vsetZero. done. }
  clearbody rv0.
  assert (Hstep : ∀ (rv : Vec) (lg : list LogItem) i' var,
            length rv = state_length → i' < nCells → var < nVar →
            ∀ st, st = (let kappa_cellwise :=
                          kappa_cellwise_of (cell i') var (DGread Y (block_views 1))
                                            (DGread Y (block_views 2)) in
                        let F_cellwise :=
                          F_cellwise_of (cell i') var (DGread Y (block_views 1))
                                        (DGread Y (block_views 2)) in
                        let sigc := read Y (coeffs (block_views 0) var i') in
                        let qc := read Y (coeffs (block_views 1) var i') in
                        let uc := read Y (coeffs (block_views 2) var i') in
                        let resval0 :=
                          write rv (coeffs (block_views 0) var i')
                                (res1_of s i' var qc uc (lamCell_of (read Y lam) i')) in
                        let resval1 :=
                          write resval0 (coeffs (block_views 1) var i')
                                (res2_of s i' var sigc uc (lamCell_of (read Y lam) i')
                                   (read dydt (coeffs (block_views 2) var i'))) in
                        let resval2 :=
                          write resval1 (coeffs (block_views 1) var i')
                                (vadd (read resval1 (coeffs (block_views 1) var i'))
                                      F_cellwise) in
                        let resval3 :=
                          write resval2 (coeffs (block_views 2) var i')
                                (vadd sigc kappa_cellwise) in
                        (resval3, lg ++ [LogVec kappa_cellwise])) →
            length st.1 = state_length
            ∧ vget st.1 (block_offset b v i + e)
              = if decide ((var, i') = (v, i))
                then residual_entry s Y dydt b v i e
                else vget rv (block_offset b v i + e)).
  { intros rv lg i' var Hrv Hi' Hvar st ->. cbv zeta. cbn [fst].
    rewrite !coeffs_block_views by done.
    pose proof (residual_step_blocks rv
      (res1_of s i' var (read Y (block_offset 1 var i', k + 1))
               (read Y (block_offset 2 var i', k + 1)) (lamCell_of (read Y lam) i'))
      (res2_of s i' var (read Y (block_offset 0 var i', k + 1))
               (read Y (block_offset 2 var i', k + 1)) (lamCell_of (read Y lam) i')
               (read dydt (block_offset 2 var i', k + 1)))
      (F_cellwise_of (cell i') var (DGread Y (block_views 1)) (DGread Y (block_views 2)))
      (vadd (read Y (block_offset 0 var i', k + 1))
            (kappa_cellwise_of (cell i') var (DGread Y (block_views 1))
                               (DGread Y (block_views 2))))
      var i' b v i e Hrv Hvar Hi' Hb Hv Hi He (length_F_cellwise_of _ _ _ _)) as Hs.
    cbv zeta in Hs. destruct Hs as [Hs1 Hs2]. split; [exact Hs1|].
    rewrite Hs2. case_decide as Heq; [|done].
    injection Heq as -> ->. unfold residual_entry. cbv zeta.
    destruct b as [|[|[|]]]; try lia; reflexivity. }
  apply (foldl_written (λ st : Vec * list LogItem, length st.1 = state_length)
           (λ st, vget st.1 (block_offset b v i + e)) _ nCells i); [done | done | | |].
  - intros [rv lg] x Hx Hrv.
    apply (foldl_inv (λ st : Vec * list LogItem, length st.1 = state_length)); [done|].
    intros [rv' lg'] var Hvar%elem_of_seq0 Hrv'.
    apply (Hstep rv' lg' x var Hrv' Hx Hvar _ eq_refl).
  - intros [rv lg] Hrv.
    apply (foldl_written (λ st : Vec * list LogItem, length st.1 = state_length)
             (λ st, vget st.1 (block_offset b v i + e)) _ nVar v); [done | done | | |].
    + intros [rv' lg'] var Hvar Hrv'. apply (Hstep rv' lg' i var Hrv' Hi Hvar _ eq_refl).
    + intros [rv' lg'] Hrv'.
      destruct (Hstep rv' lg' i v Hrv' Hi Hv _ eq_refl) as [_ H]. cbn [fst] in H |- *.
      rewrite H, decide_True by done. done.
    + intros [rv' lg'] var Hvar Hne Hrv'.
      destruct (Hstep rv' lg' i var Hrv' Hi Hvar _ eq_refl) as [_ H]. cbn [fst] in H |- *.
      rewrite H, decide_False by congruence. done.
  - intros [rv lg] x Hx Hne Hrv.
    apply (λ H0 H1, proj2 (foldl_inv (λ st : Vec * list LogItem,
             length st.1 = state_length
             ∧ vget st.1 (block_offset b v i + e) = vget rv (block_offset b v i + e))
             _ _ _ H0 H1)); [done|].
    intros [rv' lg'] var Hvar%elem_of_seq0 [Hrv' Hval].
    destruct (Hstep rv' lg' x var Hrv' Hx Hvar _ eq_refl) as [H1 H2].
    split; [exact H1|]. cbn [fst] in H2 |- *.
    rewrite H2, decide_False by congruence. exact Hval.
Qed.

End ResidualBlocks.

(** X13: the cell blocks of the vector that [residual] returns.  For
    every variable and cell, the sigma block receives
    [R1 = -A q - B^T u + C^T lambda - RF_sigma], the q block receives
    [R2 = B sigma + D u + E lambda - RF_u + du/dt + F] and the u block
    receives [R3 = sigma + kappa], the matrices being the diagonal blocks
    of the variable, [F] and [kappa] the projections of the source and of
    the diffusion provider at [(q, u)], and [RF] the forcing as the
    boundary update at [tres] leaves it. *)
Theorem X13_residual_cell_blocks {S : Scalar} {P : Problem}
    tres (Y dydt resval : Vec) s w r b v i e :
  fits32 → 0 < nVar → length resval = state_length →
  residual tres Y dydt resval s w = Some r →
  b ≤ 2 → v < nVar → i < nCells → e ≤ k →
  vget (resval_out r) (block_offset b v i + e) = residual_entry (sys_out r) Y dydt b v i e.
Proof.
  intros Hf Hn Hlen Hres Hb Hv Hi He. unfold residual in Hres.
  destruct (updateBoundaryConditions tres s) as [s'|]; simpl in Hres; [|discriminate].
  pose proof (residual_vector_blocks Y dydt resval s' (console w) b v i e
                Hf Hn Hlen Hb Hv Hi He) as H.
  destruct (residual_vector Y dydt resval s' (console w)) as [rv lg].
  injection Hres as <-. cbn [resval_out sys_out fst] in *. rewrite H.
  unfold residual_entry. destruct b as [|[|b]]; reflexivity.
Qed.

Lemma X13_residual_cell_blocks_witness :
  ∃ r, residual (P := demo_problem) 7%Z (replicate 15 1%Z) (replicate 15 2%Z)
                (replicate 15 3%Z) demo_solver empty_world = Some r
       ∧ vget (resval_out r) (block_offset (P := demo_problem) 2 0 1 + 0)
         = residual_entry (P := demo_problem) (sys_out r) (replicate 15 1%Z)
                          (replicate 15 2%Z) 2 0 1 0.
Proof.
  assert (H1 : fits32 (P := demo_problem)) by (vm_compute; reflexivity).
  assert (H2 : 0 < nVar (Problem := demo_problem)) by (vm_compute; lia).
  assert (H3 : length (replicate 15 3%Z) = state_length (P := demo_problem)) by reflexivity.
  destruct (residual (P := demo_problem) 7%Z (replicate 15 1%Z) (replicate 15 2%Z)
                     (replicate 15 3%Z) demo_solver empty_world) as [r|] eqn:E.
  - exists r. split; [reflexivity|].
    apply (X13_residual_cell_blocks (P := demo_problem) _ _ _ _ _ _ r 2 0 1 0 H1 H2 H3 E);
      vm_compute; lia.
  - vm_compute in E. discriminate E.
Defined.

Section ResidualReads.
Context {S : Scalar} {P : Problem}.

Lemma residual_vector_reads (Y dydt dydt' resval resval' : Vec) s log :
  fits32 → 0 < nVar → length resval = length resval' →
  (∀ v i, v < nVar → i < nCells → coeffs_of dydt 2 v i = coeffs_of dydt' 2 v i) →
  residual_vector Y dydt resval s log = residual_vector Y dydt' resval' s log.
Proof.
  intros Hf Hn Hlen Hd. unfold residual_vector.
  rewrite !mapped_views, mapped_u_views by done. cbv beta iota zeta.
  rewrite (vsetZero_length_eq resval resval' Hlen).
  apply foldl_ext_elem. intros [rv lg] i Hi%elem_of_seq0.
  apply foldl_ext_elem. intros [rv' lg'] var Hvar%elem_of_seq0.
  rewrite !coeffs_block_views by done.
  assert (E : read dydt (block_offset 2 var i, k + 1) = read dydt' (block_offset 2 var i, k + 1)).
  { apply (Hd var i Hvar Hi). }
  rewrite E. reflexivity.
Qed.

(** X14: the vector that [residual] returns does not depend on what
    [resval] held before the call (only on its length), and of the
    derivative vector it reads the coefficients of [u] only: the
    derivatives of sigma, of q and of the traces do not enter. *)
Theorem X14_residual_reads tres (Y dydt dydt' resval resval' : Vec) s w :
  fits32 → 0 < nVar → length resval = length resval' →
  (∀ v i, v < nVar → i < nCells → coeffs_of dydt 2 v i = coeffs_of dydt' 2 v i) →
  resval_out <$> residual tres Y dydt resval s w
  = resval_out <$> residual tres Y dydt' resval' s w.
Proof.
  intros Hf Hn Hlen Hd. unfold residual.
  destruct (updateBoundaryConditions tres s) as [s'|]; [|reflexivity].
  cbn [mbind option_bind].
  rewrite (residual_vector_reads Y dydt dydt' resval resval' s' (console w) Hf Hn Hlen Hd).
  destruct (residual_vector Y dydt' resval' s' (console w)) as [rv lg]. reflexivity.
Qed.

End ResidualReads.

Lemma X14_residual_reads_witness :
  resval_out <$> residual (P := demo_problem) 7%Z (replicate 15 1%Z) (replicate 15 2%Z)
                          (replicate 15 3%Z) demo_solver empty_world
  = resval_out <$> residual (P := demo_problem) 7%Z (replicate 15 1%Z)
                            ([8; 8; 8; 8; 2; 2; 8; 8; 8; 8; 2; 2; 8; 8; 8]%Z)
                            (replicate 15 4%Z) demo_solver empty_world.
Proof.
  apply (X14_residual_reads (P := demo_problem)).
  - vm_compute. reflexivity.
  - vm_compute. lia.
  - reflexivity.
  - intros v i Hv Hi. destruct v as [|v]; [|vm_compute in Hv; lia].
    destruct i as [|[|i]]; [reflexivity | reflexivity | vm_compute in Hi; lia].
Defined.

(** ** The condensed solve: what it reads *)

Section JacobianReads.
Context {S : Scalar} {P : Problem}.

Lemma msetZero_dims_eq (K K' : Mat) n m : mdims K n m → mdims K' n m → msetZero K = msetZero K'.
Proof.
  intros HK HK'. apply (mat_ext _ _ n m); [by apply mdims_msetZero | by apply mdims_msetZero |].
  intros r c _ _. rewrite !mget_msetZero. done.
Qed.

(** X15: [solveJacEq] sets [delY] and [K_global] to zero before it
    fills them: the increment and the condensed matrix that it leaves do
    not depend on what the two held before the call, only on their
    sizes. *)
Theorem X15_solveJacEq_overwrites (g delY delY' Y : Vec) s (K' : Mat) w n m :
  length delY = length delY' → mdims (K_global s) n m → mdims K' n m →
  delY_out (solveJacEq g delY Y s w) = delY_out (solveJacEq g delY' Y (set_K_global K' s) w)
  ∧ K_global (jac_sys (solveJacEq g delY Y s w))
    = K_global (jac_sys (solveJacEq g delY' Y (set_K_global K' s) w)).
Proof.
  intros Hlen HK HK'. unfold solveJacEq.
  rewrite (vsetZero_length_eq delY delY' Hlen).
  assert (HZ : msetZero (K_global (set_K_global K' s)) = msetZero (K_global s)).
  { symmetry. apply (msetZero_dims_eq _ _ n m); done. }
  rewrite HZ.
  destruct (mapDGtoSundials [] [] [] (0, nVar * (nCells + 1))) as [[[delSig delQ] delU] delLambda].
  change (updateMForJacSolve (set_K_global K' s) (alpha (set_K_global K' s)))
    with (updateMForJacSolve s (alpha s)).
  destruct (updateMForJacSolve s (alpha s) Y (vsetZero delY') delQ delU (console w))
    as [factorisedM log].
  destruct mapDGtoSundials_cellwise as [g1g2g3_cellwise g4].
  change (CEBlocks (set_K_global K' s)) with (CEBlocks s).
  change (H_cellwise (set_K_global K' s)) with (H_cellwise s).
  change (CG_cellwise (set_K_global K' s)) with (CG_cellwise s).
  destruct (foldl _ (replicate nCells [], replicate nCells [], msetZero (K_global s))
                  (seq 0 nCells)) as [[SQU_f SQU_0] K].
  split; reflexivity.
Qed.

End JacobianReads.

Lemma X15_solveJacEq_overwrites_witness :
  delY_out (solveJacEq (P := demo_problem) (replicate 15 1%Z) (replicate 15 2%Z)
                       (replicate 15 3%Z) demo_solver empty_world)
  = delY_out (solveJacEq (P := demo_problem) (replicate 15 1%Z) (replicate 15 5%Z)
                         (replicate 15 3%Z)
                         (set_K_global (mbuild 3 3 (λ _ _, 9%Z)) demo_solver) empty_world).
Proof.
  refine (proj1 (X15_solveJacEq_overwrites (P := demo_problem) _ _ _ _ _ _ _ 3 3 _ _ _)).
  - reflexivity.
  - vm_compute. repeat constructor.
  - vm_compute. repeat constructor.
Defined.

(** ** The configuration file *)

Section ConfigLemmas.

Lemma read_real_Ok (config : gmap string toml_value) (key msg1 msg2 : string) (d : Qc) :
  read_real config key msg1 msg2 = Ok d ↔ config !! key = Some (TFloating d).
Proof.
  unfold read_real, toml.find, toml.count.
  destruct (config !! key) as [[z|d'|s|b]|]; simpl; split; try discriminate; congruence.
Qed.

Lemma read_tolerance_Ok_iff (config : gmap string toml_value) (key msg : string) (d : Qc) :
  read_tolerance config key msg = Ok d ↔ config !! key = Some (TFloating d).
Proof.
  unfold read_tolerance, toml.find, toml.count.
  destruct (config !! key) as [[z|d'|s|b]|]; simpl; split; try discriminate; congruence.
Qed.

Lemma read_real_table (config : gmap string toml_value) (key msg1 msg2 : string) :
  read_real config key msg1 msg2
  = match config !! key with
    | None => Throw (out_of_range key)
    | Some (TFloating d) => Ok d
    | Some (TInteger _) => Throw type_error
    | Some _ => Throw (invalid_argument msg2)
    end.
Proof.
  unfold read_real, toml.find, toml.count.
  destruct (config !! key) as [[z|d'|s|b]|]; reflexivity.
Qed.

Lemma read_tolerance_table (config : gmap string toml_value) (key msg : string) :
  read_tolerance config key msg
  = match config !! key with
    | None => Throw (out_of_range key)
    | Some (TFloating d) => Ok d
    | Some (TInteger _) => Throw type_error
    | Some _ => Throw (invalid_argument msg)
    end.
Proof.
  unfold read_tolerance, toml.find, toml.count.
  destruct (config !! key) as [[z|d'|s|b]|]; reflexivity.
Qed.

End ConfigLemmas.

(** X16: [runSolver] gets through the reading of its configuration
    exactly when [delta_t], [t_final], [Relative_tolerance] and
    [Absolute_tolerance] are all present and written as floating values,
    and then uses the values of the file: an absent key, an integer such
    as [1] and the default tolerance never lead to a run. *)
Theorem X16_run_config_accepted (config : gmap string toml_value) (rc : RunConfig) :
  runSolver_config config = Ok rc
  ↔ config !! "delta_t" = Some (TFloating (deltatPrint rc))
    ∧ config !! "t_final" = Some (TFloating (tFinal rc))
    ∧ config !! "Relative_tolerance" = Some (TFloating (rtol rc))
    ∧ config !! "Absolute_tolerance" = Some (TFloating (atol rc)).
Proof.
  unfold runSolver_config. rewrite !read_real_table, !read_tolerance_table.
  destruct rc as [d1 d2 d3 d4]. simpl.
  destruct (config !! "delta_t") as [[?|?|?|?]|]; simpl;
    try (split; [discriminate | intros (? & _); discriminate]).
  destruct (config !! "t_final") as [[?|?|?|?]|]; simpl;
    try (split; [discriminate | intros (_ & ? & _); discriminate]).
  destruct (config !! "Relative_tolerance") as [[?|?|?|?]|]; simpl;
    try (split; [discriminate | intros (_ & _ & ? & _); discriminate]).
  destruct (config !! "Absolute_tolerance") as [[?|?|?|?]|]; simpl;
    try (split; [discriminate | intros (_ & _ & _ & ?); discriminate]).
  split.
  - intros [= -> -> -> ->]. done.
  - intros ([= ->] & [= ->] & [= ->] & [= ->]). done.
Qed.

(** X17: the outcome of the reading in [runSolver] is decided by the
    first of the keys [delta_t], [t_final], [Relative_tolerance],
    [Absolute_tolerance] that does not hold a floating value: an absent
    key throws [std::out_of_range], an integer throws
    [toml::type_error], a value of another type throws
    [std::invalid_argument] with the message "... specified incorrrectly".
    The messages "... unspecified or specified more than once" are never
    produced. *)
Theorem X17_run_config_outcome (config : gmap string toml_value) :
  runSolver_config config
  = (dt ← float_entry config "delta_t" "delta_t specified incorrrectly";
     tf ← float_entry config "t_final" "tEnd specified incorrrectly";
     rt ← float_entry config "Relative_tolerance" "relative_tolerance specified incorrrectly";
     at' ← float_entry config "Absolute_tolerance" "Absolute_tolerance specified incorrrectly";
     Ok {| deltatPrint := dt; tFinal := tf; rtol := rt; atol := at' |}).
Proof.
  unfold runSolver_config. rewrite !read_real_table, !read_tolerance_table. reflexivity.
Qed.

Section ConstructorLemmas.
Variable DiffusionObj_returns : Z → Z → string → bool.
Variable SourceObj_returns : Z → Z → string → bool.
Variable initConditionLibrary_set_returns : string → string → bool.
Variable Grid_returns : Qc → Qc → Z → bool.
Variable setters_return : bool.
Variable nVar_is_signed : bool.

Lemma read_integer_table (config : gmap string toml_value) (key msg1 msg2 : string) :
  read_integer config key msg1 msg2
  = match config !! key with
    | None => Throw (out_of_range key)
    | Some (TInteger z) => Ok z
    | Some _ => Throw (invalid_argument msg2)
    end.
Proof.
  unfold read_integer, toml.find, toml.count.
  destruct (config !! key) as [[z|d'|s|b]|]; reflexivity.
Qed.

Lemma read_string_once_table (config : gmap string toml_value) (key msg : string) :
  read_string_once config key msg
  = match config !! key with
    | None => Throw (invalid_argument msg)
    | Some (TString s) => Ok s
    | Some _ => Throw type_error
    end.
Proof.
  unfold read_string_once, toml_at, toml.count.
  destruct (config !! key) as [[z|d'|s|b]|]; reflexivity.
Qed.

Lemma read_boundary_type_Ok (config : gmap string toml_value) (key msg1 msg2 : string) b :
  read_boundary_type config key msg1 msg2 = Ok b
  ↔ config !! key = Some (TString (if b then "Dirichlet" else "VonNeumann")).
Proof.
  unfold read_boundary_type. rewrite read_string_once_table.
  destruct (config !! key) as [[z|d'|s|b']|]; simpl; try (split; discriminate).
  destruct (String.eqb_spec s "Dirichlet") as [->|H1].
  - split; [intros [= <-]; done|]. destruct b; [done | discriminate].
  - destruct (String.eqb_spec s "VonNeumann") as [->|H2].
    + split; [intros [= <-]; done|]. destruct b; [discriminate | done].
    + split; [discriminate|]. destruct b; intros [= ->]; done.
Qed.


(** A degree written as [-1] is stored as [4294967295], and a grid size
    of [2^32 + 2] as [2]. *)
Lemma to_unsigned_int_wraps :
  to_unsigned_int (-1) = 4294967295%Z ∧ to_unsigned_int 4294967298 = 2%Z
  ∧ to_int 4294967295 = (-1)%Z.
Proof. repeat split. Qed.

End ConstructorLemmas.

(** ** The name of the output file *)

Section PlotFile.

Lemma rfind_dot_app_dot (a b : string) :
  rfind_dot b = None → rfind_dot (String.append a (String dot_char b)) = Some (String.length a).
Proof.
  intros Hb. induction a as [|c a IH]; simpl.
  - rewrite Hb. reflexivity.
  - rewrite IH. reflexivity.
Qed.

Lemma substring_prefix (a b : string) :
  String.substring 0 (String.length a) (String.append a b) = a.
Proof.
  induction a as [|c a IH]; simpl.
  - destruct b; reflexivity.
  - rewrite IH. reflexivity.
Qed.

(** X19: the file that [runSolver] writes the first variable to is
    named after the configuration file: everything from the last dot of
    the path on is replaced by [.plot], and [.plot] is appended to a path
    without a dot.  The last dot of the path is used even when it is not
    in the file name: for [./mts] the output goes to [.plot]. *)
Theorem X19_plot_file_name (a b : string) :
  rfind_dot b = None →
  plot_file (String.append a (String.append "." b)) = String.append a ".plot"
  ∧ plot_file b = String.append b ".plot".
Proof.
  intros Hb. change (String.append "." b) with (String dot_char b).
  unfold plot_file. rewrite Hb, (rfind_dot_app_dot a b Hb). simpl.
  rewrite substring_prefix. done.
Qed.

End PlotFile.

Lemma X19_plot_file_name_witness :
  plot_file "./mts" = ".plot" ∧ plot_file "/mts" = "/mts.plot".
Proof.
  apply (X19_plot_file_name "" "/mts"). reflexivity.
Defined.

(** ** The constant cell matrices, entry by entry *)

Section SetEntries.
Context {S : Scalar}.

Lemma mdims_mset (M : Mat) n m r c x : mdims M n m → mdims (mset M r c x) n m.
Proof.
  intros [Hl Hr]. unfold mset. split; [by rewrite length_alter|].
  apply Forall_alter; [done|]. intros row Hrow Hlen. rewrite length_insert. exact Hlen.
Qed.

Lemma mget_mset (M : Mat) n m r c x r' c' :
  mdims M n m →
  mget (mset M r c x) r' c'
  = if decide (r = r' ∧ c = c' ∧ r' < n ∧ c' < m) then x else mget M r' c'.
Proof.
  intros HM. unfold mget, mset.
  destruct (decide (r = r')) as [<-|Hne].
  - rewrite list_lookup_alter_eq.
    destruct (M !! r) as [row|] eqn:Er; simpl.
    + pose proof (mdims_row M n m r row HM Er) as Hl.
      assert (Hr : r < n). { destruct HM as [<- _]. eapply lookup_lt_Some, Er. }
      fold (vset row c x). rewrite vget_vset. rewrite Hl.
      repeat case_decide; try done; try lia.
      all: match goal with
           | H : ¬ _ |- _ => exfalso; apply H; repeat split; (done || lia)
           | H : _ ∧ _ |- _ => destruct H as (? & ? & ? & ?); exfalso; lia
           end.
    + rewrite decide_False; [done|]. intros (_ & _ & Hr & _).
      apply lookup_ge_None in Er. destruct HM as [Hl _]. lia.
  - rewrite list_lookup_alter_ne by done. rewrite decide_False; [done|].
    intros (E & _). done.
Qed.

End SetEntries.

Section CellEntries.
Context {S : Scalar} {P : Problem}.

(** The entries of [Cvar], [Evar] and [Gvar] after their loops. *)
Lemma CEvar_of_entries I c :
  c ≤ k →
  mget (CEvar_of I).1 0 c = (if lowerDirichlet I then 0%S else (- phi I c (x_l I))%S)
  ∧ mget (CEvar_of I).1 1 c = (if upperDirichlet I then 0%S else phi I c (x_u I))
  ∧ mget (CEvar_of I).2 c 0
    = (if lowerDirichlet I then 0%S
       else (phi I c (x_l I) * (- c_fn (x_l I) - tau (x_l I)))%S)
  ∧ mget (CEvar_of I).2 c 1
    = (if upperDirichlet I then 0%S
       else (phi I c (x_u I) * (c_fn (x_u I) - tau (x_u I)))%S).
Proof.
  intros Hc. unfold CEvar_of.
  match goal with |- context [foldl ?f _ _] => set (step := f) end.
  assert (H : ∀ m, m ≤ k + 1 →
            let CE := foldl step (mzero 2 (k + 1), mzero (k + 1) 2) (seq 0 m) in
            mdims CE.1 2 (k + 1) ∧ mdims CE.2 (k + 1) 2
            ∧ (c < m →
               mget CE.1 0 c = (if lowerDirichlet I then 0%S else (- phi I c (x_l I))%S)
               ∧ mget CE.1 1 c = (if upperDirichlet I then 0%S else phi I c (x_u I))
               ∧ mget CE.2 c 0
                 = (if lowerDirichlet I then 0%S
                    else (phi I c (x_l I) * (- c_fn (x_l I) - tau (x_l I)))%S)
               ∧ mget CE.2 c 1
                 = (if upperDirichlet I then 0%S
                    else (phi I c (x_u I) * (c_fn (x_u I) - tau (x_u I)))%S))).
  { induction m as [|m IH]; intros Hm.
    - simpl. split; [apply mdims_mzero|]. split; [apply mdims_mzero|]. lia.
    - cbv zeta in *. rewrite foldl_seq_S.
      destruct IH as (HdC & HdE & IHc); [lia|].
      destruct (foldl step (mzero 2 (k + 1), mzero (k + 1) 2) (seq 0 m)) as [Cv Ev].
      cbn [fst snd] in *. unfold step.
      destruct (lowerDirichlet I), (upperDirichlet I); cbn [fst snd];
        (split; [eauto 10 using mdims_mset|]); (split; [eauto 10 using mdims_mset|]);
        intros Hcm;
        repeat (erewrite mget_mset by eauto 10 using mdims_mset);
        destruct (decide (c = m)) as [->|Hne];
        repeat case_decide; try lia; try done; try (apply IHc; lia);
        try (destruct IHc as (H1 & H2 & H3 & H4); [lia|]; repeat split; done). }
  destruct (H (k + 1) ltac:(lia)) as (_ & _ & Hent). apply Hent. lia.
Qed.

Lemma Gvar_of_entries I c :
  c ≤ k →
  mget (Gvar_of I) 0 c = (if lowerDirichlet I then 0%S else (tau (x_l I) * phi I c (x_l I))%S)
  ∧ mget (Gvar_of I) 1 c
    = (if upperDirichlet I then 0%S else (tau (x_u I) * phi I c (x_u I))%S).
Proof.
  intros Hc. unfold Gvar_of.
  match goal with |- context [foldl ?f _ _] => set (step := f) end.
  assert (H : ∀ m, m ≤ k + 1 →
            mdims (foldl step (mzero 2 (k + 1)) (seq 0 m)) 2 (k + 1)
            ∧ (c < m →
               mget (foldl step (mzero 2 (k + 1)) (seq 0 m)) 0 c
               = (if lowerDirichlet I then 0%S else (tau (x_l I) * phi I c (x_l I))%S)
               ∧ mget (foldl step (mzero 2 (k + 1)) (seq 0 m)) 1 c
                 = (if upperDirichlet I then 0%S else (tau (x_u I) * phi I c (x_u I))%S))).
  { induction m as [|m IH]; intros Hm.
    - simpl. split; [apply mdims_mzero|]. lia.
    - rewrite foldl_seq_S. destruct IH as (Hd & IHc); [lia|].
      set (G := foldl step (mzero 2 (k + 1)) (seq 0 m)) in *. unfold step.
      destruct (lowerDirichlet I), (upperDirichlet I);
        (split; [eauto 10 using mdims_mset|]);
        intros Hcm;
        repeat (erewrite mget_mset by eauto 10 using mdims_mset);
        destruct (decide (c = m)) as [->|Hne];
        repeat case_decide; try lia; try done; try (apply IHc; lia). }
  destruct (H (k + 1) ltac:(lia)) as (_ & Hent). apply Hent. lia.
Qed.

End CellEntries.

Section BlockDiagonal.
Context {S : Scalar} {P : Problem}.

Lemma div_lt_blocks r h : r < nVar * h → r / h < nVar.
Proof. intros Hr. apply Nat.Div0.div_lt_upper_bound. lia. Qed.

(** A matrix of zeros whose diagonal blocks are assigned one and the
    same block. *)
Lemma mget_tiles_of_zero (B : Mat) h w r c :
  0 < h → 0 < w → r < nVar * h → c < nVar * w →
  mget (foldl (λ M var, set_block M (var * h) (var * w) h w B)
              (mzero (nVar * h) (nVar * w)) (seq 0 nVar)) r c
  = if decide (r / h = c / w) then mget B (r mod h) (c mod w) else 0%S.
Proof.
  intros Hh Hw Hr Hc.
  rewrite (mget_tile _ _ (nVar * h) (nVar * w)) by (done || apply mdims_mzero).
  pose proof (div_lt_blocks r h Hr). rewrite mget_mzero.
  repeat case_decide; try done; lia.
Qed.

Lemma G_cell_eq I :
  G_cell I = foldl (λ G var, set_block G (var * 2) (var * (k + 1)) 2 (k + 1) (Gvar_of I))
                   (mzero (nVar * 2) (nVar * (k + 1))) (seq 0 nVar).
Proof.
  unfold G_cell. replace (2 * nVar) with (nVar * 2) by lia.
  apply foldl_ext_elem. intros G var _.
  replace (2 * var) with (var * 2) by lia. replace ((k + 1) * var) with (var * (k + 1)) by lia.
  reflexivity.
Qed.

Lemma H_cell_eq I :
  H_cell I = foldl (λ H var, set_block H (var * 2) (var * 2) 2 2 (Hvar_of I))
                   (mzero (nVar * 2) (nVar * 2)) (seq 0 nVar).
Proof.
  unfold H_cell. replace (2 * nVar) with (nVar * 2) by lia.
  apply foldl_ext_elem. intros G var _. replace (2 * var) with (var * 2) by lia. reflexivity.
Qed.

(** X20: the constant cell matrices couple no two variables.  After
    [initialiseMatrices], [A_cellwise[i]], [B_cellwise[i]], the entry of
    [D_cellwise] that the call has appended for cell [i],
    [G_cellwise[i]] and [H_cellwise[i]] are block diagonal, with one and
    the same block ([Avar], [Bvar], [Dvar], [Gvar], [Hvar] of the cell)
    for every variable and zeros elsewhere. *)
Theorem X20_cell_matrices_block_diagonal un s0 s i :
  initialiseMatrices un s0 = Some s → i < nCells →
  (∀ r c, r < nVar * (k + 1) → c < nVar * (k + 1) →
     mget (nthM (A_cellwise s) i) r c
     = (if decide (r / (k + 1) = c / (k + 1))
        then mget (Avar_of (cell i)) (r mod (k + 1)) (c mod (k + 1)) else 0%S)
     ∧ mget (nthM (B_cellwise s) i) r c
       = (if decide (r / (k + 1) = c / (k + 1))
          then mget (Bvar_of (cell i)) (r mod (k + 1)) (c mod (k + 1)) else 0%S)
     ∧ mget (nthM (D_cellwise s) (length (D_cellwise s0) + i)) r c
       = (if decide (r / (k + 1) = c / (k + 1))
          then mget (Dvar_of (cell i)) (r mod (k + 1)) (c mod (k + 1)) else 0%S))
  ∧ (∀ r c, r < nVar * 2 → c < nVar * (k + 1) →
       mget (nthM (G_cellwise s) i) r c
       = (if decide (r / 2 = c / (k + 1))
          then mget (Gvar_of (cell i)) (r mod 2) (c mod (k + 1)) else 0%S))
  ∧ (∀ r c, r < nVar * 2 → c < nVar * 2 →
       mget (nthM (H_cellwise s) i) r c
       = (if decide (r / 2 = c / 2)
          then mget (Hvar_of (cell i)) (r mod 2) (c mod 2) else 0%S)).
Proof.
  intros Hinit Hi.
  destruct (initialiseMatrices_lists _ _ _ Hinit)
    as (_ & _ & HA & HB & HD & HG & HH & _).
  assert (EA : nthM (A_cellwise s) i = A_cell (cell i)).
  { unfold nthM. rewrite HA, list_lookup_fmap, lookup_seq_lt by done. reflexivity. }
  assert (EB : nthM (B_cellwise s) i = B_cell (cell i)).
  { unfold nthM. rewrite HB, list_lookup_fmap, lookup_seq_lt by done. reflexivity. }
  assert (ED : nthM (D_cellwise s) (length (D_cellwise s0) + i) = D_cell (cell i)).
  { unfold nthM. rewrite HD, lookup_app_r by lia.
    replace (length (D_cellwise s0) + i - length (D_cellwise s0)) with i by lia.
    rewrite list_lookup_fmap, lookup_seq_lt by done. reflexivity. }
  assert (EG : nthM (G_cellwise s) i = G_cell (cell i)).
  { unfold nthM. rewrite HG, list_lookup_fmap, lookup_seq_lt by done. reflexivity. }
  assert (EH : nthM (H_cellwise s) i = H_cell (cell i)).
  { unfold nthM. rewrite HH, list_lookup_fmap, lookup_seq_lt by done. reflexivity. }
  rewrite EA, EB, ED, EG, EH, G_cell_eq, H_cell_eq. unfold A_cell, B_cell, D_cell.
  split; [|split].
  - intros r c Hr Hc. rewrite !mget_tiles_of_zero by (done || lia). done.
  - intros r c Hr Hc. rewrite mget_tiles_of_zero by (done || lia). done.
  - intros r c Hr Hc. rewrite mget_tiles_of_zero by (done || lia). done.
Qed.

End BlockDiagonal.

Lemma X20_cell_matrices_block_diagonal_witness :
  mget (nthM (A_cellwise two_channel_solver) 0) 0 2 = 0%Z.
Proof.
  destruct (X20_cell_matrices_block_diagonal (P := two_channel_problem)
              (nines (P := two_channel_problem)) fresh_solver two_channel_solver 0)
    as (H & _).
  - vm_compute. reflexivity.
  - vm_compute. lia.
  - destruct (H 0 2) as (HA & _).
    + vm_compute. lia.
    + vm_compute. lia.
    + rewrite HA. vm_compute. reflexivity.
Defined.

(** ** The trace equation at a Dirichlet boundary *)

Section DirichletFace.
Context {S : Scalar} {SR : ScalarRing S} {P : Problem}.
Add Ring scalar_ring_DirichletFace : scalar_ring.

Lemma dot_zero_row (a x : Vec) : Forall (λ y, y = 0%S) a → dot a x = 0%S.
Proof.
  intros Ha. revert x. induction Ha as [|y a -> _ IH]; intros x.
  - reflexivity.
  - destruct x as [|b x]; [reflexivity|]. unfold dot in *. simpl. rewrite IH. ring.
Qed.

(** A row of zeros in a block gives a zero entry of the product,
    whatever the vector is. *)
Lemma mat_vec_block2_zero_row (M : Mat) r0 c0 w (x : Vec) e :
  e < 2 → (∀ c, c < w → mget M (r0 + e) (c0 + c) = 0%S) →
  vget (mat_vec (block M r0 c0 2 w) x) e = 0%S.
Proof.
  intros He Hrow. unfold mat_vec, block, mbuild, vget.
  rewrite !list_lookup_fmap, lookup_seq_lt by done. simpl.
  apply dot_zero_row. unfold vbuild. apply Forall_fmap, Forall_forall.
  intros c Hc%elem_of_seq. simpl. apply Hrow. lia.
Qed.

(** The entries of the assembled right-hand side at the two ends of the
    domain: each is touched by one cell only. *)
Lemma CsGuL_assemble_face s sigc uc v j :
  0 < nCells → v < nVar → j ≤ nCells →
  vget (CsGuL_assemble s sigc uc) (v * (nCells + 1) + j)
  = sadd (if decide (j < nCells)
          then (vget (L_global s) (v * (nCells + 1) + j)
                - vget (cell_trace s sigc uc j v) 0)%S
          else 0%S)
         (if decide (0 < j)
          then (vget (L_global s) (v * (nCells + 1) + j)
                - vget (cell_trace s sigc uc (j - 1) v) 1)%S
          else 0%S).
Proof.
  intros HNc Hv Hj. unfold CsGuL_assemble.
  destruct (CsGuL_assemble_additive s sigc uc (vzero (nVar * (nCells + 1)))) as [Hlen Hget].
  assert (Hm : (v + 1) * (nCells + 1) ≤ nVar * (nCells + 1))
    by (apply Nat.mul_le_mono_r; lia).
  rewrite Hget by (rewrite length_vzero; lia).
  rewrite vget_vzero.
  set (T := λ i var,
         vsub (vsub (vblock (L_global s) (var * (nCells + 1) + i) 2)
                    (mat_vec (block (nthM (C_cellwise s) i) (var * 2) (var * (k + 1)) 2 (k + 1))
                             (sigc var i)))
              (mat_vec (block (nthM (G_cellwise s) i) (var * 2) (var * (k + 1)) 2 (k + 1))
                       (uc var i))).
  rewrite (ssum_ext nCells _
             (λ i, ((if decide (i = j) then vget (T i v) 0 else 0)
                    + (if decide (i = (j - 1)%nat)
                       then (if decide (0 < j) then vget (T i v) 1 else 0)
                       else 0))%S)).
  2:{ intros i Hi.
      rewrite (ssum_ext nVar _
                 (λ var, if decide (var = v)
                         then (if decide (i = j) then vget (T i var) 0
                               else if decide (i + 1 = j) then vget (T i var) 1 else 0%S)
                         else 0%S)).
      - rewrite ssum_at, decide_True by done.
        destruct (decide (i = j)) as [->|Hne].
        + destruct (decide (j = j - 1)); [rewrite decide_False by lia|]; ring.
        + destruct (decide (i + 1 = j)).
          * rewrite decide_True, decide_True by lia. ring.
          * destruct (decide (i = j - 1)); [rewrite decide_False by lia|]; ring.
      - intros var Hvar.
        pose proof (face_in_window v j var i Hv Hj Hvar Hi) as Hw.
        destruct (decide (var * (nCells + 1) + i ≤ v * (nCells + 1) + j
                          < var * (nCells + 1) + i + 2)) as [Hin|Hout].
        + apply Hw in Hin as [-> Hij]. rewrite decide_True by done.
          destruct (decide (i = j)) as [->|Hne].
          * f_equal. lia.
          * rewrite decide_True by lia. f_equal. lia.
        + destruct (decide (var = v)) as [->|]; [|reflexivity].
          destruct (decide (i = j)); [exfalso; apply Hout, Hw; auto|].
          destruct (decide (i + 1 = j)); [exfalso; apply Hout, Hw; auto|]. reflexivity. }
  rewrite ssum_add, !ssum_at.
  assert (HT : ∀ i e, e < 2 →
            vget (T i v) e
            = (vget (L_global s) (v * (nCells + 1) + i + e)
               - vget (cell_trace s sigc uc i v) e)%S).
  { intros i e He. unfold T, cell_trace.
    rewrite !vget_vsub, vget_vblock, vget_vadd
      by (rewrite ?length_vsub, ?length_vblock, ?length_mat_vec_block2; lia).
    ring. }
  rewrite (decide_True (P := j - 1 < nCells)) by lia.
  destruct (decide (j < nCells)) as [Hjlt|Hjge], (decide (0 < j)) as [Hjpos|Hj0];
    rewrite ?HT by lia.
  - replace (v * (nCells + 1) + (j - 1) + 1) with (v * (nCells + 1) + j) by lia.
    replace (v * (nCells + 1) + j + 0) with (v * (nCells + 1) + j) by lia. ring.
  - replace (v * (nCells + 1) + j + 0) with (v * (nCells + 1) + j) by lia. ring.
  - replace (v * (nCells + 1) + (j - 1) + 1) with (v * (nCells + 1) + j) by lia. ring.
  - lia.
Qed.

Lemma CsGuL_assemble_ends s sigc uc v :
  0 < nCells → v < nVar →
  vget (CsGuL_assemble s sigc uc) (v * (nCells + 1))
  = (vget (L_global s) (v * (nCells + 1)) - vget (cell_trace s sigc uc 0 v) 0)%S
  ∧ vget (CsGuL_assemble s sigc uc) (v * (nCells + 1) + nCells)
    = (vget (L_global s) (v * (nCells + 1) + nCells)
       - vget (cell_trace s sigc uc (nCells - 1) v) 1)%S.
Proof.
  intros HNc Hv. split.
  - pose proof (CsGuL_assemble_face s sigc uc v 0 HNc Hv ltac:(lia)) as H.
    rewrite Nat.add_0_r in H. rewrite H, decide_True, decide_False by lia. ring.
  - rewrite CsGuL_assemble_face, decide_False, decide_True by lia. ring.
Qed.

(** Row [e] of the diagonal blocks of [C] and [G] that belongs to a
    Dirichlet end of the domain is zero, so the cell adds nothing to the
    trace equation of that face. *)
Lemma cell_trace_dirichlet un s0 s t s' sigc uc i v e :
  initialiseMatrices un s0 = Some s →
  updateBoundaryConditions t s = Some s' →
  mdims (C_uninit un) (2 * nVar) (nVar * (k + 1)) →
  mdims (E_uninit un) (nVar * (k + 1)) (2 * nVar) →
  i < nCells → v < nVar → e < 2 →
  (if decide (e = 0) then lowerDirichlet (cell i) else upperDirichlet (cell i)) = true →
  vget (cell_trace s' sigc uc i v) e = 0%S.
Proof.
  intros Hinit Hupd HC HE Hi Hv He HD.
  destruct (updateBoundaryConditions_frame _ _ _ Hupd) as (RF & L & ->).
  destruct (initialiseMatrices_lists _ _ _ Hinit)
    as (_ & _ & _ & _ & _ & HG & _ & _ & HCl & _).
  cbv zeta in HCl.
  destruct (CE_after_entries (C_uninit un) (E_uninit un) (i + 1) HC HE)
    as (_ & _ & Hc1 & _).
  assert (HC' : nthM (C_cellwise s) i = (CE_after (C_uninit un) (E_uninit un) (i + 1)).1).
  { unfold nthM. rewrite HCl, list_lookup_fmap, lookup_seq_lt by done. reflexivity. }
  assert (HG' : nthM (G_cellwise s) i = G_cell (cell i)).
  { unfold nthM. rewrite HG, list_lookup_fmap, lookup_seq_lt by done. reflexivity. }
  assert (Hm : (v + 1) * 2 ≤ nVar * 2) by (apply Nat.mul_le_mono_r; lia).
  assert (Hmk : (v + 1) * (k + 1) ≤ nVar * (k + 1)) by (apply Nat.mul_le_mono_r; lia).
  assert (Hdr : (v * 2 + e) / 2 = v ∧ (v * 2 + e) mod 2 = e).
  { split; [rewrite Nat.div_add_l, Nat.div_small by lia; lia|].
    rewrite Nat.add_comm, Nat.Div0.mod_add. apply Nat.mod_small. lia. }
  assert (Hdc : ∀ c, c < k + 1 →
            (v * (k + 1) + c) / (k + 1) = v ∧ (v * (k + 1) + c) mod (k + 1) = c).
  { intros c Hc. split; [rewrite Nat.div_add_l, Nat.div_small by lia; lia|].
    rewrite Nat.add_comm, Nat.Div0.mod_add. apply Nat.mod_small. lia. }
  unfold cell_trace. cbn [C_cellwise G_cellwise set_boundary].
  rewrite vget_vadd by (rewrite ?length_mat_vec_block2; lia).
  rewrite !mat_vec_block2_zero_row; [ring|done| |done|].
  - intros c Hc. rewrite HG', G_cell_eq.
    rewrite mget_tiles_of_zero by (done || lia).
    destruct Hdr as [-> ->]. destruct (Hdc c Hc) as [-> ->].
    rewrite decide_True by done.
    destruct (Gvar_of_entries (cell i) c ltac:(lia)) as [G0 G1].
    destruct e as [|[|e]]; [| |lia]; simpl in HD.
    + rewrite G0, HD. reflexivity.
    + rewrite G1, HD. reflexivity.
  - intros c Hc. rewrite HC', Hc1 by lia.
    destruct Hdr as [-> ->]. destruct (Hdc c Hc) as [-> ->].
    rewrite decide_True by (split; [done|lia]).
    replace (i + 1 - 1) with i by lia.
    destruct (CEvar_of_entries (cell i) c ltac:(lia)) as (C0 & C1 & _).
    destruct e as [|[|e]]; [| |lia]; simpl in HD.
    + rewrite C0, HD. reflexivity.
    + rewrite C1, HD. reflexivity.
Qed.

(** X21: at a Dirichlet end of the domain the trace equation has no
    right-hand side.  After [initialiseMatrices] and
    [updateBoundaryConditions(t)], the vector [CsGuL_global] that
    [residual] and [setInitialConditions] assemble and hand to
    [H_global.solve] is zero at the lower face of the first cell when this
    is a Dirichlet boundary, and at the upper face of the last cell when
    that is one, for every variable, every time [t] and whatever the
    coefficients of sigma and u are. *)
Theorem X21_dirichlet_trace_row un s0 s t s' sigc uc v :
  initialiseMatrices un s0 = Some s →
  updateBoundaryConditions t s = Some s' →
  mdims (C_uninit un) (2 * nVar) (nVar * (k + 1)) →
  mdims (E_uninit un) (nVar * (k + 1)) (2 * nVar) →
  0 < nCells → v < nVar →
  (lowerDirichlet (cell 0) = true →
     vget (CsGuL_assemble s' sigc uc) (v * (nCells + 1)) = 0%S)
  ∧ (upperDirichlet (cell (nCells - 1)) = true →
     vget (CsGuL_assemble s' sigc uc) (v * (nCells + 1) + nCells) = 0%S).
Proof.
  intros Hinit Hupd HC HE HNc Hv.
  destruct (CsGuL_assemble_ends s' sigc uc v HNc Hv) as [E0 E1].
  destruct (initialiseMatrices_spec _ _ _ Hinit) as (_ & _ & _ & HLl).
  assert (HL : ∀ j, j ≤ nCells → vget (L_global s') (v * (nCells + 1) + j) = L_entry t j).
  { intros j Hj. revert Hupd. rewrite updateBoundaryConditions_eq.
    destruct (RF_loop t (RF_cellwise s) (seq 0 nCells)) as [RF|]; simpl; [|discriminate].
    intros [= <-]. simpl.
    rewrite L_loop_entry; [| lia | done | done | by rewrite length_vsetZero | apply vget_vsetZero].
    unfold L_entry. cbv zeta.
    destruct (Nat.ltb_spec 0 j) as [H0|H0]; simpl; [|reflexivity].
    replace (j - 1 <? nCells) with true by (symmetry; apply Nat.ltb_lt; lia). reflexivity. }
  split; intros HD.
  - rewrite E0. specialize (HL 0 ltac:(lia)). rewrite Nat.add_0_r in HL. rewrite HL.
    rewrite (cell_trace_dirichlet un s0 s t s' sigc uc 0 v 0) by (done || lia).
    unfold L_entry. cbv zeta. unfold lowerNeumann, lowerDirichlet in *.
    apply andb_true_iff in HD as [-> ->]. simpl. rewrite andb_false_r. ring.
  - rewrite E1, HL by lia.
    rewrite (cell_trace_dirichlet un s0 s t s' sigc uc (nCells - 1) v 1) by (done || lia).
    unfold L_entry. cbv zeta. unfold upperNeumann, upperDirichlet in *.
    apply andb_true_iff in HD as [-> ->]. simpl.
    rewrite Nat.ltb_irrefl, !andb_false_r. simpl. ring.
Qed.

End DirichletFace.

Lemma X21_dirichlet_trace_row_witness :
  vget (CsGuL_assemble (P := demo_problem) demo_updated (λ _ _, [5; 6]%Z) (λ _ _, [7; 8]%Z)) 2
  = 0%Z.
Proof.
  destruct (X21_dirichlet_trace_row (P := demo_problem) (zero_garbage (P := demo_problem))
              fresh_solver demo_solver 7%Z demo_updated (λ _ _, [5; 6]%Z) (λ _ _, [7; 8]%Z) 0)
    as [_ H].
  - vm_compute. reflexivity.
  - vm_compute. reflexivity.
  - vm_compute. split; [reflexivity|]. repeat constructor.
  - vm_compute. split; [reflexivity|]. repeat constructor.
  - vm_compute. lia.
  - vm_compute. lia.
  - apply H. vm_compute. reflexivity.
Defined.
